(** * Exposure and risk engines of ai-finance: a shallow embedding

    The calculation services under [backend/app/services] (SA-CCR, PFE,
    initial margin, Value at Risk) are embedded as functions over the real
    numbers.  Python floats are read as exact reals; the places where the
    services can fail (a raised exception, or a division by zero that numpy
    turns into nan or inf) are made explicit through the [result] type. *)

From Stdlib Require Import Reals Lra Lia List String Bool Arith ZArith Factorial Sorted.
From Stdlib Require PrimFloat FloatOps SpecFloat Uint63.
Import ListNotations.

Open Scope R_scope.

(** ** Exceptions and fallible results *)

Inductive exn : Set :=
| ValueError
| ZeroDivisionError
| KeyError
| IndexError
| LinAlgError.

Inductive result (A : Type) : Type :=
| Ok (a : A)
| Raise (e : exn).

Arguments Ok {A} a.
Arguments Raise {A} e.

Definition bind {A B : Type} (r : result A) (f : A -> result B) : result B :=
  match r with
  | Ok a => f a
  | Raise e => Raise e
  end.

Notation "x <- r ;; k" := (bind r (fun x => k))
  (at level 61, r at next level, right associativity).

Fixpoint mapM {A B : Type} (f : A -> result B) (l : list A) : result (list B) :=
  match l with
  | [] => Ok []
  | a :: l' => b <- f a ;; bs <- mapM f l' ;; Ok (b :: bs)
  end.

(** Division of floats.  Python raises [ZeroDivisionError] on a zero
    divisor; numpy scalars return nan or inf instead.  Both are the failure
    outcome of this embedding. *)
Definition fdiv (x y : R) : result R :=
  if Req_EM_T y 0 then Raise ZeroDivisionError else Ok (x / y).

(** [sum(...)] over a list of floats. *)
Definition sum (l : list R) : R := fold_right Rplus 0 l.

(** [enumerate(l)]. *)
Definition enumerate {A : Type} (l : list A) : list (nat * A) :=
  combine (seq 0 (List.length l)) l.

(** A Python [dict] with insertion order, as an association list whose keys
    are distinct. *)
Section Dict.
Context {K V : Type} (eqb : K -> K -> bool).

Fixpoint dict_get (k : K) (d : list (K * V)) : option V :=
  match d with
  | [] => None
  | (k', v) :: d' => if eqb k k' then Some v else dict_get k d'
  end.

Definition dict_mem (k : K) (d : list (K * V)) : bool :=
  match dict_get k d with Some _ => true | None => false end.

(** [d[k] = v]: an existing key keeps its place, a new key goes last. *)
Fixpoint dict_set (k : K) (v : V) (d : list (K * V)) : list (K * V) :=
  match d with
  | [] => [(k, v)]
  | (k', v') :: d' =>
      if eqb k k' then (k', v) :: d' else (k', v') :: dict_set k v d'
  end.

Definition dict_values (d : list (K * V)) : list V := map snd d.
Definition dict_keys (d : list (K * V)) : list K := map fst d.
End Dict.

(** Resolving the decisions on reals that the definitions branch on. *)
Ltac rdec :=
  repeat match goal with
  | |- context [Req_EM_T ?a ?b] =>
      destruct (Req_EM_T a b); try lra
  | |- context [Rle_dec ?a ?b] =>
      destruct (Rle_dec a b); try lra
  | |- context [Rlt_dec ?a ?b] =>
      destruct (Rlt_dec a b); try lra
  end.

(** ** The standard normal distribution ([scipy.stats.norm]) *)

Module Normal.

Definition pdf (x : R) : R := exp (- (x * x) / 2) / sqrt (2 * PI).

Lemma two_PI_pos : 0 < 2 * PI.
Proof. generalize PI_RGT_0; lra. Qed.

Lemma sqrt_two_PI_pos : 0 < sqrt (2 * PI).
Proof. apply sqrt_lt_R0, two_PI_pos. Qed.

Lemma pdf_pos (x : R) : 0 < pdf x.
Proof.
  unfold pdf. apply Rdiv_lt_0_compat; [apply exp_pos | apply sqrt_two_PI_pos].
Qed.

Lemma pdf_continuity : continuity pdf.
Proof.
  unfold pdf.
  assert (H : continuity (fun x => exp (- (x * x) / 2) * / sqrt (2 * PI))).
  { apply continuity_mult.
    - apply (continuity_comp (fun x => - (x * x) / 2) exp).
      + unfold Rdiv. apply continuity_mult.
        * apply continuity_opp. apply continuity_mult; apply derivable_continuous, derivable_id.
        * apply continuity_const. intros x y. reflexivity.
      + apply derivable_continuous, derivable_exp.
    - apply continuity_const. intros x y. reflexivity. }
  exact H.
Qed.

Lemma pdf_integrable (a b : R) : Riemann_integrable pdf a b.
Proof.
  destruct (Rle_dec a b) as [Hab | Hab].
  - apply continuity_implies_RiemannInt; [exact Hab |].
    intros x _. apply pdf_continuity.
  - apply RiemannInt_P1. apply continuity_implies_RiemannInt; [lra |].
    intros x _. apply pdf_continuity.
Qed.

(** [norm.cdf]: the integral of the density below [x], split at the
    median, whose lower half has mass one half. *)
Definition cdf (x : R) : R := 1 / 2 + RiemannInt (pdf_integrable 0 x).

End Normal.

(** ** Helpers shared by the services *)

(** [math.sqrt] and [math.log] raise [ValueError] outside their domain. *)
Definition py_sqrt (x : R) : result R :=
  if Rlt_dec x 0 then Raise ValueError else Ok (sqrt x).

Definition py_log (x : R) : result R :=
  if Rle_dec x 0 then Raise ValueError else Ok (ln x).

(** The asset classes of the SA-CCR, PFE and initial margin schemas (the
    three schema files declare the same enumeration). *)
Inductive AssetClass : Set :=
| INTEREST_RATE
| CREDIT
| EQUITY
| COMMODITY
| FX.

Definition AssetClass_eqb (a b : AssetClass) : bool :=
  match a, b with
  | INTEREST_RATE, INTEREST_RATE
  | CREDIT, CREDIT
  | EQUITY, EQUITY
  | COMMODITY, COMMODITY
  | FX, FX => true
  | _, _ => false
  end.

(** [TransactionType] of the SA-CCR and PFE schemas, [Product] of the
    initial margin schema. *)
Inductive TransactionType : Set :=
| SWAP
| FORWARD
| OPTION
| SWAPTION
| FUTURES
| OTHER.

(** [x in [OPTION, SWAPTION]]. *)
Definition is_option_like (t : TransactionType) : bool :=
  match t with
  | OPTION | SWAPTION => true
  | _ => false
  end.

(** The grouping loop shared by the services:
    [if k not in d: d[k] = []] followed by [d[k].append(x)]. *)
Definition group_append {A : Type} (k : AssetClass) (x : A)
    (d : list (AssetClass * list A)) : list (AssetClass * list A) :=
  match dict_get AssetClass_eqb k d with
  | Some xs => dict_set AssetClass_eqb k (xs ++ [x]) d
  | None => dict_set AssetClass_eqb k [x] d
  end.

Definition group_by_asset_class {A : Type} (asset_class : A -> AssetClass)
    (l : list A) : list (AssetClass * list A) :=
  fold_left (fun d x => group_append (asset_class x) x d) l [].

(** The accumulation loop of the result aggregation:
    [if k not in d: d[k] = 0.0] followed by [d[k] += v]. *)
Definition accumulate (k : AssetClass) (v : R)
    (d : list (AssetClass * R)) : list (AssetClass * R) :=
  match dict_get AssetClass_eqb k d with
  | Some old => dict_set AssetClass_eqb k (old + v) d
  | None => dict_set AssetClass_eqb k (0 + v) d
  end.

Definition accumulate_all (items : list (AssetClass * R))
    (d : list (AssetClass * R)) : list (AssetClass * R) :=
  fold_left (fun d kv => accumulate (fst kv) (snd kv) d) items d.

(** ** SA-CCR service ([services/saccr.py]) *)

Module SACCR.

Inductive OptionType : Set := CALL | PUT.
Inductive OptionStyle : Set := EUROPEAN | AMERICAN.

Record Transaction : Type := {
  id : string;
  asset_class : AssetClass;
  transaction_type : TransactionType;
  notional : R;
  maturity : R;
  underlying_price : option R;
  strike_price : option R;
  option_type : option OptionType;
  option_style : option OptionStyle;
  volatility : option R;
  interest_rate : option R;
  supervisory_delta : option R;
  supervisory_factor : option R;
  maturity_factor : option R
}.

Record NettingSet : Type := {
  ns_id : string;
  transactions : list Transaction;
  collateral : R
}.

Definition SUPERVISORY_FACTORS (a : AssetClass) : R :=
  match a with
  | INTEREST_RATE => 0.005
  | CREDIT => 0.05
  | EQUITY => 0.32
  | COMMODITY => 0.18
  | FX => 0.04
  end.

Definition CORRELATION_PARAMETERS (a : AssetClass) : R :=
  match a with
  | INTEREST_RATE => 0.5
  | CREDIT => 0.5
  | EQUITY => 0.5
  | COMMODITY => 0.4
  | FX => 0.5
  end.

(** [calculate_black_scholes]: price, delta and gamma. *)
Definition calculate_black_scholes (ot : OptionType)
    (underlying_price strike_price time_to_maturity volatility interest_rate : R)
    : result (R * R * R) :=
  ratio <- fdiv underlying_price strike_price ;;
  lg <- py_log ratio ;;
  sq <- py_sqrt time_to_maturity ;;
  d1 <- fdiv (lg + (interest_rate + 0.5 * volatility ^ 2) * time_to_maturity)
             (volatility * sq) ;;
  let d2 := d1 - volatility * sq in
  let '(price, delta) :=
    match ot with
    | CALL =>
        (underlying_price * Normal.cdf d1
         - strike_price * exp (- interest_rate * time_to_maturity) * Normal.cdf d2,
         Normal.cdf d1)
    | PUT =>
        (strike_price * exp (- interest_rate * time_to_maturity) * Normal.cdf (- d2)
         - underlying_price * Normal.cdf (- d1),
         Normal.cdf d1 - 1)
    end in
  gamma <- fdiv (Normal.pdf d1) (underlying_price * volatility * sq) ;;
  Ok (price, delta, gamma).

Definition calculate_supervisory_delta (t : Transaction) : result R :=
  match supervisory_delta t with
  | Some d => Ok d
  | None =>
      if negb (is_option_like (transaction_type t)) then Ok 1
      else
        match underlying_price t, strike_price t, option_type t,
              volatility t, interest_rate t with
        | Some s, Some k, Some ot, Some vol, Some r =>
            pdg <- calculate_black_scholes ot s k (maturity t) vol r ;;
            let '(_, delta, _) := pdg in
            Ok (match ot with PUT => - delta | CALL => delta end)
        | _, _, _, _, _ => Raise ValueError
        end
  end.

Definition calculate_maturity_factor (t : Transaction) : result R :=
  match maturity_factor t with
  | Some m => Ok m
  | None => py_sqrt (Rmin (maturity t) 1 / 1)
  end.

Definition calculate_adjusted_notional (t : Transaction) : R := notional t.

Definition transaction_value (t : Transaction) : result R :=
  if is_option_like (transaction_type t) then
    match underlying_price t, strike_price t, option_type t,
          volatility t, interest_rate t with
    | Some s, Some k, Some ot, Some vol, Some r =>
        pdg <- calculate_black_scholes ot s k (maturity t) vol r ;;
        let '(price, _, _) := pdg in
        Ok (price * notional t)
    | _, _, _, _, _ => Ok (0.1 * notional t)
    end
  else Ok (0.05 * notional t).

Definition calculate_replacement_cost (ns : NettingSet) : result R :=
  values <- mapM transaction_value (transactions ns) ;;
  let total_value := fold_left Rplus values 0 in
  Ok (Rmax (total_value - collateral ns) 0).

Definition effective_notional_of (t : Transaction) : result R :=
  sd <- calculate_supervisory_delta t ;;
  mf <- calculate_maturity_factor t ;;
  Ok (sd * calculate_adjusted_notional t * mf).

Definition class_add_on (group : AssetClass * list Transaction)
    : result (AssetClass * R) :=
  let '(ac, txs) := group in
  let supervisory_factor := SUPERVISORY_FACTORS ac in
  ens <- mapM effective_notional_of txs ;;
  let effective_notional := fold_left Rplus ens 0 in
  Ok (ac, supervisory_factor * effective_notional).

Definition calculate_add_on (ns : NettingSet) : result (list (AssetClass * R)) :=
  mapM class_add_on (group_by_asset_class asset_class (transactions ns)).

(** The multiplier block of [calculate_potential_future_exposure]. *)
Definition multiplier (replacement_cost total_add_on : R) : R :=
  if Req_EM_T total_add_on 0 then 1
  else
    let floor := 0.05 in
    let exp_term := Rmin 1 (replacement_cost / (2 * total_add_on)) in
    floor + (1 - floor) * exp (- exp_term).

Definition calculate_potential_future_exposure (ns : NettingSet)
    : result (R * list (AssetClass * R)) :=
  add_ons <- calculate_add_on ns ;;
  let total_add_on := sum (dict_values add_ons) in
  replacement_cost <- calculate_replacement_cost ns ;;
  let pfe := multiplier replacement_cost total_add_on * total_add_on in
  Ok (pfe, add_ons).

End SACCR.

(** ** PFE service ([services/pfe.py]) *)

Module PFE.

Inductive CalculationMethod : Set := SA_CCR | INTERNAL_MODEL | HISTORICAL.

Inductive TimeHorizon : Set :=
| ONE_WEEK
| ONE_MONTH
| THREE_MONTH
| SIX_MONTH
| ONE_YEAR
| TWO_YEAR
| FIVE_YEAR.

Inductive ConfidenceLevel : Set := CL_95 | CL_97_5 | CL_99.

Record Trade : Type := {
  id : string;
  asset_class : AssetClass;
  transaction_type : TransactionType;
  notional : R;
  maturity : R;
  market_value : R;
  supervisory_delta : option R;
  supervisory_factor : option R;
  maturity_factor : option R
}.

Record Collateral : Type := {
  collateral_id : string;
  amount : R;
  currency : string;
  haircut : R
}.

Record NettingSet : Type := {
  ns_id : string;
  trades : list Trade;
  collateral : list Collateral
}.

Record PFEInput : Type := {
  netting_sets : list NettingSet;
  calculation_method : CalculationMethod;
  time_horizon : TimeHorizon;
  confidence_level : ConfidenceLevel
}.

Record AssetClassBreakdown : Type := {
  breakdown_asset_class : AssetClass;
  exposure : R;
  percentage : R
}.

Record PFEResult : Type := {
  total_pfe : R;
  total_expected_exposure : R;
  result_calculation_method : CalculationMethod;
  result_time_horizon : TimeHorizon;
  result_confidence_level : ConfidenceLevel;
  asset_class_breakdown : list AssetClassBreakdown;
  netting_set_results : list (string * (R * R * list (AssetClass * R)))
}.

Definition SUPERVISORY_FACTORS (a : AssetClass) : R :=
  match a with
  | INTEREST_RATE => 0.005
  | CREDIT => 0.05
  | EQUITY => 0.32
  | COMMODITY => 0.18
  | FX => 0.04
  end.

Definition TIME_HORIZON_YEARS (h : TimeHorizon) : R :=
  match h with
  | ONE_WEEK => 1 / 52
  | ONE_MONTH => 1 / 12
  | THREE_MONTH => 3 / 12
  | SIX_MONTH => 6 / 12
  | ONE_YEAR => 1
  | TWO_YEAR => 2
  | FIVE_YEAR => 5
  end.

Definition CONFIDENCE_LEVELS (c : ConfidenceLevel) : R :=
  match c with
  | CL_95 => 1.645
  | CL_97_5 => 1.96
  | CL_99 => 2.326
  end.

Definition calculate_supervisory_delta (t : Trade) : R :=
  match supervisory_delta t with
  | Some d => d
  | None =>
      if negb (is_option_like (transaction_type t)) then 1
      else 0.5
  end.

Definition calculate_maturity_factor (t : Trade) : result R :=
  match maturity_factor t with
  | Some m => Ok m
  | None => py_sqrt (Rmin (maturity t) 1 / 1)
  end.

Definition calculate_collateral_value (collateral : list Collateral) : R :=
  sum (map (fun c => (1 - haircut c) * amount c) collateral).

Definition calculate_replacement_cost (ns : NettingSet) : R :=
  let total_market_value := sum (map market_value (trades ns)) in
  let collateral_value := calculate_collateral_value (collateral ns) in
  Rmax (total_market_value - collateral_value) 0.

Definition effective_notional_of (t : Trade) : result R :=
  let sd := calculate_supervisory_delta t in
  mf <- calculate_maturity_factor t ;;
  Ok (sd * notional t * mf).

Definition class_add_on (group : AssetClass * list Trade)
    : result (AssetClass * R) :=
  let '(ac, ts) := group in
  let supervisory_factor := SUPERVISORY_FACTORS ac in
  ens <- mapM effective_notional_of ts ;;
  let effective_notional := fold_left Rplus ens 0 in
  Ok (ac, supervisory_factor * effective_notional).

Definition calculate_add_on (ns : NettingSet) : result (list (AssetClass * R)) :=
  mapM class_add_on (group_by_asset_class asset_class (trades ns)).

(** The multiplier block of [calculate_potential_future_exposure_sa_ccr]. *)
Definition multiplier (replacement_cost total_add_on : R) : R :=
  if Req_EM_T total_add_on 0 then 1
  else
    let floor := 0.05 in
    let exp_term := Rmin 1 (replacement_cost / (2 * total_add_on)) in
    floor + (1 - floor) * exp (- exp_term).

Definition calculate_potential_future_exposure_sa_ccr (ns : NettingSet)
    (h : TimeHorizon) (c : ConfidenceLevel) : result (R * list (AssetClass * R)) :=
  add_ons <- calculate_add_on ns ;;
  let total_add_on := sum (dict_values add_ons) in
  let replacement_cost := calculate_replacement_cost ns in
  let pfe := multiplier replacement_cost total_add_on * total_add_on in
  let time_factor := sqrt (TIME_HORIZON_YEARS h) in
  let pfe := pfe * time_factor in
  let confidence_factor := CONFIDENCE_LEVELS c / 1.96 in
  let pfe := pfe * confidence_factor in
  Ok (pfe, add_ons).

(** The exposure profile that the two methods below also return is built
    from the PFE and does not feed back into it; it is left out. *)
Definition calculate_potential_future_exposure_internal_model (ns : NettingSet)
    (h : TimeHorizon) (c : ConfidenceLevel) : result (R * list (AssetClass * R)) :=
  r <- calculate_potential_future_exposure_sa_ccr ns h c ;;
  let '(pfe, add_ons) := r in
  let adjustment_factor := 0.8 in
  Ok (pfe * adjustment_factor, add_ons).

Definition calculate_potential_future_exposure_historical (ns : NettingSet)
    (h : TimeHorizon) (c : ConfidenceLevel) : result (R * list (AssetClass * R)) :=
  r <- calculate_potential_future_exposure_sa_ccr ns h c ;;
  let '(pfe, add_ons) := r in
  let adjustment_factor := 1.1 in
  Ok (pfe * adjustment_factor, add_ons).

(** The method dispatch of [calculate_pfe]. *)
Definition pfe_by_method (m : CalculationMethod) (ns : NettingSet)
    (h : TimeHorizon) (c : ConfidenceLevel) : result (R * list (AssetClass * R)) :=
  match m with
  | SA_CCR => calculate_potential_future_exposure_sa_ccr ns h c
  | INTERNAL_MODEL => calculate_potential_future_exposure_internal_model ns h c
  | HISTORICAL => calculate_potential_future_exposure_historical ns h c
  end.

(** The state threaded through the loop over netting sets. *)
Record Totals : Type := {
  acc_total_pfe : R;
  acc_total_expected_exposure : R;
  all_add_ons : list (AssetClass * R);
  acc_netting_set_results : list (string * (R * R * list (AssetClass * R)))
}.

Definition process_netting_set (input : PFEInput) (st : Totals) (ns : NettingSet)
    : result Totals :=
  r <- pfe_by_method (calculation_method input) ns
         (time_horizon input) (confidence_level input) ;;
  let '(pfe, add_ons) := r in
  let expected_exposure := calculate_replacement_cost ns in
  Ok {| acc_total_pfe := acc_total_pfe st + pfe;
        acc_total_expected_exposure := acc_total_expected_exposure st + expected_exposure;
        all_add_ons := accumulate_all add_ons (all_add_ons st);
        acc_netting_set_results :=
          dict_set String.eqb (ns_id ns) (pfe, expected_exposure, add_ons)
                   (acc_netting_set_results st) |}.

Fixpoint process_netting_sets (input : PFEInput) (st : Totals)
    (l : list NettingSet) : result Totals :=
  match l with
  | [] => Ok st
  | ns :: l' =>
      st' <- process_netting_set input st ns ;;
      process_netting_sets input st' l'
  end.

(** The breakdown loop at the end of [calculate_pfe]. *)
Definition breakdown_of (all_add_ons : list (AssetClass * R))
    : list AssetClassBreakdown :=
  let total_add_on := sum (dict_values all_add_ons) in
  map (fun kv =>
         let '(ac, add_on) := kv in
         {| breakdown_asset_class := ac;
            exposure := add_on;
            percentage :=
              if Rlt_dec 0 total_add_on then (add_on / total_add_on) * 100 else 0 |})
      all_add_ons.

Definition calculate_pfe (input : PFEInput) : result PFEResult :=
  st <- process_netting_sets input
          {| acc_total_pfe := 0; acc_total_expected_exposure := 0;
             all_add_ons := []; acc_netting_set_results := [] |}
          (netting_sets input) ;;
  Ok {| total_pfe := acc_total_pfe st;
        total_expected_exposure := acc_total_expected_exposure st;
        result_calculation_method := calculation_method input;
        result_time_horizon := time_horizon input;
        result_confidence_level := confidence_level input;
        asset_class_breakdown := breakdown_of (all_add_ons st);
        netting_set_results := acc_netting_set_results st |}.

End PFE.

(** ** Initial margin service ([services/initial_margin.py]) *)

Module InitialMargin.

Local Open Scope string_scope.

Inductive CalculationMethod : Set := GRID | SIMM.

Record Trade : Type := {
  id : string;
  asset_class : AssetClass;
  product : TransactionType;
  notional : R;
  maturity : R;
  market_value : R;
  delta : option R;
  vega : option R;
  curvature : option R
}.

Record NettingSet : Type := {
  ns_id : string;
  trades : list Trade
}.

Record InitialMarginInput : Type := {
  netting_sets : list NettingSet;
  calculation_method : CalculationMethod
}.

Record AssetClassBreakdown : Type := {
  breakdown_asset_class : AssetClass;
  margin : R;
  percentage : R
}.

Record SensitivityBreakdown : Type := {
  sb_delta : R;
  sb_vega : R;
  sb_curvature : R
}.

Record InitialMarginResult : Type := {
  total_margin : R;
  result_calculation_method : CalculationMethod;
  asset_class_breakdown : list AssetClassBreakdown;
  sensitivity_breakdown : option SensitivityBreakdown;
  netting_set_results : list (string * (R * list (AssetClass * R)))
}.

Definition GRID_THRESHOLDS (a : AssetClass) : list (string * R) :=
  match a with
  | INTEREST_RATE => [("0-2", 0.01); ("2-5", 0.02); ("5+", 0.04)]
  | CREDIT => [("0-2", 0.02); ("2-5", 0.05); ("5+", 0.10)]
  | EQUITY => [("0-2", 0.06); ("2-5", 0.08); ("5+", 0.10)]
  | COMMODITY => [("0-2", 0.10); ("2-5", 0.12); ("5+", 0.15)]
  | FX => [("0-2", 0.04); ("2-5", 0.05); ("5+", 0.06)]
  end.

Definition SIMM_RISK_WEIGHTS (a : AssetClass) : list (string * R) :=
  match a with
  | INTEREST_RATE => [("delta", 0.005); ("vega", 0.01); ("curvature", 0.01)]
  | CREDIT => [("delta", 0.05); ("vega", 0.10); ("curvature", 0.10)]
  | EQUITY => [("delta", 0.15); ("vega", 0.20); ("curvature", 0.20)]
  | COMMODITY => [("delta", 0.18); ("vega", 0.30); ("curvature", 0.30)]
  | FX => [("delta", 0.04); ("vega", 0.05); ("curvature", 0.05)]
  end.

(** [d[k]] on a table with string keys: a missing key raises [KeyError]. *)
Definition lookup (k : string) (d : list (string * R)) : result R :=
  match dict_get String.eqb k d with
  | Some v => Ok v
  | None => Raise KeyError
  end.

Definition get_maturity_bucket (maturity : R) : string :=
  if Rlt_dec maturity 2 then "0-2"
  else if Rlt_dec maturity 5 then "2-5"
  else "5+".

(** The inner loop of [calculate_grid_margin]: the bucket and its threshold
    are looked up for every trade, and only [abs(trade.notional)] is
    accumulated. *)
Fixpoint grid_gross_notional (ac : AssetClass) (ts : list Trade) (gross : R)
    : result R :=
  match ts with
  | [] => Ok gross
  | t :: ts' =>
      let maturity_bucket := get_maturity_bucket (maturity t) in
      threshold <- lookup maturity_bucket (GRID_THRESHOLDS ac) ;;
      grid_gross_notional ac ts' (gross + Rabs (notional t))
  end.

Definition grid_class_margin (group : AssetClass * list Trade)
    : result (AssetClass * R) :=
  let '(ac, ts) := group in
  gross_notional <- grid_gross_notional ac ts 0 ;;
  rate <- lookup "2-5" (GRID_THRESHOLDS ac) ;;
  Ok (ac, gross_notional * rate).

Definition calculate_grid_margin (ns : NettingSet)
    : result (R * list (AssetClass * R)) :=
  margins <- mapM grid_class_margin (group_by_asset_class asset_class (trades ns)) ;;
  let total_margin := sum (dict_values margins) in
  Ok (total_margin, margins).

(** The inner loop of [calculate_simm_margin]: the three sensitivity sums
    of one asset class. *)
Definition simm_sums (ts : list Trade) : R * R * R :=
  fold_left
    (fun acc t =>
       let '(delta_sum, vega_sum, curvature_sum) := acc in
       let d := match delta t with Some d => d | None => 1 end in
       let delta_sum := delta_sum + d * notional t in
       let vega_sum :=
         if is_option_like (product t)
         then vega_sum + (match vega t with Some v => v | None => 0.1 end) * notional t
         else vega_sum in
       let curvature_sum :=
         if is_option_like (product t)
         then curvature_sum
              + (match curvature t with Some c => c | None => 0.01 end) * notional t
         else curvature_sum in
       (delta_sum, vega_sum, curvature_sum))
    ts (0, 0, 0).

Definition simm_class_margin (group : AssetClass * list Trade)
    : result (AssetClass * (R * R * R)) :=
  let '(ac, ts) := group in
  let '(delta_sum, vega_sum, curvature_sum) := simm_sums ts in
  wd <- lookup "delta" (SIMM_RISK_WEIGHTS ac) ;;
  wv <- lookup "vega" (SIMM_RISK_WEIGHTS ac) ;;
  wc <- lookup "curvature" (SIMM_RISK_WEIGHTS ac) ;;
  Ok (ac, (Rabs delta_sum * wd, Rabs vega_sum * wv, Rabs curvature_sum * wc)).

Definition calculate_simm_margin (ns : NettingSet)
    : result (R * list (AssetClass * R) * SensitivityBreakdown) :=
  parts <- mapM simm_class_margin (group_by_asset_class asset_class (trades ns)) ;;
  let margins :=
    map (fun p => let '(ac, (d, v, c)) := p in (ac, d + v + c)) parts in
  let total_delta := fold_left (fun a p => a + fst (fst (snd p))) parts 0 in
  let total_vega := fold_left (fun a p => a + snd (fst (snd p))) parts 0 in
  let total_curvature := fold_left (fun a p => a + snd (snd p)) parts 0 in
  let total_margin := sum (dict_values margins) in
  Ok (total_margin, margins,
      {| sb_delta := total_delta; sb_vega := total_vega;
         sb_curvature := total_curvature |}).

(** The state threaded through the loop over netting sets. *)
Record Totals : Type := {
  acc_total_margin : R;
  all_margins : list (AssetClass * R);
  acc_sensitivity : option SensitivityBreakdown;
  acc_netting_set_results : list (string * (R * list (AssetClass * R)))
}.

Definition margin_by_method (m : CalculationMethod) (st : Totals) (ns : NettingSet)
    : result (R * list (AssetClass * R) * option SensitivityBreakdown) :=
  match m with
  | GRID =>
      r <- calculate_grid_margin ns ;;
      let '(margin, margins) := r in
      Ok (margin, margins, acc_sensitivity st)
  | SIMM =>
      r <- calculate_simm_margin ns ;;
      let '(margin, margins, netting_sensitivity) := r in
      let sensitivity :=
        match acc_sensitivity st with
        | None => netting_sensitivity
        | Some sb =>
            {| sb_delta := sb_delta sb + sb_delta netting_sensitivity;
               sb_vega := sb_vega sb + sb_vega netting_sensitivity;
               sb_curvature := sb_curvature sb + sb_curvature netting_sensitivity |}
        end in
      Ok (margin, margins, Some sensitivity)
  end.

Definition process_netting_set (input : InitialMarginInput) (st : Totals)
    (ns : NettingSet) : result Totals :=
  r <- margin_by_method (calculation_method input) st ns ;;
  let '(margin, margins, sensitivity) := r in
  Ok {| acc_total_margin := acc_total_margin st + margin;
        all_margins := accumulate_all margins (all_margins st);
        acc_sensitivity := sensitivity;
        acc_netting_set_results :=
          dict_set String.eqb (ns_id ns) (margin, margins)
                   (acc_netting_set_results st) |}.

Fixpoint process_netting_sets (input : InitialMarginInput) (st : Totals)
    (l : list NettingSet) : result Totals :=
  match l with
  | [] => Ok st
  | ns :: l' =>
      st' <- process_netting_set input st ns ;;
      process_netting_sets input st' l'
  end.

(** The breakdown loop at the end of [calculate_initial_margin]. *)
Definition breakdown_of (total_margin : R) (all_margins : list (AssetClass * R))
    : list AssetClassBreakdown :=
  map (fun kv =>
         let '(ac, m) := kv in
         {| breakdown_asset_class := ac;
            margin := m;
            percentage :=
              if Rlt_dec 0 total_margin then (m / total_margin) * 100 else 0 |})
      all_margins.

Definition calculate_initial_margin (input : InitialMarginInput)
    : result InitialMarginResult :=
  st <- process_netting_sets input
          {| acc_total_margin := 0; all_margins := [];
             acc_sensitivity := None; acc_netting_set_results := [] |}
          (netting_sets input) ;;
  Ok {| total_margin := acc_total_margin st;
        result_calculation_method := calculation_method input;
        asset_class_breakdown := breakdown_of (acc_total_margin st) (all_margins st);
        sensitivity_breakdown := acc_sensitivity st;
        netting_set_results := acc_netting_set_results st |}.

End InitialMargin.

(** ** Dense matrices ([numpy] two-dimensional arrays) *)

Definition matrix : Type := list (list R).

Definition mget (m : matrix) (i j : nat) : R := nth j (nth i m []) 0.

Fixpoint list_set {A : Type} (i : nat) (v : A) (l : list A) : list A :=
  match l, i with
  | [], _ => []
  | _ :: l', O => v :: l'
  | x :: l', S i' => x :: list_set i' v l'
  end.

(** [m[i, j] = v] for indices inside the array. *)
Definition mset (m : matrix) (i j : nat) (v : R) : matrix :=
  list_set i (list_set j v (nth i m [])) m.

Definition mbuild (n : nat) (f : nat -> nat -> R) : matrix :=
  map (fun i => map (fun j => f i j) (seq 0 n)) (seq 0 n).

Definition dot (u v : list R) : R :=
  sum (map (fun p => fst p * snd p) (combine u v)).

(** [M @ v]. *)
Definition matvec (m : matrix) (v : list R) : list R :=
  map (fun row => dot row v) m.

(** [v.T @ M] for an [n] by [n] matrix. *)
Definition vecmat (n : nat) (v : list R) (m : matrix) : list R :=
  map (fun j => sum (map (fun i => nth i v 0 * mget m i j) (seq 0 n))) (seq 0 n).

(** ** Binary64 floats

    The few float computations whose rounding is observable are embedded
    on the kernel's IEEE 754 floats. *)

Module IEEE.

Import PrimFloat.

Definition lit_1 : float := 1%float.
Definition lit_100 : float := 100%float.
Definition lit_90 : float := 90%float.
Definition lit_95 : float := 95%float.
Definition lit_97_5 : float := 97.5%float.
Definition lit_99 : float := 99%float.

(** [float(n)] of a Python [int]. *)
Definition of_nat (n : nat) : float := of_uint63 (Uint63.of_Z (Z.of_nat n)).

(** [int(x)] of a float: truncation toward zero. *)
Definition trunc (x : float) : Z :=
  match FloatOps.Prim2SF x with
  | SpecFloat.S754_finite s m e =>
      let magnitude :=
        match e with
        | Zneg p => Z.shiftr (Zpos m) (Zpos p)
        | _ => Z.shiftl (Zpos m) e
        end in
      if s then Z.opp magnitude else magnitude
  | _ => 0%Z
  end.

End IEEE.

(** ** Value at Risk service ([services/var.py]) *)

Module VaR.

Inductive AssetClass : Set :=
| EQUITY
| FX
| INTEREST_RATE
| COMMODITY
| CRYPTO.

Definition AssetClass_eqb (a b : AssetClass) : bool :=
  match a, b with
  | EQUITY, EQUITY
  | FX, FX
  | INTEREST_RATE, INTEREST_RATE
  | COMMODITY, COMMODITY
  | CRYPTO, CRYPTO => true
  | _, _ => false
  end.

Inductive VaRMethod : Set := HISTORICAL | PARAMETRIC | MONTE_CARLO.
Inductive TimeHorizon : Set := ONE_DAY | TEN_DAY | ONE_MONTH | THREE_MONTH.
Inductive ConfidenceLevel : Set := CL_90 | CL_95 | CL_97_5 | CL_99.

Record Position : Type := {
  id : string;
  asset_class : AssetClass;
  ticker : string;
  quantity : R;
  price : R;
  volatility : option R;
  correlation : option (list (string * R))
}.

Record Portfolio : Type := {
  portfolio_id : string;
  positions : list Position
}.

Record VaRInput : Type := {
  portfolio : Portfolio;
  method : VaRMethod;
  time_horizon : TimeHorizon;
  confidence_level : ConfidenceLevel;
  num_simulations : nat;
  include_stress_scenarios : bool
}.

Record AssetContribution : Type := {
  asset_id : string;
  contribution_ticker : string;
  contribution_asset_class : AssetClass;
  var_contribution : R;
  var_contribution_percentage : R
}.

Record StressScenario : Type := {
  name : string;
  description : string;
  stressed_var : R;
  var_increase : R;
  var_increase_percentage : R
}.

(** [DistributionStatistics] is reported beside the figures below and is
    read by none of them; the result record leaves it out. *)
Record VaRResult : Type := {
  var : R;
  var_percentage : R;
  portfolio_value : R;
  result_method : VaRMethod;
  result_time_horizon : TimeHorizon;
  result_confidence_level : ConfidenceLevel;
  asset_contributions : list AssetContribution;
  diversification_benefit : R;
  diversification_benefit_percentage : R;
  stress_scenarios : option (list StressScenario)
}.

Definition CONFIDENCE_LEVELS (c : ConfidenceLevel) : R :=
  match c with
  | CL_90 => 1.282
  | CL_95 => 1.645
  | CL_97_5 => 1.96
  | CL_99 => 2.326
  end.

Definition TIME_HORIZON_FACTORS (h : TimeHorizon) : R :=
  match h with
  | ONE_DAY => 1
  | TEN_DAY => sqrt 10
  | ONE_MONTH => sqrt 22
  | THREE_MONTH => sqrt 66
  end.

Record Scenario : Type := {
  scenario_name : string;
  scenario_description : string;
  volatility_multiplier : R;
  correlation_increase : R;
  asset_class_impacts : option (list (AssetClass * R))
}.

Local Open Scope string_scope.

Definition MARKET_CRASH : Scenario :=
  {| scenario_name := "Market Crash";
     scenario_description :=
       "Simulates a severe market crash similar to 2008 financial crisis";
     volatility_multiplier := 3;
     correlation_increase := 0.2;
     asset_class_impacts := None |}.

Definition INTEREST_RATE_SPIKE : Scenario :=
  {| scenario_name := "Interest Rate Spike";
     scenario_description := "Simulates a sudden increase in interest rates";
     volatility_multiplier := 2;
     correlation_increase := 0.1;
     asset_class_impacts :=
       Some [(INTEREST_RATE, 2.5); (EQUITY, 1.5); (FX, 1.2);
             (COMMODITY, 1); (CRYPTO, 1.3)] |}.

Definition LIQUIDITY_CRISIS : Scenario :=
  {| scenario_name := "Liquidity Crisis";
     scenario_description := "Simulates a market-wide liquidity crisis";
     volatility_multiplier := 2.5;
     correlation_increase := 0.3;
     asset_class_impacts :=
       Some [(INTEREST_RATE, 1.5); (EQUITY, 2); (FX, 1.8);
             (COMMODITY, 1.5); (CRYPTO, 3)] |}.

(** The three entries of the [STRESS_SCENARIOS] list, in its order. *)
Definition STRESS_SCENARIOS : list Scenario :=
  [MARKET_CRASH; INTEREST_RATE_SPIKE; LIQUIDITY_CRISIS].

Local Close Scope string_scope.

Definition position_value (p : Position) : R := quantity p * price p.

Definition calculate_portfolio_value (pf : Portfolio) : R :=
  sum (map position_value (positions pf)).

(** [position.volatility if position.volatility is not None else 0.2]. *)
Definition volatility_or_default (p : Position) : R :=
  match volatility p with
  | Some v => v
  | None => 0.2
  end.

(** [position.volatility or 0.2]: a zero volatility is falsy as well. *)
Definition volatility_or (p : Position) : R :=
  match volatility p with
  | Some v => if Req_EM_T v 0 then 0.2 else v
  | None => 0.2
  end.

(** The correlation matrix block shared, line for line, by
    [calculate_parametric_var] and [calculate_monte_carlo_var]. *)
Definition initial_correlation (n : nat) : matrix :=
  mbuild n (fun i j => if Nat.eqb i j then 1 else 0.5).

Definition update_entry (corr : list (string * R)) (i : nat)
    (m : matrix) (jp : nat * Position) : matrix :=
  let '(j, position_j) := jp in
  match dict_get String.eqb (id position_j) corr with
  | Some c => mset (mset m i j c) j i c
  | None => m
  end.

Definition update_row (ps : list Position) (m : matrix) (ip : nat * Position)
    : matrix :=
  let '(i, position_i) := ip in
  match correlation position_i with
  | Some (e :: corr) => fold_left (update_entry (e :: corr) i) (enumerate ps) m
  | _ => m
  end.

Definition correlation_matrix (ps : list Position) : matrix :=
  fold_left (update_row ps) (enumerate ps) (initial_correlation (List.length ps)).

Definition make_contribution (p : Position) (component_var pct : R)
    : AssetContribution :=
  {| asset_id := id p;
     contribution_ticker := ticker p;
     contribution_asset_class := asset_class p;
     var_contribution := component_var;
     var_contribution_percentage := pct |}.

(** *** Parametric method *)

Definition variance_matrix (ps : list Position) : matrix :=
  let variance_vector := map (fun p => volatility_or p ^ 2) ps in
  let sd := map sqrt variance_vector in
  let corr := correlation_matrix ps in
  mbuild (List.length ps) (fun i j => nth i sd 0 * nth j sd 0 * mget corr i j).

Definition weights_of (pf : Portfolio) : result (list R) :=
  let portfolio_value := calculate_portfolio_value pf in
  mapM (fun p => fdiv (position_value p) portfolio_value) (positions pf).

Definition portfolio_variance_of (n : nat) (weights : list R) (vm : matrix) : R :=
  dot (vecmat n weights vm) weights.

Definition position_var (z_score time_factor : R) (p : Position) : R :=
  position_value p * volatility_or_default p * z_score * time_factor / sqrt 252.

(** The contribution of position [i]: the [mcr] loop over [range(n)], then
    the component VaR and its percentage. *)
Definition parametric_contribution (n : nat) (weights : list R) (vm : matrix)
    (sq diversified_var : R) (ip : nat * Position) : result AssetContribution :=
  let '(i, p) := ip in
  let mcr :=
    fold_left (fun mcr j => mcr + nth j weights 0 * mget vm i j) (seq 0 n) 0 in
  mcr <- fdiv mcr sq ;;
  let component_var := nth i weights 0 * mcr * diversified_var in
  pct <- fdiv component_var diversified_var ;;
  Ok (make_contribution p component_var (pct * 100)).

Definition calculate_parametric_var (pf : Portfolio) (cl : ConfidenceLevel)
    (th : TimeHorizon) : result (R * list AssetContribution * R) :=
  let z_score := CONFIDENCE_LEVELS cl in
  let time_factor := TIME_HORIZON_FACTORS th in
  let portfolio_value := calculate_portfolio_value pf in
  let asset_vars := map (position_var z_score time_factor) (positions pf) in
  let undiversified_var := sum asset_vars in
  let n := List.length (positions pf) in
  let vm := variance_matrix (positions pf) in
  weights <- weights_of pf ;;
  let portfolio_variance := portfolio_variance_of n weights vm in
  sq <- py_sqrt portfolio_variance ;;
  let diversified_var := portfolio_value * sq * z_score * time_factor / sqrt 252 in
  let diversification_benefit := undiversified_var - diversified_var in
  asset_contributions <-
    mapM (parametric_contribution n weights vm sq diversified_var)
         (enumerate (positions pf)) ;;
  Ok (diversified_var, asset_contributions, diversification_benefit).

(** *** Quantile index

    [int(n * (1 - float(level.value.strip('%')) / 100))] is a computation
    on binary64 floats whose rounding decides the index (at 90%, [1 - 0.9]
    is just below one tenth and the product truncates one short), so it is
    embedded on the kernel's IEEE 754 floats rather than on reals. *)

Definition percent_of (c : ConfidenceLevel) : PrimFloat.float :=
  match c with
  | CL_90 => IEEE.lit_90
  | CL_95 => IEEE.lit_95
  | CL_97_5 => IEEE.lit_97_5
  | CL_99 => IEEE.lit_99
  end.

Definition var_index (n : nat) (c : ConfidenceLevel) : nat :=
  let confidence_percentile := PrimFloat.div (percent_of c) IEEE.lit_100 in
  Z.to_nat
    (IEEE.trunc
       (PrimFloat.mul (IEEE.of_nat n)
                      (PrimFloat.sub IEEE.lit_1 confidence_percentile))).

(** *** Sample statistics ([numpy]) *)

Fixpoint insert_sorted (x : R) (l : list R) : list R :=
  match l with
  | [] => [x]
  | y :: l' => if Rle_dec x y then x :: l else y :: insert_sorted x l'
  end.

(** [np.sort]: ascending order. *)
Definition np_sort (l : list R) : list R := fold_right insert_sorted [] l.

(** [a[i]] on a one-dimensional array. *)
Definition index (l : list R) (i : nat) : result R :=
  match nth_error l i with
  | Some x => Ok x
  | None => Raise IndexError
  end.

Definition np_mean (l : list R) : result R :=
  fdiv (sum l) (INR (List.length l)).

Definition centered (l : list R) (m : R) : list R := map (fun x => x - m) l.

(** [np.std]: the population standard deviation. *)
Definition np_std (l : list R) : result R :=
  m <- np_mean l ;;
  v <- np_mean (map (fun d => d * d) (centered l m)) ;;
  Ok (sqrt v).

(** An entry of [np.cov(x, y)], normalised by [N - 1]. *)
Definition np_cov (x y : list R) : result R :=
  mx <- np_mean x ;;
  my <- np_mean y ;;
  fdiv (dot (centered x mx) (centered y my)) (INR (List.length x) - 1).

(** [np.corrcoef(x, y)[0, 1]]: the covariance divided by both standard
    deviations. *)
Definition np_corrcoef (x y : list R) : result R :=
  cxy <- np_cov x y ;;
  cxx <- np_cov x x ;;
  cyy <- np_cov y y ;;
  r <- fdiv cxy (sqrt cxx) ;;
  fdiv r (sqrt cyy).

(** The contribution loop shared by the historical and the Monte Carlo
    method: beta of the asset series against the portfolio series. *)
Definition simulated_contribution (portfolio_value var : R)
    (portfolio_returns : list R) (p : Position) (asset_returns : list R)
    : result AssetContribution :=
  rho <- np_corrcoef asset_returns portfolio_returns ;;
  sa <- np_std asset_returns ;;
  sp <- np_std portfolio_returns ;;
  ratio <- fdiv sa sp ;;
  let beta := rho * ratio in
  w <- fdiv (position_value p) portfolio_value ;;
  let component_var := w * beta * var in
  pct <- fdiv component_var var ;;
  Ok (make_contribution p component_var (pct * 100)).

(** Elementwise [a + c * b] on arrays of one length. *)
Definition axpy (c : R) (b a : list R) : list R :=
  map (fun p => fst p + c * snd p) (combine a b).

Section Simulation.

(** The draws of [np.random.normal(0, 1)] in the order the generator
    yields them after [np.random.seed(42)]; both simulating methods reseed
    on entry, so each call reads this stream from its start. *)
Variable gauss : nat -> R.

(** [np.random.normal(loc, scale, size)] reading the stream at [start]. *)
Definition normal (loc scale : R) (size start : nat) : list R :=
  map (fun k => loc + scale * gauss (start + k)%nat) (seq 0 size).

(** *** Historical method *)

Definition num_days : nat := 500.

(** The [returns] dictionary, keyed by position id. *)
Definition historical_returns (ps : list Position) : list (string * list R) :=
  fold_left
    (fun d kp =>
       let '(k, p) := kp in
       let daily_volatility := volatility_or_default p / sqrt 252 in
       dict_set String.eqb (id p)
                (normal 0 daily_volatility num_days (k * num_days)) d)
    (enumerate ps) [].

Definition returns_of (returns : list (string * list R)) (p : Position)
    : result (list R) :=
  match dict_get String.eqb (id p) returns with
  | Some r => Ok r
  | None => Raise KeyError
  end.

Fixpoint historical_portfolio_returns (portfolio_value : R)
    (returns : list (string * list R)) (ps : list Position) (acc : list R)
    : result (list R) :=
  match ps with
  | [] => Ok acc
  | p :: ps' =>
      w <- fdiv (position_value p) portfolio_value ;;
      r <- returns_of returns p ;;
      historical_portfolio_returns portfolio_value returns ps' (axpy w r acc)
  end.

Definition quantile_loss (series : list R) (idx : nat) : result R :=
  q <- index (np_sort series) idx ;;
  Ok (- q).

Definition calculate_historical_var (pf : Portfolio) (cl : ConfidenceLevel)
    (th : TimeHorizon) : result (R * list AssetContribution * R) :=
  let time_factor := TIME_HORIZON_FACTORS th in
  let portfolio_value := calculate_portfolio_value pf in
  let returns := historical_returns (positions pf) in
  portfolio_returns <-
    historical_portfolio_returns portfolio_value returns (positions pf)
      (repeat 0 num_days) ;;
  let idx := var_index num_days cl in
  var_return <- quantile_loss portfolio_returns idx ;;
  let var := portfolio_value * var_return * time_factor in
  asset_vars <-
    mapM (fun p =>
            r <- returns_of returns p ;;
            position_var_return <- quantile_loss r idx ;;
            Ok (position_value p * position_var_return * time_factor))
         (positions pf) ;;
  let undiversified_var := sum asset_vars in
  let diversification_benefit := undiversified_var - var in
  asset_contributions <-
    mapM (fun p =>
            r <- returns_of returns p ;;
            simulated_contribution portfolio_value var portfolio_returns p r)
         (positions pf) ;;
  Ok (var, asset_contributions, diversification_benefit).

(** *** Monte Carlo method *)

(** [np.linalg.cholesky]: the lower triangular factor, row by row;
    [LinAlgError] when the matrix is not positive definite. *)
Fixpoint cholesky_prefix (a_i : list R) (rows : matrix) (acc : list R) : list R :=
  match rows, a_i with
  | l_j :: rows', a_ij :: a_i' =>
      let l_ij := (a_ij - dot acc l_j) / nth (List.length acc) l_j 0 in
      cholesky_prefix a_i' rows' (acc ++ [l_ij])
  | _, _ => acc
  end.

Definition cholesky_row (n : nat) (rows : matrix) (a_i : list R)
    : result (list R) :=
  let i := List.length rows in
  let prefix := cholesky_prefix a_i rows [] in
  let radicand := nth i a_i 0 - dot prefix prefix in
  if Rle_dec radicand 0 then Raise LinAlgError
  else Ok (prefix ++ [sqrt radicand] ++ repeat 0 (n - i - 1)).

Fixpoint cholesky_rows (n : nat) (rows : matrix) (a : matrix) : result matrix :=
  match a with
  | [] => Ok rows
  | a_i :: a' =>
      row <- cholesky_row n rows a_i ;;
      cholesky_rows n (rows ++ [row]) a'
  end.

Definition cholesky (a : matrix) : result matrix :=
  cholesky_rows (List.length a) [] a.

(** One pass of the simulation loop: the scaled returns of every asset. *)
Definition simulate (n : nat) (chol : matrix) (daily_volatility : list R)
    (i : nat) : list R :=
  let z := normal 0 1 n (i * n) in
  let correlated_returns := matvec chol z in
  map (fun p => fst p * snd p) (combine correlated_returns daily_volatility).

(** The inner loop over [enumerate(portfolio.positions)]. *)
Fixpoint weighted_return (portfolio_value : R) (jps : list (nat * Position))
    (scaled_returns : list R) (portfolio_return : R) : result R :=
  match jps with
  | [] => Ok portfolio_return
  | (j, p) :: rest =>
      w <- fdiv (position_value p) portfolio_value ;;
      x <- index scaled_returns j ;;
      weighted_return portfolio_value rest scaled_returns (portfolio_return + w * x)
  end.

(** [asset_returns[j, :]]. *)
Definition asset_series (sims : list (list R)) (j : nat) : list R :=
  map (fun s => nth j s 0) sims.

Definition calculate_monte_carlo_var (pf : Portfolio) (cl : ConfidenceLevel)
    (th : TimeHorizon) (num_simulations : nat)
    : result (R * list AssetContribution * R) :=
  let time_factor := TIME_HORIZON_FACTORS th in
  let portfolio_value := calculate_portfolio_value pf in
  let n := List.length (positions pf) in
  let corr := correlation_matrix (positions pf) in
  let volatility_vector := map volatility_or_default (positions pf) in
  chol <- cholesky corr ;;
  let daily_volatility := map (fun v => v / sqrt 252) volatility_vector in
  let sims := map (simulate n chol daily_volatility) (seq 0 num_simulations) in
  portfolio_returns <-
    mapM (fun s => weighted_return portfolio_value (enumerate (positions pf)) s 0)
         sims ;;
  let idx := var_index num_simulations cl in
  var_return <- quantile_loss portfolio_returns idx ;;
  let var := portfolio_value * var_return * time_factor in
  asset_vars <-
    mapM (fun jp =>
            position_var_return <- quantile_loss (asset_series sims (fst jp)) idx ;;
            Ok (position_value (snd jp) * position_var_return * time_factor))
         (enumerate (positions pf)) ;;
  let undiversified_var := sum asset_vars in
  let diversification_benefit := undiversified_var - var in
  asset_contributions <-
    mapM (fun jp =>
            simulated_contribution portfolio_value var portfolio_returns
              (snd jp) (asset_series sims (fst jp)))
         (enumerate (positions pf)) ;;
  Ok (var, asset_contributions, diversification_benefit).

(** *** Stress scenarios *)

Definition asset_class_multiplier (sc : Scenario) (p : Position) : R :=
  match asset_class_impacts sc with
  | Some impacts =>
      match dict_get AssetClass_eqb (asset_class p) impacts with
      | Some m => m
      | None => 1
      end
  | None => 1
  end.

Definition stress_position (sc : Scenario) (p : Position) : Position :=
  let stressed_volatility :=
    match volatility p with
    | Some v => Some (v * volatility_multiplier sc * asset_class_multiplier sc p)
    | None => None
    end in
  let stressed_correlation :=
    match correlation p with
    | Some (e :: corr) =>
        Some (map (fun kv => (fst kv, Rmin 1 (snd kv + correlation_increase sc)))
                  (e :: corr))
    | _ => None
    end in
  {| id := id p;
     asset_class := asset_class p;
     ticker := ticker p;
     quantity := quantity p;
     price := price p;
     volatility := stressed_volatility;
     correlation := stressed_correlation |}.

Definition stressed_portfolio (sc : Scenario) (pf : Portfolio) : Portfolio :=
  {| portfolio_id := portfolio_id pf;
     positions := map (stress_position sc) (positions pf) |}.

(** The body of the loop over [STRESS_SCENARIOS]: a result is appended only
    when the stressed portfolio has a position. *)
Definition stress_scenario (pf : Portfolio) (cl : ConfidenceLevel)
    (th : TimeHorizon) (base_var : R) (sc : Scenario)
    : result (option StressScenario) :=
  let stressed := stressed_portfolio sc pf in
  match positions stressed with
  | [] => Ok None
  | _ :: _ =>
      r <- calculate_monte_carlo_var stressed cl th 5000 ;;
      let '(stressed_var, _, _) := r in
      let var_increase := stressed_var - base_var in
      pct <- fdiv var_increase base_var ;;
      Ok (Some {| name := scenario_name sc;
                  description := scenario_description sc;
                  stressed_var := stressed_var;
                  var_increase := var_increase;
                  var_increase_percentage := pct * 100 |})
  end.

Definition keep_some {A : Type} (l : list (option A)) : list A :=
  flat_map (fun o => match o with Some a => [a] | None => [] end) l.

Definition calculate_stress_scenarios (pf : Portfolio) (cl : ConfidenceLevel)
    (th : TimeHorizon) (base_var : R) : result (list StressScenario) :=
  rs <- mapM (stress_scenario pf cl th base_var) STRESS_SCENARIOS ;;
  Ok (keep_some rs).

(** *** Entry point *)

Definition var_by_method (input : VaRInput)
    : result (R * list AssetContribution * R) :=
  match method input with
  | PARAMETRIC =>
      calculate_parametric_var (portfolio input) (confidence_level input)
        (time_horizon input)
  | HISTORICAL =>
      calculate_historical_var (portfolio input) (confidence_level input)
        (time_horizon input)
  | MONTE_CARLO =>
      calculate_monte_carlo_var (portfolio input) (confidence_level input)
        (time_horizon input) (num_simulations input)
  end.

(** The two percentage lines of [calculate_var]. *)
Definition var_percentage_of (var portfolio_value : R) : result R :=
  q <- fdiv var portfolio_value ;;
  Ok (q * 100).

Definition diversification_benefit_percentage_of (var diversification_benefit : R)
    : result R :=
  q <- fdiv diversification_benefit (var + diversification_benefit) ;;
  Ok (q * 100).

Definition calculate_var (input : VaRInput) : result VaRResult :=
  let pf := portfolio input in
  let portfolio_value := calculate_portfolio_value pf in
  r <- var_by_method input ;;
  let '(var, asset_contributions, diversification_benefit) := r in
  var_percentage <- var_percentage_of var portfolio_value ;;
  diversification_benefit_percentage <-
    diversification_benefit_percentage_of var diversification_benefit ;;
  stress <-
    (if include_stress_scenarios input
     then
       l <- calculate_stress_scenarios pf (confidence_level input)
              (time_horizon input) var ;;
       Ok (Some l)
     else Ok None) ;;
  Ok {| var := var;
        var_percentage := var_percentage;
        portfolio_value := portfolio_value;
        result_method := method input;
        result_time_horizon := time_horizon input;
        result_confidence_level := confidence_level input;
        asset_contributions := asset_contributions;
        diversification_benefit := diversification_benefit;
        diversification_benefit_percentage := diversification_benefit_percentage;
        stress_scenarios := stress |}.

End Simulation.

End VaR.

(** ** The aggregation loop of [SACCRService.calculate_saccr] *)

Module SACCRService.

(** An entry of [details["transactions"]]. *)
Record TransactionDetail : Type := {
  detail_id : string;
  detail_notional : R;
  adjusted_notional : R;
  detail_supervisory_delta : R;
  detail_maturity_factor : R;
  effective_notional : R
}.

(** The dictionary kept per asset class in [asset_class_results], with the
    three entries of its [details]. *)
Record ClassResult : Type := {
  replacement_cost : R;
  potential_future_exposure : R;
  ead : R;
  supervisory_factor : R;
  correlation_parameter : R;
  transactions : list TransactionDetail
}.

Record NettingSetResult : Type := {
  ns_replacement_cost : R;
  ns_potential_future_exposure : R;
  exposure_at_default : R;
  add_ons : list (AssetClass * R)
}.

Definition transaction_detail (t : SACCR.Transaction) : result TransactionDetail :=
  supervisory_delta <- SACCR.calculate_supervisory_delta t ;;
  maturity_factor <- SACCR.calculate_maturity_factor t ;;
  let adjusted := SACCR.calculate_adjusted_notional t in
  Ok {| detail_id := SACCR.id t;
        detail_notional := SACCR.notional t;
        adjusted_notional := adjusted;
        detail_supervisory_delta := supervisory_delta;
        detail_maturity_factor := maturity_factor;
        effective_notional := supervisory_delta * adjusted * maturity_factor |}.

(** The loop over [netting_set.transactions] that appends the details of
    the transactions of one asset class. *)
Fixpoint append_details (ac : AssetClass) (ts : list SACCR.Transaction)
    (acc : list TransactionDetail) : result (list TransactionDetail) :=
  match ts with
  | [] => Ok acc
  | t :: ts' =>
      if AssetClass_eqb (SACCR.asset_class t) ac
      then d <- transaction_detail t ;; append_details ac ts' (acc ++ [d])
      else append_details ac ts' acc
  end.

Definition new_class_result (ac : AssetClass) : ClassResult :=
  {| replacement_cost := 0;
     potential_future_exposure := 0;
     ead := 0;
     supervisory_factor := SACCR.SUPERVISORY_FACTORS ac;
     correlation_parameter := SACCR.CORRELATION_PARAMETERS ac;
     transactions := [] |}.

(** One pass of the loop over [add_ons.items()]. *)
Definition update_class (ns : SACCR.NettingSet)
    (results : list (AssetClass * ClassResult)) (kv : AssetClass * R)
    : result (list (AssetClass * ClassResult)) :=
  let '(ac, add_on) := kv in
  let entry :=
    match dict_get AssetClass_eqb ac results with
    | Some e => e
    | None => new_class_result ac
    end in
  details <- append_details ac (SACCR.transactions ns) (transactions entry) ;;
  Ok (dict_set AssetClass_eqb ac
        {| replacement_cost := replacement_cost entry;
           potential_future_exposure := potential_future_exposure entry + add_on;
           ead := ead entry + add_on;
           supervisory_factor := supervisory_factor entry;
           correlation_parameter := correlation_parameter entry;
           transactions := details |}
        results).

Fixpoint update_classes (ns : SACCR.NettingSet)
    (results : list (AssetClass * ClassResult)) (items : list (AssetClass * R))
    : result (list (AssetClass * ClassResult)) :=
  match items with
  | [] => Ok results
  | kv :: items' =>
      results' <- update_class ns results kv ;;
      update_classes ns results' items'
  end.

(** The state threaded through the loop over netting sets. *)
Record Totals : Type := {
  acc_total_replacement_cost : R;
  acc_total_potential_future_exposure : R;
  acc_asset_class_results : list (AssetClass * ClassResult);
  acc_netting_set_results : list (string * NettingSetResult)
}.

Definition process_netting_set (st : Totals) (ns : SACCR.NettingSet)
    : result Totals :=
  replacement_cost <- SACCR.calculate_replacement_cost ns ;;
  r <- SACCR.calculate_potential_future_exposure ns ;;
  let '(pfe, add_ons) := r in
  let ead := replacement_cost + pfe in
  classes <- update_classes ns (acc_asset_class_results st) add_ons ;;
  Ok {| acc_total_replacement_cost := acc_total_replacement_cost st + replacement_cost;
        acc_total_potential_future_exposure :=
          acc_total_potential_future_exposure st + pfe;
        acc_asset_class_results := classes;
        acc_netting_set_results :=
          dict_set String.eqb (SACCR.ns_id ns)
            {| ns_replacement_cost := replacement_cost;
               ns_potential_future_exposure := pfe;
               exposure_at_default := ead;
               add_ons := add_ons |}
            (acc_netting_set_results st) |}.

Fixpoint process_netting_sets (st : Totals) (l : list SACCR.NettingSet)
    : result Totals :=
  match l with
  | [] => Ok st
  | ns :: l' =>
      st' <- process_netting_set st ns ;;
      process_netting_sets st' l'
  end.

(** The loop of [calculate_saccr] over [input_data.netting_sets], started
    from its initial values, and the total that is computed from its
    outcome.  The [AssetClassResult] and [SACCRResult] models that
    [calculate_saccr] builds from these values afterwards are subject to
    the validation of pydantic, which is not embedded. *)
Definition initial_totals : Totals :=
  {| acc_total_replacement_cost := 0;
     acc_total_potential_future_exposure := 0;
     acc_asset_class_results := [];
     acc_netting_set_results := [] |}.

Definition accumulate_netting_sets (netting_sets : list SACCR.NettingSet)
    : result Totals :=
  process_netting_sets initial_totals netting_sets.

Definition total_ead (st : Totals) : R :=
  acc_total_replacement_cost st + acc_total_potential_future_exposure st.

End SACCRService.

(** ** Exposure profiles of the PFE service *)

Module PFEService.

Local Open Scope string_scope.

(** [s[:-1]]. *)
Fixpoint but_last (s : string) : string :=
  match s with
  | EmptyString => EmptyString
  | String c EmptyString => EmptyString
  | String c s' => String c (but_last s')
  end.

(** [s[-1]], [IndexError] on the empty string. *)
Fixpoint last_char (s : string) : result string :=
  match s with
  | EmptyString => Raise IndexError
  | String c EmptyString => Ok (String c EmptyString)
  | String c s' => last_char s'
  end.

Definition digit_of (c : Ascii.ascii) : option nat :=
  let n := Ascii.nat_of_ascii c in
  if (48 <=? n)%nat && (n <=? 57)%nat then Some (n - 48)%nat else None.

Fixpoint digits_value (s : string) (acc : nat) : option nat :=
  match s with
  | EmptyString => Some acc
  | String c s' =>
      match digit_of c with
      | Some d => digits_value s' (10 * acc + d)
      | None => None
      end
  end.

(** [float(s)] on an unsigned decimal integer numeral, the form of every
    time point the service builds; the empty string raises [ValueError].
    The other spellings that Python's [float] reads (signs, fractions,
    exponents, surrounding blanks, [inf], [nan]) are no numerals of this
    embedding. *)
Definition py_float (s : string) : result R :=
  match s with
  | EmptyString => Raise ValueError
  | String _ _ =>
      match digits_value s 0 with
      | Some n => Ok (INR n)
      | None => Raise ValueError
      end
  end.

Definition time_point_to_years (time_point : string) : result R :=
  value <- py_float (but_last time_point) ;;
  unit <- last_char time_point ;;
  if String.eqb unit "d" then Ok (value / 365)
  else if String.eqb unit "w" then Ok (value / 52)
  else if String.eqb unit "m" then Ok (value / 12)
  else if String.eqb unit "y" then Ok value
  else Raise ValueError.

Record ExposureProfile : Type := {
  time_point : string;
  expected_exposure : R;
  potential_future_exposure : R
}.

Fixpoint filterM {A : Type} (f : A -> result bool) (l : list A) : result (list A) :=
  match l with
  | [] => Ok []
  | a :: l' =>
      keep <- f a ;;
      rest <- filterM f l' ;;
      Ok (if keep then a :: rest else rest)
  end.

(** The time points of [generate_exposure_profile]. *)
Definition time_points_of (time_horizon_years : R) : result (list string) :=
  if Rle_dec time_horizon_years (1 / 12)
  then Ok ["1d"; "1w"; "2w"; "3w"; "1m"]
  else if Rle_dec time_horizon_years (3 / 12)
  then Ok ["1d"; "1w"; "2w"; "1m"; "2m"; "3m"]
  else if Rle_dec time_horizon_years 1
  then Ok ["1d"; "1w"; "1m"; "3m"; "6m"; "9m"; "1y"]
  else
    filterM
      (fun tp =>
         years <- time_point_to_years tp ;;
         Ok (if Rle_dec years time_horizon_years then true else false))
      ["1d"; "1m"; "3m"; "6m"; "1y"; "2y"; "3y"; "5y"].

(** The body of the loop over the time points. *)
Definition exposure_point (replacement_cost time_horizon_years pfe : R)
    (tp : string) : result ExposureProfile :=
  years <- time_point_to_years tp ;;
  let expected_exposure := replacement_cost * exp (- 2 * years) in
  ratio <- fdiv years time_horizon_years ;;
  time_factor <- py_sqrt ratio ;;
  time_profile_factor <-
    (if Rlt_dec years time_horizon_years
     then
       ratio' <- fdiv years time_horizon_years ;;
       Ok (4 * years * (1 - ratio'))
     else Ok 0) ;;
  Ok {| time_point := tp;
        expected_exposure := expected_exposure;
        potential_future_exposure := pfe * time_factor * time_profile_factor |}.

Definition generate_exposure_profile (ns : PFE.NettingSet) (h : PFE.TimeHorizon)
    (pfe : R) : result (list ExposureProfile) :=
  let time_horizon_years := PFE.TIME_HORIZON_YEARS h in
  time_points <- time_points_of time_horizon_years ;;
  let replacement_cost := PFE.calculate_replacement_cost ns in
  mapM (exposure_point replacement_cost time_horizon_years pfe) time_points.

(** The two methods that return their exposure profile themselves. *)
Definition calculate_potential_future_exposure_internal_model (ns : PFE.NettingSet)
    (h : PFE.TimeHorizon) (c : PFE.ConfidenceLevel)
    : result (R * list (AssetClass * R) * list ExposureProfile) :=
  r <- PFE.calculate_potential_future_exposure_sa_ccr ns h c ;;
  let '(pfe, add_ons) := r in
  let adjustment_factor := 0.8 in
  let pfe := pfe * adjustment_factor in
  exposure_profile <- generate_exposure_profile ns h pfe ;;
  Ok (pfe, add_ons, exposure_profile).

Definition calculate_potential_future_exposure_historical (ns : PFE.NettingSet)
    (h : PFE.TimeHorizon) (c : PFE.ConfidenceLevel)
    : result (R * list (AssetClass * R) * list ExposureProfile) :=
  r <- PFE.calculate_potential_future_exposure_sa_ccr ns h c ;;
  let '(pfe, add_ons) := r in
  let adjustment_factor := 1.1 in
  let pfe := pfe * adjustment_factor in
  exposure_profile <- generate_exposure_profile ns h pfe ;;
  Ok (pfe, add_ons, exposure_profile).

(** The method dispatch of [calculate_pfe], exposure profile included. *)
Definition pfe_by_method (m : PFE.CalculationMethod) (ns : PFE.NettingSet)
    (h : PFE.TimeHorizon) (c : PFE.ConfidenceLevel)
    : result (R * list (AssetClass * R) * list ExposureProfile) :=
  match m with
  | PFE.SA_CCR =>
      r <- PFE.calculate_potential_future_exposure_sa_ccr ns h c ;;
      let '(pfe, add_ons) := r in
      exposure_profile <- generate_exposure_profile ns h pfe ;;
      Ok (pfe, add_ons, exposure_profile)
  | PFE.INTERNAL_MODEL => calculate_potential_future_exposure_internal_model ns h c
  | PFE.HISTORICAL => calculate_potential_future_exposure_historical ns h c
  end.

(** [exposure_profiles[i].x += profile.x] for the entries of the new
    profile, in place; an index past the stored profile is an
    [IndexError]. *)
Fixpoint add_profiles (stored new : list ExposureProfile)
    : result (list ExposureProfile) :=
  match new, stored with
  | [], _ => Ok stored
  | _ :: _, [] => Raise IndexError
  | p :: new', s :: stored' =>
      rest <- add_profiles stored' new' ;;
      Ok ({| time_point := time_point s;
             expected_exposure := expected_exposure s + expected_exposure p;
             potential_future_exposure :=
               potential_future_exposure s + potential_future_exposure p |}
          :: rest)
  end.

(** The loop state of [calculate_pfe]: the totals and the profile. *)
Record State : Type := {
  totals : PFE.Totals;
  exposure_profiles : list ExposureProfile
}.

Definition process_netting_set (input : PFE.PFEInput) (st : State)
    (ns : PFE.NettingSet) : result State :=
  r <- pfe_by_method (PFE.calculation_method input) ns
         (PFE.time_horizon input) (PFE.confidence_level input) ;;
  let '(pfe, add_ons, exposure_profile) := r in
  let expected_exposure := PFE.calculate_replacement_cost ns in
  let t := totals st in
  profiles <-
    match exposure_profiles st with
    | [] => Ok exposure_profile
    | _ :: _ => add_profiles (exposure_profiles st) exposure_profile
    end ;;
  Ok {| totals :=
          {| PFE.acc_total_pfe := PFE.acc_total_pfe t + pfe;
             PFE.acc_total_expected_exposure :=
               PFE.acc_total_expected_exposure t + expected_exposure;
             PFE.all_add_ons := accumulate_all add_ons (PFE.all_add_ons t);
             PFE.acc_netting_set_results :=
               dict_set String.eqb (PFE.ns_id ns) (pfe, expected_exposure, add_ons)
                        (PFE.acc_netting_set_results t) |};
        exposure_profiles := profiles |}.

Fixpoint process_netting_sets (input : PFE.PFEInput) (st : State)
    (l : list PFE.NettingSet) : result State :=
  match l with
  | [] => Ok st
  | ns :: l' =>
      st' <- process_netting_set input st ns ;;
      process_netting_sets input st' l'
  end.

(** [calculate_pfe] with the [exposure_profile] field of its result. *)
Definition calculate_pfe (input : PFE.PFEInput)
    : result (PFE.PFEResult * list ExposureProfile) :=
  st <- process_netting_sets input
          {| totals :=
               {| PFE.acc_total_pfe := 0; PFE.acc_total_expected_exposure := 0;
                  PFE.all_add_ons := []; PFE.acc_netting_set_results := [] |};
             exposure_profiles := [] |}
          (PFE.netting_sets input) ;;
  let t := totals st in
  Ok ({| PFE.total_pfe := PFE.acc_total_pfe t;
         PFE.total_expected_exposure := PFE.acc_total_expected_exposure t;
         PFE.result_calculation_method := PFE.calculation_method input;
         PFE.result_time_horizon := PFE.time_horizon input;
         PFE.result_confidence_level := PFE.confidence_level input;
         PFE.asset_class_breakdown := PFE.breakdown_of (PFE.all_add_ons t);
         PFE.netting_set_results := PFE.acc_netting_set_results t |},
      exposure_profiles st).

End PFEService.

(** * Properties *)

(** ** Fallible results *)

Lemma bind_Ok_inv {A B : Type} (r : result A) (f : A -> result B) (b : B) :
  bind r f = Ok b -> exists a, r = Ok a /\ f a = Ok b.
Proof.
  destruct r as [a | e]; simpl; intros H; [eauto | discriminate].
Qed.

Lemma fdiv_Ok (x y : R) : y <> 0 -> fdiv x y = Ok (x / y).
Proof. intros H. unfold fdiv. destruct (Req_EM_T y 0); [contradiction | reflexivity]. Qed.

Lemma fdiv_zero (x : R) : fdiv x 0 = Raise ZeroDivisionError.
Proof. unfold fdiv. destruct (Req_EM_T 0 0) as [_ | H]; [reflexivity | now elim H]. Qed.

Lemma fdiv_Ok_inv (x y q : R) : fdiv x y = Ok q -> y <> 0 /\ q = x / y.
Proof.
  unfold fdiv. destruct (Req_EM_T y 0); [discriminate |].
  intros H. injection H as <-. split; [assumption | reflexivity].
Qed.

Lemma py_sqrt_Ok (x : R) : 0 <= x -> py_sqrt x = Ok (sqrt x).
Proof. intros H. unfold py_sqrt. destruct (Rlt_dec x 0); [lra | reflexivity]. Qed.

Lemma py_sqrt_Ok_inv (x s : R) : py_sqrt x = Ok s -> 0 <= x /\ s = sqrt x.
Proof.
  unfold py_sqrt. destruct (Rlt_dec x 0); [discriminate |].
  intros H. injection H as <-. split; [lra | reflexivity].
Qed.

Lemma py_log_Ok (x : R) : 0 < x -> py_log x = Ok (ln x).
Proof. intros H. unfold py_log. destruct (Rle_dec x 0); [lra | reflexivity]. Qed.

(** Inverting a chain of binds that returned a value. *)
Ltac bind_inv H :=
  let a := fresh "a" in
  let Ha := fresh "Ha" in
  apply bind_Ok_inv in H; destruct H as (a & Ha & H).

Tactic Notation "bind_inv_as" hyp(H) ident(a) ident(Ha) :=
  apply bind_Ok_inv in H; destruct H as (a & Ha & H).

Lemma mapM_Ok_length {A B : Type} (f : A -> result B) (l : list A) (bs : list B) :
  mapM f l = Ok bs -> List.length bs = List.length l.
Proof.
  revert bs. induction l as [| a l IH]; simpl; intros bs H.
  - injection H as <-. reflexivity.
  - bind_inv H. bind_inv H. injection H as <-. simpl. f_equal. eauto.
Qed.

Lemma mapM_Ok_Forall2 {A B : Type} (f : A -> result B) (l : list A) (bs : list B) :
  mapM f l = Ok bs -> Forall2 (fun a b => f a = Ok b) l bs.
Proof.
  revert bs. induction l as [| a l IH]; simpl; intros bs H.
  - injection H as <-. constructor.
  - bind_inv H. bind_inv H. injection H as <-. constructor; auto.
Qed.

Lemma mapM_total {A B : Type} (f : A -> result B) (g : A -> B) (l : list A) :
  (forall a, In a l -> f a = Ok (g a)) -> mapM f l = Ok (map g l).
Proof.
  induction l as [| a l IH]; simpl; intros H; [reflexivity |].
  rewrite (H a) by auto. simpl. rewrite IH by auto. reflexivity.
Qed.

(** ** Sums *)

Lemma sum_app (l1 l2 : list R) : sum (l1 ++ l2) = sum l1 + sum l2.
Proof. unfold sum. induction l1 as [| x l1 IH]; simpl; [lra | rewrite IH; lra]. Qed.

Lemma fold_left_Rplus (l : list R) (a : R) : fold_left Rplus l a = a + sum l.
Proof.
  revert a. induction l as [| x l IH]; intros a; simpl.
  - unfold sum; simpl; lra.
  - rewrite IH. unfold sum; simpl. lra.
Qed.

Lemma sum_map_scale (c : R) (l : list R) :
  sum (map (fun x => x * c) l) = sum l * c.
Proof. unfold sum. induction l as [| x l IH]; simpl; [lra | rewrite IH; lra]. Qed.

Lemma sum_nonneg (l : list R) : Forall (fun x => 0 <= x) l -> 0 <= sum l.
Proof.
  unfold sum. induction 1 as [| x l Hx _ IH]; simpl; lra.
Qed.

(** ** The SA-CCR multiplier (C2) *)

Lemma SACCR_multiplier_zero (rc : R) : SACCR.multiplier rc 0 = 1.
Proof. unfold SACCR.multiplier. destruct (Req_EM_T 0 0); [reflexivity | lra]. Qed.

Lemma SACCR_multiplier_nonzero (rc total : R) :
  total <> 0 ->
  SACCR.multiplier rc total = 0.05 + 0.95 * exp (- Rmin 1 (rc / (2 * total))).
Proof.
  intros H. unfold SACCR.multiplier. destruct (Req_EM_T total 0); [contradiction |].
  cbv zeta. replace (1 - 0.05) with 0.95 by lra. reflexivity.
Qed.

Lemma PFE_multiplier_eq (rc total : R) :
  PFE.multiplier rc total = SACCR.multiplier rc total.
Proof. reflexivity. Qed.

(** C2.  In both engines the potential future exposure is the multiplier
    times the total add-on (times the two scaling factors in the PFE
    engine); the multiplier is 1 and the exposure 0 when the total add-on
    is 0, and the multiplier is 0.05 + 0.95 exp(-min(1, RC / (2 total)))
    otherwise. *)
Theorem multiplier_and_pfe :
  (forall (ns : SACCR.NettingSet) (pfe : R) (add_ons : list (AssetClass * R)),
      SACCR.calculate_potential_future_exposure ns = Ok (pfe, add_ons) ->
      exists rc : R,
        SACCR.calculate_add_on ns = Ok add_ons /\
        SACCR.calculate_replacement_cost ns = Ok rc /\
        let total := sum (dict_values add_ons) in
        pfe = SACCR.multiplier rc total * total /\
        (total = 0 -> SACCR.multiplier rc total = 1 /\ pfe = 0) /\
        (total <> 0 ->
         SACCR.multiplier rc total
         = 0.05 + 0.95 * exp (- Rmin 1 (rc / (2 * total))))) /\
  (forall (ns : PFE.NettingSet) (h : PFE.TimeHorizon) (c : PFE.ConfidenceLevel)
          (pfe : R) (add_ons : list (AssetClass * R)),
      PFE.calculate_potential_future_exposure_sa_ccr ns h c = Ok (pfe, add_ons) ->
      PFE.calculate_add_on ns = Ok add_ons /\
      let rc := PFE.calculate_replacement_cost ns in
      let total := sum (dict_values add_ons) in
      pfe = PFE.multiplier rc total * total
            * sqrt (PFE.TIME_HORIZON_YEARS h) * (PFE.CONFIDENCE_LEVELS c / 1.96) /\
      (total = 0 -> PFE.multiplier rc total = 1 /\ pfe = 0) /\
      (total <> 0 ->
       PFE.multiplier rc total
       = 0.05 + 0.95 * exp (- Rmin 1 (rc / (2 * total))))).
Proof.
  split.
  - intros ns pfe add_ons H.
    unfold SACCR.calculate_potential_future_exposure in H.
    bind_inv H. bind_inv H. injection H as Hpfe Hadd. subst a.
    exists a0. cbv zeta.
    split; [assumption |]. split; [assumption |].
    split; [now rewrite Hpfe |]. split.
    + intros Hz. split.
      * rewrite Hz. apply SACCR_multiplier_zero.
      * rewrite <- Hpfe, Hz. lra.
    + apply SACCR_multiplier_nonzero.
  - intros ns h c pfe add_ons H.
    unfold PFE.calculate_potential_future_exposure_sa_ccr in H.
    bind_inv H. cbv zeta in H. injection H as Hpfe Hadd. subst a.
    cbv zeta.
    split; [assumption |].
    split; [now rewrite Hpfe |]. split.
    + intros Hz. split.
      * rewrite Hz. rewrite PFE_multiplier_eq. apply SACCR_multiplier_zero.
      * rewrite <- Hpfe, Hz. lra.
    + intros Hnz. rewrite PFE_multiplier_eq.
      apply SACCR_multiplier_nonzero. assumption.
Qed.

(** A netting set of one interest-rate swap, notional 1,000,000, maturity
    three years, no overrides, no collateral. *)
Definition swap_1m_3y : SACCR.Transaction :=
  {| SACCR.id := "T1";
     SACCR.asset_class := INTEREST_RATE;
     SACCR.transaction_type := SWAP;
     SACCR.notional := 1000000;
     SACCR.maturity := 3;
     SACCR.underlying_price := None;
     SACCR.strike_price := None;
     SACCR.option_type := None;
     SACCR.option_style := None;
     SACCR.volatility := None;
     SACCR.interest_rate := None;
     SACCR.supervisory_delta := None;
     SACCR.supervisory_factor := None;
     SACCR.maturity_factor := None |}.

Definition ns_swap : SACCR.NettingSet :=
  {| SACCR.ns_id := "N1"; SACCR.transactions := [swap_1m_3y]; SACCR.collateral := 0 |}.

(** The same swap in the PFE schema, with market value 0. *)
Definition pfe_swap_1m_3y : PFE.Trade :=
  {| PFE.id := "T1";
     PFE.asset_class := INTEREST_RATE;
     PFE.transaction_type := SWAP;
     PFE.notional := 1000000;
     PFE.maturity := 3;
     PFE.market_value := 0;
     PFE.supervisory_delta := None;
     PFE.supervisory_factor := None;
     PFE.maturity_factor := None |}.

Definition pfe_ns_swap : PFE.NettingSet :=
  {| PFE.ns_id := "N1"; PFE.trades := [pfe_swap_1m_3y]; PFE.collateral := [] |}.

Lemma sqrt_Rmin_3_1 : py_sqrt (Rmin 3 1 / 1) = Ok 1.
Proof.
  replace (Rmin 3 1 / 1) with 1.
  - rewrite py_sqrt_Ok by lra. now rewrite sqrt_1.
  - rewrite Rmin_right by lra. lra.
Qed.

(** The SA-CCR example of the specification: the add-on of the swap is
    0.005 x 1,000,000 x 1 = 5,000. *)
Lemma ns_swap_add_on : SACCR.calculate_add_on ns_swap = Ok [(INTEREST_RATE, 5000)].
Proof.
  unfold SACCR.calculate_add_on. cbn. rewrite sqrt_Rmin_3_1. cbn.
  do 3 f_equal. lra.
Qed.

Lemma ns_swap_replacement_cost : SACCR.calculate_replacement_cost ns_swap = Ok 50000.
Proof.
  unfold SACCR.calculate_replacement_cost. cbn. f_equal.
  rewrite Rmax_left by lra. lra.
Qed.

Lemma sum_single_add_on (a : AssetClass) (x : R) : sum (dict_values [(a, x)]) = x.
Proof. unfold dict_values, sum. simpl. lra. Qed.

Lemma ns_swap_pfe :
  SACCR.calculate_potential_future_exposure ns_swap
  = Ok (SACCR.multiplier 50000 5000 * 5000, [(INTEREST_RATE, 5000)]).
Proof.
  unfold SACCR.calculate_potential_future_exposure.
  rewrite ns_swap_add_on. cbn [bind]. rewrite ns_swap_replacement_cost. cbn [bind].
  cbv zeta. rewrite sum_single_add_on. reflexivity.
Qed.

Lemma pfe_ns_swap_add_on : PFE.calculate_add_on pfe_ns_swap = Ok [(INTEREST_RATE, 5000)].
Proof.
  unfold PFE.calculate_add_on. cbn.
  unfold PFE.effective_notional_of, PFE.calculate_maturity_factor. cbn.
  rewrite sqrt_Rmin_3_1. cbn.
  do 3 f_equal. lra.
Qed.

Lemma pfe_ns_swap_replacement_cost : PFE.calculate_replacement_cost pfe_ns_swap = 0.
Proof.
  unfold PFE.calculate_replacement_cost, PFE.calculate_collateral_value, sum. cbn.
  rewrite Rmax_right by lra. reflexivity.
Qed.

Lemma pfe_multiplier_no_replacement_cost (total : R) : PFE.multiplier 0 total = 1.
Proof.
  unfold PFE.multiplier. destruct (Req_EM_T total 0); [reflexivity |].
  cbv zeta. replace (0 / (2 * total)) with 0 by (field; lra).
  rewrite Rmin_right by lra. rewrite Ropp_0, exp_0. lra.
Qed.

Lemma pfe_ns_swap_sa_ccr (h : PFE.TimeHorizon) (c : PFE.ConfidenceLevel) :
  PFE.calculate_potential_future_exposure_sa_ccr pfe_ns_swap h c
  = Ok (5000 * sqrt (PFE.TIME_HORIZON_YEARS h) * (PFE.CONFIDENCE_LEVELS c / 1.96),
        [(INTEREST_RATE, 5000)]).
Proof.
  unfold PFE.calculate_potential_future_exposure_sa_ccr.
  rewrite pfe_ns_swap_add_on. cbn [bind]. cbv zeta.
  rewrite pfe_ns_swap_replacement_cost, pfe_multiplier_no_replacement_cost.
  rewrite sum_single_add_on. do 2 f_equal. lra.
Qed.

(** C2 at the one-swap netting set of each engine. *)
Lemma multiplier_and_pfe_witness :
  (SACCR.calculate_potential_future_exposure ns_swap
   = Ok (SACCR.multiplier 50000 5000 * 5000, [(INTEREST_RATE, 5000)]) /\
   exists rc : R,
     SACCR.calculate_add_on ns_swap = Ok [(INTEREST_RATE, 5000)] /\
     SACCR.calculate_replacement_cost ns_swap = Ok rc /\
     let total := sum (dict_values [(INTEREST_RATE, 5000)]) in
     SACCR.multiplier 50000 5000 * 5000 = SACCR.multiplier rc total * total /\
     (total = 0 ->
      SACCR.multiplier rc total = 1 /\ SACCR.multiplier 50000 5000 * 5000 = 0) /\
     (total <> 0 ->
      SACCR.multiplier rc total
      = 0.05 + 0.95 * exp (- Rmin 1 (rc / (2 * total))))) /\
  (PFE.calculate_potential_future_exposure_sa_ccr pfe_ns_swap PFE.ONE_YEAR PFE.CL_99
   = Ok (5000 * sqrt (PFE.TIME_HORIZON_YEARS PFE.ONE_YEAR)
         * (PFE.CONFIDENCE_LEVELS PFE.CL_99 / 1.96), [(INTEREST_RATE, 5000)]) /\
   PFE.calculate_add_on pfe_ns_swap = Ok [(INTEREST_RATE, 5000)]).
Proof.
  split.
  - split; [exact ns_swap_pfe |].
    exact (proj1 multiplier_and_pfe ns_swap _ _ ns_swap_pfe).
  - split; [apply pfe_ns_swap_sa_ccr |].
    exact (proj1 (proj2 multiplier_and_pfe pfe_ns_swap PFE.ONE_YEAR PFE.CL_99 _ _
                    (pfe_ns_swap_sa_ccr PFE.ONE_YEAR PFE.CL_99))).
Defined.

(** ** Time and confidence scaling in the PFE engine (C4) *)

(** The statement of the specification: the SA-CCR exposure before the two
    scaling factors. *)
Definition unscaled_sa_ccr_pfe (ns : PFE.NettingSet) : result R :=
  add_ons <- PFE.calculate_add_on ns ;;
  let total := sum (dict_values add_ons) in
  Ok (PFE.multiplier (PFE.calculate_replacement_cost ns) total * total).

Definition adjustment_factor (m : PFE.CalculationMethod) : R :=
  match m with
  | PFE.SA_CCR => 1
  | PFE.INTERNAL_MODEL => 0.8
  | PFE.HISTORICAL => 1.1
  end.

(** C4, as the code has it.  Under each of the three methods the exposure
    is the SA-CCR exposure scaled by the square root of the horizon in
    years and by z / 1.96, times the adjustment factor of the method (1,
    0.8 and 1.1): the two alternative methods start from the scaled
    figure. *)
Theorem scaling_under_every_method (m : PFE.CalculationMethod)
    (ns : PFE.NettingSet) (h : PFE.TimeHorizon) (c : PFE.ConfidenceLevel)
    (pfe : R) (add_ons : list (AssetClass * R)) :
  PFE.pfe_by_method m ns h c = Ok (pfe, add_ons) ->
  exists unscaled : R,
    unscaled_sa_ccr_pfe ns = Ok unscaled /\
    pfe = unscaled * sqrt (PFE.TIME_HORIZON_YEARS h)
          * (PFE.CONFIDENCE_LEVELS c / 1.96) * adjustment_factor m.
Proof.
  intros H.
  assert (Hbase : forall base,
             PFE.calculate_potential_future_exposure_sa_ccr ns h c = Ok (base, add_ons) ->
             exists unscaled : R,
               unscaled_sa_ccr_pfe ns = Ok unscaled /\
               base = unscaled * sqrt (PFE.TIME_HORIZON_YEARS h)
                      * (PFE.CONFIDENCE_LEVELS c / 1.96)).
  { intros base Hb. unfold PFE.calculate_potential_future_exposure_sa_ccr in Hb.
    bind_inv Hb. cbv zeta in Hb. injection Hb as Hb Ha0. subst a.
    unfold unscaled_sa_ccr_pfe. rewrite Ha. cbn [bind]. cbv zeta.
    eexists. split; [reflexivity |]. now rewrite Hb. }
  destruct m; cbn [PFE.pfe_by_method adjustment_factor] in *.
  - destruct (Hbase _ H) as (u & Hu & ->). exists u. split; [assumption | lra].
  - unfold PFE.calculate_potential_future_exposure_internal_model in H.
    bind_inv H. destruct a as [base a']. cbv zeta in H. injection H as Hp Ha'. subst a'.
    destruct (Hbase _ Ha) as (u & Hu & ->). exists u. split; [assumption | lra].
  - unfold PFE.calculate_potential_future_exposure_historical in H.
    bind_inv H. destruct a as [base a']. cbv zeta in H. injection H as Hp Ha'. subst a'.
    destruct (Hbase _ Ha) as (u & Hu & ->). exists u. split; [assumption | lra].
Qed.

Lemma pfe_ns_swap_internal_model :
  PFE.calculate_potential_future_exposure_internal_model pfe_ns_swap
    PFE.ONE_YEAR PFE.CL_99
  = Ok (5000 * sqrt (PFE.TIME_HORIZON_YEARS PFE.ONE_YEAR)
        * (PFE.CONFIDENCE_LEVELS PFE.CL_99 / 1.96) * 0.8, [(INTEREST_RATE, 5000)]).
Proof.
  unfold PFE.calculate_potential_future_exposure_internal_model.
  rewrite pfe_ns_swap_sa_ccr. reflexivity.
Qed.

Lemma pfe_ns_swap_unscaled : unscaled_sa_ccr_pfe pfe_ns_swap = Ok 5000.
Proof.
  unfold unscaled_sa_ccr_pfe. rewrite pfe_ns_swap_add_on. cbn [bind]. cbv zeta.
  rewrite pfe_ns_swap_replacement_cost, pfe_multiplier_no_replacement_cost.
  rewrite sum_single_add_on. f_equal. lra.
Qed.

Lemma scaling_under_every_method_witness :
  PFE.pfe_by_method PFE.INTERNAL_MODEL pfe_ns_swap PFE.ONE_YEAR PFE.CL_99
  = Ok (5000 * sqrt (PFE.TIME_HORIZON_YEARS PFE.ONE_YEAR)
        * (PFE.CONFIDENCE_LEVELS PFE.CL_99 / 1.96) * 0.8, [(INTEREST_RATE, 5000)]) /\
  exists unscaled : R,
    unscaled_sa_ccr_pfe pfe_ns_swap = Ok unscaled /\
    5000 * sqrt (PFE.TIME_HORIZON_YEARS PFE.ONE_YEAR)
    * (PFE.CONFIDENCE_LEVELS PFE.CL_99 / 1.96) * 0.8
    = unscaled * sqrt (PFE.TIME_HORIZON_YEARS PFE.ONE_YEAR)
      * (PFE.CONFIDENCE_LEVELS PFE.CL_99 / 1.96)
      * adjustment_factor PFE.INTERNAL_MODEL.
Proof.
  split; [exact pfe_ns_swap_internal_model |].
  exact (scaling_under_every_method PFE.INTERNAL_MODEL pfe_ns_swap PFE.ONE_YEAR
           PFE.CL_99 _ _ pfe_ns_swap_internal_model).
Defined.

(** C4 as stated fails: at a one-year horizon and 99% confidence the
    internal-model exposure of the one-swap netting set is
    5000 x (2.326 / 1.96) x 0.8, not the unscaled 5000 x 0.8. *)
Lemma internal_model_is_scaled :
  exists pfe : R,
    PFE.pfe_by_method PFE.INTERNAL_MODEL pfe_ns_swap PFE.ONE_YEAR PFE.CL_99
    = Ok (pfe, [(INTEREST_RATE, 5000)]) /\
    unscaled_sa_ccr_pfe pfe_ns_swap = Ok 5000 /\
    pfe <> 5000 * 0.8.
Proof.
  eexists. split; [exact pfe_ns_swap_internal_model |].
  split; [exact pfe_ns_swap_unscaled |].
  cbn [PFE.TIME_HORIZON_YEARS PFE.CONFIDENCE_LEVELS]. rewrite sqrt_1. lra.
Qed.

(** ** Dictionaries keyed by asset class *)

Lemma AssetClass_eqb_eq (a b : AssetClass) : AssetClass_eqb a b = true <-> a = b.
Proof. destruct a, b; simpl; split; intros H; try reflexivity; discriminate. Qed.

Lemma AssetClass_eqb_refl (a : AssetClass) : AssetClass_eqb a a = true.
Proof. now apply AssetClass_eqb_eq. Qed.

Lemma AssetClass_eqb_neq (a b : AssetClass) : AssetClass_eqb a b = false <-> a <> b.
Proof.
  split.
  - intros H ->. rewrite AssetClass_eqb_refl in H. discriminate.
  - intros H. destruct (AssetClass_eqb a b) eqn:E; [| reflexivity].
    apply AssetClass_eqb_eq in E. contradiction.
Qed.

Section AssetClassDict.
Context {V : Type}.
Implicit Types (d : list (AssetClass * V)) (k : AssetClass) (v : V).

Lemma dict_get_set k k' v d :
  dict_get AssetClass_eqb k (dict_set AssetClass_eqb k' v d)
  = if AssetClass_eqb k k' then Some v else dict_get AssetClass_eqb k d.
Proof.
  induction d as [| [k0 v0] d IH]; simpl.
  - reflexivity.
  - destruct (AssetClass_eqb k' k0) eqn:E'; simpl.
    + apply AssetClass_eqb_eq in E'. subst k0.
      destruct (AssetClass_eqb k k'); reflexivity.
    + destruct (AssetClass_eqb k k0) eqn:E0.
      * apply AssetClass_eqb_eq in E0. subst k0.
        destruct (AssetClass_eqb k k') eqn:E; [| reflexivity].
        apply AssetClass_eqb_eq in E. subst k'.
        rewrite AssetClass_eqb_refl in E'. discriminate.
      * exact IH.
Qed.

(** Setting a key replaces its value when it is present and appends the
    pair otherwise. *)
Lemma dict_set_present k v v0 d :
  dict_get AssetClass_eqb k d = Some v0 ->
  exists d1 d2, d = d1 ++ (k, v0) :: d2 /\
                dict_set AssetClass_eqb k v d = d1 ++ (k, v) :: d2.
Proof.
  induction d as [| [k0 w] d IH]; simpl; [discriminate |].
  destruct (AssetClass_eqb k k0) eqn:E.
  - apply AssetClass_eqb_eq in E. subst k0. intros H. injection H as ->.
    exists [], d. split; reflexivity.
  - intros H. destruct (IH H) as (d1 & d2 & -> & Hs).
    exists ((k0, w) :: d1), d2. simpl. rewrite Hs. split; reflexivity.
Qed.

Lemma dict_set_absent k v d :
  dict_get AssetClass_eqb k d = None ->
  dict_set AssetClass_eqb k v d = d ++ [(k, v)].
Proof.
  induction d as [| [k0 w] d IH]; simpl; [reflexivity |].
  destruct (AssetClass_eqb k k0); [discriminate |].
  intros H. now rewrite IH.
Qed.

Lemma dict_get_map_values {W : Type} (g : AssetClass -> V -> W) k d :
  dict_get AssetClass_eqb k (map (fun kv => (fst kv, g (fst kv) (snd kv))) d)
  = match dict_get AssetClass_eqb k d with
    | Some v => Some (g k v)
    | None => None
    end.
Proof.
  induction d as [| [k0 w] d IH]; simpl; [reflexivity |].
  destruct (AssetClass_eqb k k0) eqn:E; [| exact IH].
  apply AssetClass_eqb_eq in E. now subst k0.
Qed.
End AssetClassDict.

(** The grouping loop collects, under each asset class, the entries of
    that class in their order of appearance. *)
Lemma group_by_asset_class_fold {A : Type} (f : A -> AssetClass) (k : AssetClass)
    (l : list A) (d : list (AssetClass * list A)) :
  dict_get AssetClass_eqb k
    (fold_left (fun d x => group_append (f x) x d) l d)
  = match dict_get AssetClass_eqb k d,
          filter (fun x => AssetClass_eqb (f x) k) l with
    | Some xs, ys => Some (xs ++ ys)
    | None, [] => None
    | None, ys => Some ys
    end.
Proof.
  revert d. induction l as [| x l IH]; intros d; simpl.
  - destruct (dict_get AssetClass_eqb k d); [now rewrite app_nil_r | reflexivity].
  - rewrite IH. unfold group_append.
    destruct (AssetClass_eqb (f x) k) eqn:E.
    + apply AssetClass_eqb_eq in E. rewrite E.
      destruct (dict_get AssetClass_eqb k d) as [xs |] eqn:G;
        rewrite dict_get_set, AssetClass_eqb_refl.
      * now rewrite <- app_assoc.
      * reflexivity.
    + assert (E' : AssetClass_eqb k (f x) = false).
      { apply AssetClass_eqb_neq. apply AssetClass_eqb_neq in E. congruence. }
      destruct (dict_get AssetClass_eqb (f x) d); rewrite dict_get_set, E';
        reflexivity.
Qed.

Lemma group_by_asset_class_get {A : Type} (f : A -> AssetClass) (k : AssetClass)
    (l : list A) :
  dict_get AssetClass_eqb k (group_by_asset_class f l)
  = match filter (fun x => AssetClass_eqb (f x) k) l with
    | [] => None
    | ys => Some ys
    end.
Proof.
  unfold group_by_asset_class. rewrite group_by_asset_class_fold. reflexivity.
Qed.

(** ** Grid initial margin (C6) *)

(** The "2-5" column of [GRID_THRESHOLDS]. *)
Definition grid_rate_2_5 (a : AssetClass) : R :=
  match a with
  | INTEREST_RATE => 0.02
  | CREDIT => 0.05
  | EQUITY => 0.08
  | COMMODITY => 0.12
  | FX => 0.05
  end.

Definition gross_notional (ts : list InitialMargin.Trade) : R :=
  sum (map (fun t => Rabs (InitialMargin.notional t)) ts).

Lemma grid_bucket_lookup (ac : AssetClass) (m : R) :
  exists rate,
    InitialMargin.lookup (InitialMargin.get_maturity_bucket m)
      (InitialMargin.GRID_THRESHOLDS ac) = Ok rate.
Proof.
  unfold InitialMargin.get_maturity_bucket.
  destruct (Rlt_dec m 2); [| destruct (Rlt_dec m 5)]; destruct ac;
    eexists; reflexivity.
Qed.

Lemma grid_rate_lookup (ac : AssetClass) :
  InitialMargin.lookup "2-5" (InitialMargin.GRID_THRESHOLDS ac) = Ok (grid_rate_2_5 ac).
Proof. destruct ac; reflexivity. Qed.

Lemma grid_gross_notional_total (ac : AssetClass) (ts : list InitialMargin.Trade)
    (g : R) :
  InitialMargin.grid_gross_notional ac ts g = Ok (g + gross_notional ts).
Proof.
  revert g. induction ts as [| t ts IH]; intros g; simpl.
  - unfold gross_notional, sum. simpl. f_equal. lra.
  - destruct (grid_bucket_lookup ac (InitialMargin.maturity t)) as (rate & ->).
    cbn [bind]. rewrite IH. f_equal. unfold gross_notional, sum. simpl. lra.
Qed.

Lemma grid_class_margin_total (group : AssetClass * list InitialMargin.Trade) :
  InitialMargin.grid_class_margin group
  = Ok (fst group, gross_notional (snd group) * grid_rate_2_5 (fst group)).
Proof.
  destruct group as [ac ts]. unfold InitialMargin.grid_class_margin.
  rewrite grid_gross_notional_total. cbn [bind]. rewrite grid_rate_lookup.
  cbn [bind fst snd]. do 3 f_equal. lra.
Qed.

Definition equity_1m_1y : InitialMargin.Trade :=
  {| InitialMargin.id := "E1";
     InitialMargin.asset_class := EQUITY;
     InitialMargin.product := SWAP;
     InitialMargin.notional := 1000000;
     InitialMargin.maturity := 1;
     InitialMargin.market_value := 0;
     InitialMargin.delta := None;
     InitialMargin.vega := None;
     InitialMargin.curvature := None |}.

Definition im_ns_equity : InitialMargin.NettingSet :=
  {| InitialMargin.ns_id := "N1"; InitialMargin.trades := [equity_1m_1y] |}.

Lemma im_ns_equity_grid_margin :
  InitialMargin.calculate_grid_margin im_ns_equity = Ok (80000, [(EQUITY, 80000)]).
Proof.
  unfold InitialMargin.calculate_grid_margin.
  rewrite (mapM_total _ (fun g => (fst g, gross_notional (snd g)
                                           * grid_rate_2_5 (fst g))))
    by (intros g _; apply grid_class_margin_total).
  cbn. unfold gross_notional, sum, dict_values. cbn.
  rewrite Rabs_right by lra.
  replace ((1000000 + 0) * 0.08) with 80000 by lra.
  do 2 f_equal. lra.
Qed.

(** C6.  The grid margin always returns; under every asset class it holds
    the sum of the absolute notionals of the trades of that class times the
    "2-5" threshold of the class, whatever the maturities; and the single
    one-year equity trade of notional 1,000,000, whose own bucket is "0-2",
    is charged 80,000. *)
Theorem grid_margin_uses_fixed_bucket :
  (forall ns : InitialMargin.NettingSet,
      exists margins : list (AssetClass * R),
        InitialMargin.calculate_grid_margin ns
        = Ok (sum (dict_values margins), margins) /\
        forall ac : AssetClass,
          dict_get AssetClass_eqb ac margins
          = match filter (fun t => AssetClass_eqb (InitialMargin.asset_class t) ac)
                         (InitialMargin.trades ns) with
            | [] => None
            | ts => Some (gross_notional ts * grid_rate_2_5 ac)
            end) /\
  InitialMargin.get_maturity_bucket (InitialMargin.maturity equity_1m_1y) = "0-2"%string /\
  InitialMargin.calculate_grid_margin im_ns_equity = Ok (80000, [(EQUITY, 80000)]).
Proof.
  split; [| split].
  - intros ns.
    set (groups := group_by_asset_class InitialMargin.asset_class
                     (InitialMargin.trades ns)).
    exists (map (fun g => (fst g, (fun ac ts => gross_notional ts * grid_rate_2_5 ac)
                                     (fst g) (snd g))) groups).
    split.
    + unfold InitialMargin.calculate_grid_margin. fold groups.
      rewrite (mapM_total _ (fun g => (fst g, gross_notional (snd g)
                                               * grid_rate_2_5 (fst g)))).
      * reflexivity.
      * intros g _. apply grid_class_margin_total.
    + intros ac.
      pose proof (dict_get_map_values
                    (fun ac ts => gross_notional ts * grid_rate_2_5 ac) ac groups)
        as Hm.
      cbv beta in Hm. rewrite Hm. unfold groups.
      rewrite group_by_asset_class_get.
      destruct (filter _ _); reflexivity.
  - unfold InitialMargin.get_maturity_bucket. cbn.
    destruct (Rlt_dec 1 2); [reflexivity | lra].
  - exact im_ns_equity_grid_margin.
Qed.

(** ** Percentage breakdowns (C8) *)

Lemma sum_dict_values_app {K : Type} (d1 d2 : list (K * R)) :
  sum (dict_values (d1 ++ d2)) = sum (dict_values d1) + sum (dict_values d2).
Proof. unfold dict_values. rewrite map_app. apply sum_app. Qed.

Lemma accumulate_sum (k : AssetClass) (v : R) (d : list (AssetClass * R)) :
  sum (dict_values (accumulate k v d)) = sum (dict_values d) + v.
Proof.
  unfold accumulate. destruct (dict_get AssetClass_eqb k d) as [old |] eqn:G.
  - destruct (dict_set_present k (old + v) old d G) as (d1 & d2 & -> & ->).
    rewrite !sum_dict_values_app. unfold dict_values, sum. simpl. lra.
  - rewrite (dict_set_absent k (0 + v) d G).
    rewrite sum_dict_values_app. unfold dict_values, sum. simpl. lra.
Qed.

Lemma accumulate_nonneg (k : AssetClass) (v : R) (d : list (AssetClass * R)) :
  0 <= v ->
  Forall (fun x => 0 <= x) (dict_values d) ->
  Forall (fun x => 0 <= x) (dict_values (accumulate k v d)).
Proof.
  intros Hv Hd. unfold accumulate.
  destruct (dict_get AssetClass_eqb k d) as [old |] eqn:G.
  - destruct (dict_set_present k (old + v) old d G) as (d1 & d2 & -> & ->).
    unfold dict_values in *. rewrite map_app in *. simpl in *.
    apply Forall_app in Hd. destruct Hd as [H1 H2]. inversion H2; subst.
    apply Forall_app. split; [assumption |]. constructor; [lra | assumption].
  - rewrite (dict_set_absent k (0 + v) d G).
    unfold dict_values in *. rewrite map_app. apply Forall_app. split; [assumption |].
    simpl. constructor; [lra | constructor].
Qed.

Lemma sum_dict_values_cons {K : Type} (k : K) (v : R) (d : list (K * R)) :
  sum (dict_values ((k, v) :: d)) = v + sum (dict_values d).
Proof. reflexivity. Qed.

Lemma accumulate_all_sum (items d : list (AssetClass * R)) :
  sum (dict_values (accumulate_all items d))
  = sum (dict_values d) + sum (dict_values items).
Proof.
  unfold accumulate_all. revert d.
  induction items as [| [k v] items IH]; intros d.
  - simpl. change (sum (dict_values (@nil (AssetClass * R)))) with 0. lra.
  - cbn [fold_left fst snd]. rewrite IH, accumulate_sum, sum_dict_values_cons. lra.
Qed.

Lemma accumulate_all_nonneg (items d : list (AssetClass * R)) :
  Forall (fun x => 0 <= x) (dict_values items) ->
  Forall (fun x => 0 <= x) (dict_values d) ->
  Forall (fun x => 0 <= x) (dict_values (accumulate_all items d)).
Proof.
  unfold accumulate_all. revert d.
  induction items as [| [k v] items IH]; intros d Hi Hd; simpl; [assumption |].
  unfold dict_values in Hi. simpl in Hi. inversion Hi; subst.
  apply IH; [assumption |]. apply accumulate_nonneg; assumption.
Qed.

(** The percentages of a breakdown whose divisor is the sum of its
    entries. *)
Lemma percentages_sum (total : R) (values : list R) :
  total = sum values -> 0 < total ->
  sum (map (fun x => x / total * 100) values) = 100.
Proof.
  intros Ht Hpos.
  assert (H : forall l, sum (map (fun x => x / total * 100) l) = sum l / total * 100).
  { induction l as [| x l IH]; unfold sum in *; simpl; [lra |].
    rewrite IH. field. lra. }
  rewrite H, <- Ht. field. lra.
Qed.

Lemma PFE_breakdown_exposures (d : list (AssetClass * R)) :
  map PFE.exposure (PFE.breakdown_of d) = dict_values d.
Proof.
  unfold PFE.breakdown_of, dict_values. rewrite map_map.
  apply map_ext. intros [ac x]. reflexivity.
Qed.

Lemma PFE_breakdown_percentages (d : list (AssetClass * R)) :
  map PFE.percentage (PFE.breakdown_of d)
  = map (fun x => if Rlt_dec 0 (sum (dict_values d))
                  then x / sum (dict_values d) * 100 else 0)
        (dict_values d).
Proof.
  unfold PFE.breakdown_of, dict_values. rewrite !map_map.
  apply map_ext. intros [ac x]. reflexivity.
Qed.

Lemma IM_breakdown_margins (total : R) (d : list (AssetClass * R)) :
  map InitialMargin.margin (InitialMargin.breakdown_of total d) = dict_values d.
Proof.
  unfold InitialMargin.breakdown_of, dict_values. rewrite map_map.
  apply map_ext. intros [ac x]. reflexivity.
Qed.

Lemma IM_breakdown_percentages (total : R) (d : list (AssetClass * R)) :
  map InitialMargin.percentage (InitialMargin.breakdown_of total d)
  = map (fun x => if Rlt_dec 0 total then x / total * 100 else 0) (dict_values d).
Proof.
  unfold InitialMargin.breakdown_of, dict_values. rewrite !map_map.
  apply map_ext. intros [ac x]. reflexivity.
Qed.

Lemma guarded_percentages (total : R) (values : list R) :
  total = sum values ->
  (0 < total ->
   sum (map (fun x => if Rlt_dec 0 total then x / total * 100 else 0) values) = 100) /\
  (total <= 0 ->
   Forall (fun p => p = 0)
          (map (fun x => if Rlt_dec 0 total then x / total * 100 else 0) values)).
Proof.
  intros Ht. split; intros H.
  - rewrite (map_ext _ (fun x => x / total * 100)).
    + now apply percentages_sum.
    + intros x. destruct (Rlt_dec 0 total); [reflexivity | lra].
  - apply Forall_forall. intros p Hp. apply in_map_iff in Hp.
    destruct Hp as (x & <- & _). destruct (Rlt_dec 0 total); [lra | reflexivity].
Qed.

(** Every margin computed for a netting set is a sum of absolute values
    times positive weights. *)
Lemma gross_notional_nonneg (ts : list InitialMargin.Trade) : 0 <= gross_notional ts.
Proof.
  unfold gross_notional. apply sum_nonneg. apply Forall_forall.
  intros x Hx. apply in_map_iff in Hx. destruct Hx as (t & <- & _). apply Rabs_pos.
Qed.

Lemma grid_rate_2_5_pos (ac : AssetClass) : 0 < grid_rate_2_5 ac.
Proof. destruct ac; simpl; lra. Qed.

Lemma grid_margin_nonneg (ns : InitialMargin.NettingSet) (m : R)
    (margins : list (AssetClass * R)) :
  InitialMargin.calculate_grid_margin ns = Ok (m, margins) ->
  m = sum (dict_values margins) /\ Forall (fun x => 0 <= x) (dict_values margins).
Proof.
  unfold InitialMargin.calculate_grid_margin.
  rewrite (mapM_total _ (fun g => (fst g, gross_notional (snd g)
                                           * grid_rate_2_5 (fst g))))
    by (intros g _; apply grid_class_margin_total).
  cbn [bind]. intros H. injection H as <- <-. split; [reflexivity |].
  unfold dict_values. rewrite map_map. apply Forall_forall.
  intros x Hx. apply in_map_iff in Hx. destruct Hx as (g & <- & _). simpl.
  apply Rmult_le_pos; [apply gross_notional_nonneg |].
  apply Rlt_le, grid_rate_2_5_pos.
Qed.

Lemma simm_class_margin_nonneg (group : AssetClass * list InitialMargin.Trade)
    (ac : AssetClass) (d v c : R) :
  InitialMargin.simm_class_margin group = Ok (ac, (d, v, c)) ->
  0 <= d /\ 0 <= v /\ 0 <= c.
Proof.
  destruct group as [ac0 ts]. unfold InitialMargin.simm_class_margin.
  destruct (InitialMargin.simm_sums ts) as [[ds vs] cs].
  destruct ac0; cbn; intros H; injection H as <- <- <- <-;
    repeat split; apply Rmult_le_pos; try apply Rabs_pos; lra.
Qed.

Lemma simm_margin_nonneg (ns : InitialMargin.NettingSet) (m : R)
    (margins : list (AssetClass * R)) (sb : InitialMargin.SensitivityBreakdown) :
  InitialMargin.calculate_simm_margin ns = Ok (m, margins, sb) ->
  m = sum (dict_values margins) /\ Forall (fun x => 0 <= x) (dict_values margins).
Proof.
  unfold InitialMargin.calculate_simm_margin. intros H. bind_inv H.
  cbv zeta in H. injection H as <- <- _. split; [reflexivity |].
  apply mapM_Ok_Forall2 in Ha.
  unfold dict_values. rewrite map_map. apply Forall_forall.
  intros x Hx. apply in_map_iff in Hx. destruct Hx as ([ac [[d v] c]] & <- & Hin).
  simpl.
  assert (Hex : exists g, InitialMargin.simm_class_margin g = Ok (ac, (d, v, c))).
  { clear - Ha Hin. induction Ha as [| g p gs ps Hg _ IH]; [contradiction |].
    destruct Hin as [-> | Hin]; [eauto | auto]. }
  destruct Hex as (g & Hg). apply simm_class_margin_nonneg in Hg. lra.
Qed.

Lemma margin_by_method_nonneg (m : InitialMargin.CalculationMethod)
    (st : InitialMargin.Totals) (ns : InitialMargin.NettingSet) (margin : R)
    (margins : list (AssetClass * R)) (s : option InitialMargin.SensitivityBreakdown) :
  InitialMargin.margin_by_method m st ns = Ok (margin, margins, s) ->
  margin = sum (dict_values margins) /\ Forall (fun x => 0 <= x) (dict_values margins).
Proof.
  destruct m; cbn [InitialMargin.margin_by_method]; intros H; bind_inv H.
  - destruct a as [m' ms']. injection H as <- <- _. now apply grid_margin_nonneg in Ha.
  - destruct a as [[m' ms'] sb]. cbv zeta in H. injection H as <- <- _.
    now apply simm_margin_nonneg in Ha.
Qed.

(** The loop over netting sets keeps the running total equal to the sum of
    the accumulated margins, all of them non-negative. *)
Lemma IM_process_netting_sets_invariant (input : InitialMargin.InitialMarginInput)
    (l : list InitialMargin.NettingSet) (st st' : InitialMargin.Totals) :
  InitialMargin.process_netting_sets input st l = Ok st' ->
  InitialMargin.acc_total_margin st
  = sum (dict_values (InitialMargin.all_margins st)) ->
  Forall (fun x => 0 <= x) (dict_values (InitialMargin.all_margins st)) ->
  InitialMargin.acc_total_margin st'
  = sum (dict_values (InitialMargin.all_margins st')) /\
  Forall (fun x => 0 <= x) (dict_values (InitialMargin.all_margins st')).
Proof.
  revert st. induction l as [| ns l IH]; intros st H Hsum Hpos; simpl in H.
  - injection H as <-. split; assumption.
  - bind_inv H. unfold InitialMargin.process_netting_set in Ha.
    bind_inv Ha. destruct a0 as [[margin margins] s].
    apply margin_by_method_nonneg in Ha0. destruct Ha0 as [Hm Hms].
    injection Ha as <-.
    apply (IH _ H); cbn [InitialMargin.acc_total_margin InitialMargin.all_margins].
    + rewrite accumulate_all_sum, Hsum, Hm. reflexivity.
    + apply accumulate_all_nonneg; assumption.
Qed.

(** C8, as the code has it.  Both engines divide by the total only when it
    is strictly positive.  In the PFE engine the percentages add up to 100
    when the total add-on is positive and are all 0 when it is zero or
    negative.  In the initial margin engine the total margin is the sum of
    the entries and never negative, so there the percentages add up to 100
    when it is non-zero and are all 0 when it is zero. *)
Theorem percentage_breakdowns :
  (forall (input : PFE.PFEInput) (r : PFE.PFEResult),
      PFE.calculate_pfe input = Ok r ->
      let total := sum (map PFE.exposure (PFE.asset_class_breakdown r)) in
      (0 < total -> sum (map PFE.percentage (PFE.asset_class_breakdown r)) = 100) /\
      (total <= 0 ->
       Forall (fun p => p = 0) (map PFE.percentage (PFE.asset_class_breakdown r)))) /\
  (forall (input : InitialMargin.InitialMarginInput)
          (r : InitialMargin.InitialMarginResult),
      InitialMargin.calculate_initial_margin input = Ok r ->
      let breakdown := InitialMargin.asset_class_breakdown r in
      InitialMargin.total_margin r = sum (map InitialMargin.margin breakdown) /\
      0 <= InitialMargin.total_margin r /\
      (InitialMargin.total_margin r <> 0 ->
       sum (map InitialMargin.percentage breakdown) = 100) /\
      (InitialMargin.total_margin r = 0 ->
       Forall (fun p => p = 0) (map InitialMargin.percentage breakdown))).
Proof.
  split.
  - intros input r H. unfold PFE.calculate_pfe in H. bind_inv H.
    injection H as <-. cbn [PFE.asset_class_breakdown]. cbv zeta.
    rewrite PFE_breakdown_exposures, PFE_breakdown_percentages.
    apply guarded_percentages. reflexivity.
  - intros input r H. unfold InitialMargin.calculate_initial_margin in H. bind_inv H.
    injection H as <-.
    cbn [InitialMargin.asset_class_breakdown InitialMargin.total_margin]. cbv zeta.
    apply IM_process_netting_sets_invariant in Ha;
      [| reflexivity | constructor].
    destruct Ha as [Hsum Hpos].
    rewrite IM_breakdown_margins, IM_breakdown_percentages.
    assert (Hnn : 0 <= InitialMargin.acc_total_margin a)
      by (rewrite Hsum; now apply sum_nonneg).
    destruct (guarded_percentages _ _ Hsum) as [Hp Hz].
    repeat split; try assumption.
    + intros Hne. apply Hp. lra.
    + intros He. apply Hz. lra.
Qed.

Definition pfe_input_swap : PFE.PFEInput :=
  {| PFE.netting_sets := [pfe_ns_swap];
     PFE.calculation_method := PFE.SA_CCR;
     PFE.time_horizon := PFE.ONE_YEAR;
     PFE.confidence_level := PFE.CL_97_5 |}.

Definition im_input_equity : InitialMargin.InitialMarginInput :=
  {| InitialMargin.netting_sets := [im_ns_equity];
     InitialMargin.calculation_method := InitialMargin.GRID |}.

(** The result of [calculate_pfe] on a single netting set. *)
Lemma calculate_pfe_single (ns : PFE.NettingSet) (m : PFE.CalculationMethod)
    (h : PFE.TimeHorizon) (c : PFE.ConfidenceLevel) (pfe : R)
    (add_ons : list (AssetClass * R)) :
  PFE.pfe_by_method m ns h c = Ok (pfe, add_ons) ->
  exists r,
    PFE.calculate_pfe
      {| PFE.netting_sets := [ns]; PFE.calculation_method := m;
         PFE.time_horizon := h; PFE.confidence_level := c |} = Ok r /\
    PFE.asset_class_breakdown r = PFE.breakdown_of (accumulate_all add_ons []).
Proof.
  intros H. unfold PFE.calculate_pfe.
  cbn [PFE.netting_sets PFE.process_netting_sets].
  unfold PFE.process_netting_set.
  cbn [PFE.calculation_method PFE.time_horizon PFE.confidence_level].
  rewrite H.
  cbn [bind PFE.all_add_ons PFE.acc_total_pfe PFE.acc_total_expected_exposure
       PFE.acc_netting_set_results].
  eexists. split; reflexivity.
Qed.

Lemma im_input_equity_result :
  exists r, InitialMargin.calculate_initial_margin im_input_equity = Ok r.
Proof.
  unfold InitialMargin.calculate_initial_margin, im_input_equity.
  cbn [InitialMargin.netting_sets InitialMargin.process_netting_sets].
  unfold InitialMargin.process_netting_set.
  cbn [InitialMargin.calculation_method InitialMargin.margin_by_method].
  rewrite im_ns_equity_grid_margin. cbn [bind]. eexists. reflexivity.
Qed.

Lemma percentage_breakdowns_witness :
  (exists r, PFE.calculate_pfe pfe_input_swap = Ok r /\
             let total := sum (map PFE.exposure (PFE.asset_class_breakdown r)) in
             (0 < total ->
              sum (map PFE.percentage (PFE.asset_class_breakdown r)) = 100) /\
             (total <= 0 ->
              Forall (fun p => p = 0)
                     (map PFE.percentage (PFE.asset_class_breakdown r)))) /\
  (exists r, InitialMargin.calculate_initial_margin im_input_equity = Ok r /\
             InitialMargin.total_margin r
             = sum (map InitialMargin.margin (InitialMargin.asset_class_breakdown r))).
Proof.
  split.
  - destruct (calculate_pfe_single pfe_ns_swap PFE.SA_CCR PFE.ONE_YEAR PFE.CL_97_5
                _ _ (pfe_ns_swap_sa_ccr PFE.ONE_YEAR PFE.CL_97_5)) as (r & Hr & _).
    exists r. split; [exact Hr |].
    exact (proj1 percentage_breakdowns pfe_input_swap r Hr).
  - destruct im_input_equity_result as (r & Hr).
    exists r. split; [exact Hr |].
    exact (proj1 (proj2 percentage_breakdowns im_input_equity r Hr)).
Defined.

(** A short position: the same swap with supervisory delta -1. *)
Definition pfe_short_swap : PFE.Trade :=
  {| PFE.id := "T2";
     PFE.asset_class := INTEREST_RATE;
     PFE.transaction_type := SWAP;
     PFE.notional := 1000000;
     PFE.maturity := 3;
     PFE.market_value := 0;
     PFE.supervisory_delta := Some (-1);
     PFE.supervisory_factor := None;
     PFE.maturity_factor := None |}.

Definition pfe_ns_short : PFE.NettingSet :=
  {| PFE.ns_id := "N2"; PFE.trades := [pfe_short_swap]; PFE.collateral := [] |}.

Definition pfe_input_short : PFE.PFEInput :=
  {| PFE.netting_sets := [pfe_ns_short];
     PFE.calculation_method := PFE.SA_CCR;
     PFE.time_horizon := PFE.ONE_YEAR;
     PFE.confidence_level := PFE.CL_97_5 |}.

Lemma pfe_ns_short_add_on :
  PFE.calculate_add_on pfe_ns_short = Ok [(INTEREST_RATE, -5000)].
Proof.
  unfold PFE.calculate_add_on. cbn.
  unfold PFE.effective_notional_of, PFE.calculate_maturity_factor. cbn.
  rewrite sqrt_Rmin_3_1. cbn.
  do 3 f_equal. lra.
Qed.

Lemma pfe_ns_short_sa_ccr :
  exists pfe,
    PFE.pfe_by_method PFE.SA_CCR pfe_ns_short PFE.ONE_YEAR PFE.CL_97_5
    = Ok (pfe, [(INTEREST_RATE, -5000)]).
Proof.
  cbn [PFE.pfe_by_method]. unfold PFE.calculate_potential_future_exposure_sa_ccr.
  rewrite pfe_ns_short_add_on. cbn [bind]. eexists. reflexivity.
Qed.

(** C8 as stated fails in the PFE engine: a netting set holding one short
    swap has total add-on -5000, which is not zero, and its only
    percentage is 0, not 100. *)
Lemma negative_total_has_zero_percentages :
  exists r,
    PFE.calculate_pfe pfe_input_short = Ok r /\
    sum (map PFE.exposure (PFE.asset_class_breakdown r)) = -5000 /\
    sum (map PFE.exposure (PFE.asset_class_breakdown r)) <> 0 /\
    sum (map PFE.percentage (PFE.asset_class_breakdown r)) = 0.
Proof.
  destruct pfe_ns_short_sa_ccr as (pfe & Hp).
  destruct (calculate_pfe_single _ _ _ _ _ _ Hp) as (r & Hr & Hb).
  exists r. split; [exact Hr |].
  rewrite Hb, PFE_breakdown_exposures, PFE_breakdown_percentages.
  unfold accumulate_all, accumulate.
  cbn [fold_left fst snd dict_get dict_set].
  rewrite sum_single_add_on.
  split; [lra |]. split; [lra |].
  cbn [dict_values map snd]. destruct (Rlt_dec 0 (0 + -5000)); [lra |].
  unfold sum. simpl. lra.
Qed.

(** ** The normal distribution function *)

Lemma pdf_decreasing (t x : R) : 0 <= t <= x -> Normal.pdf x <= Normal.pdf t.
Proof.
  intros [Ht Htx]. unfold Normal.pdf.
  apply Rmult_le_compat_r.
  - apply Rlt_le, Rinv_0_lt_compat, Normal.sqrt_two_PI_pos.
  - destruct (Req_dec t x) as [-> | Hne]; [lra |].
    apply Rlt_le, exp_increasing. nra.
Qed.

Lemma cdf_lower_bound (x : R) : 0 <= x -> 1 / 2 + Normal.pdf x * x <= Normal.cdf x.
Proof.
  intros Hx. unfold Normal.cdf. apply Rplus_le_compat_l.
  rewrite <- (Rminus_0_r x) at 2.
  rewrite <- (RiemannInt_P15 (RiemannInt_P14 0 x (Normal.pdf x))).
  apply RiemannInt_P19; [exact Hx |].
  intros t Ht. unfold fct_cte. apply pdf_decreasing. lra.
Qed.

Lemma cdf_gt_half (x : R) : 0 < x -> 1 / 2 < Normal.cdf x.
Proof.
  intros Hx. pose proof (cdf_lower_bound x (Rlt_le _ _ Hx)) as H.
  pose proof (Normal.pdf_pos x) as Hp. nra.
Qed.

(** ** Supervisory delta (C3) *)

(** The closed form of [d1]. *)
Definition d1_of (s k t vol r : R) : R :=
  (ln (s / k) + (r + 0.5 * vol ^ 2) * t) / (vol * sqrt t).

Lemma black_scholes_returns (ot : SACCR.OptionType) (s k t vol r : R) :
  0 < s -> 0 < k -> 0 < t -> 0 < vol ->
  let d1 := d1_of s k t vol r in
  let d2 := d1 - vol * sqrt t in
  SACCR.calculate_black_scholes ot s k t vol r
  = Ok (match ot with
        | SACCR.CALL => s * Normal.cdf d1 - k * exp (- r * t) * Normal.cdf d2
        | SACCR.PUT => k * exp (- r * t) * Normal.cdf (- d2) - s * Normal.cdf (- d1)
        end,
        match ot with
        | SACCR.CALL => Normal.cdf d1
        | SACCR.PUT => Normal.cdf d1 - 1
        end,
        Normal.pdf d1 / (s * vol * sqrt t)).
Proof.
  intros Hs Hk Ht Hvol d1 d2.
  assert (Hsq : 0 < sqrt t) by now apply sqrt_lt_R0.
  assert (Hratio : 0 < s / k) by now apply Rdiv_lt_0_compat.
  unfold SACCR.calculate_black_scholes.
  rewrite fdiv_Ok by lra. cbn [bind].
  rewrite py_log_Ok by assumption. cbn [bind].
  rewrite py_sqrt_Ok by lra. cbn [bind].
  rewrite fdiv_Ok by nra. cbn [bind].
  fold (d1_of s k t vol r). fold d1. cbv zeta. fold d2.
  destruct ot; rewrite fdiv_Ok by (apply Rgt_not_eq; repeat apply Rmult_lt_0_compat; lra);
    reflexivity.
Qed.

(** C3, as the code has it.  In the SA-CCR engine the supervisory delta is
    the override when present, 1 for a product that is neither an option
    nor a swaption, and otherwise the Black-Scholes delta of the
    transaction with its sign flipped for a put.  In the PFE engine the
    first two cases are the same and every option or swaption without an
    override gets the fixed delta 0.5. *)
Theorem supervisory_delta_rule :
  (forall (t : SACCR.Transaction) (d : R),
      SACCR.supervisory_delta t = Some d ->
      SACCR.calculate_supervisory_delta t = Ok d) /\
  (forall t : SACCR.Transaction,
      SACCR.supervisory_delta t = None ->
      is_option_like (SACCR.transaction_type t) = false ->
      SACCR.calculate_supervisory_delta t = Ok 1) /\
  (forall (t : SACCR.Transaction) (s k vol r : R) (ot : SACCR.OptionType),
      SACCR.supervisory_delta t = None ->
      is_option_like (SACCR.transaction_type t) = true ->
      SACCR.underlying_price t = Some s ->
      SACCR.strike_price t = Some k ->
      SACCR.option_type t = Some ot ->
      SACCR.volatility t = Some vol ->
      SACCR.interest_rate t = Some r ->
      0 < s -> 0 < k -> 0 < SACCR.maturity t -> 0 < vol ->
      exists price delta gamma : R,
        SACCR.calculate_black_scholes ot s k (SACCR.maturity t) vol r
        = Ok (price, delta, gamma) /\
        delta = match ot with
                | SACCR.CALL => Normal.cdf (d1_of s k (SACCR.maturity t) vol r)
                | SACCR.PUT => Normal.cdf (d1_of s k (SACCR.maturity t) vol r) - 1
                end /\
        SACCR.calculate_supervisory_delta t
        = Ok (match ot with SACCR.CALL => delta | SACCR.PUT => - delta end)) /\
  (forall t : PFE.Trade,
      PFE.calculate_supervisory_delta t
      = match PFE.supervisory_delta t with
        | Some d => d
        | None => if is_option_like (PFE.transaction_type t) then 0.5 else 1
        end).
Proof.
  repeat split.
  - intros t d H. unfold SACCR.calculate_supervisory_delta. now rewrite H.
  - intros t H Hn. unfold SACCR.calculate_supervisory_delta. now rewrite H, Hn.
  - intros t s k vol r ot H Ho Hs Hk Hot Hvol Hr Hsp Hkp Htp Hvp.
    pose proof (black_scholes_returns ot s k (SACCR.maturity t) vol r Hsp Hkp Htp Hvp)
      as Hbs. cbv zeta in Hbs.
    do 3 eexists. split; [exact Hbs |]. split; [reflexivity |].
    unfold SACCR.calculate_supervisory_delta.
    rewrite H, Ho, Hs, Hk, Hot, Hvol, Hr. cbn [negb]. rewrite Hbs. cbn [bind].
    destruct ot; reflexivity.
  - intros t. unfold PFE.calculate_supervisory_delta.
    destruct (PFE.supervisory_delta t); [reflexivity |].
    destruct (is_option_like (PFE.transaction_type t)); reflexivity.
Qed.

(** The at-the-money call of the specification's pricing example, as an
    equity option of one year. *)
Definition call_atm : SACCR.Transaction :=
  {| SACCR.id := "O1";
     SACCR.asset_class := EQUITY;
     SACCR.transaction_type := OPTION;
     SACCR.notional := 1000000;
     SACCR.maturity := 1;
     SACCR.underlying_price := Some 100;
     SACCR.strike_price := Some 100;
     SACCR.option_type := Some SACCR.CALL;
     SACCR.option_style := Some SACCR.EUROPEAN;
     SACCR.volatility := Some 0.2;
     SACCR.interest_rate := Some 0.05;
     SACCR.supervisory_delta := None;
     SACCR.supervisory_factor := None;
     SACCR.maturity_factor := None |}.

(** The fields of a transaction that the PFE schema carries. *)
Definition as_pfe_trade (t : SACCR.Transaction) (market_value : R) : PFE.Trade :=
  {| PFE.id := SACCR.id t;
     PFE.asset_class := SACCR.asset_class t;
     PFE.transaction_type := SACCR.transaction_type t;
     PFE.notional := SACCR.notional t;
     PFE.maturity := SACCR.maturity t;
     PFE.market_value := market_value;
     PFE.supervisory_delta := SACCR.supervisory_delta t;
     PFE.supervisory_factor := SACCR.supervisory_factor t;
     PFE.maturity_factor := SACCR.maturity_factor t |}.

Lemma d1_atm : d1_of 100 100 1 0.2 0.05 = 0.35.
Proof.
  unfold d1_of. replace (100 / 100) with 1 by lra.
  rewrite ln_1, sqrt_1. lra.
Qed.

Lemma call_atm_delta : SACCR.calculate_supervisory_delta call_atm = Ok (Normal.cdf 0.35).
Proof.
  unfold SACCR.calculate_supervisory_delta. cbn.
  pose proof (black_scholes_returns SACCR.CALL 100 100 1 0.2 0.05) as H.
  cbv zeta in H. rewrite H by lra. cbn [bind]. rewrite d1_atm. reflexivity.
Qed.

Lemma supervisory_delta_rule_witness :
  exists price delta gamma : R,
    SACCR.calculate_black_scholes SACCR.CALL 100 100 (SACCR.maturity call_atm) 0.2 0.05
    = Ok (price, delta, gamma) /\
    delta = Normal.cdf (d1_of 100 100 (SACCR.maturity call_atm) 0.2 0.05) /\
    SACCR.calculate_supervisory_delta call_atm = Ok delta.
Proof.
  refine (proj1 (proj2 (proj2 supervisory_delta_rule))
            call_atm 100 100 0.2 0.05 SACCR.CALL
            eq_refl eq_refl eq_refl eq_refl eq_refl eq_refl eq_refl _ _ _ _);
    cbn; lra.
Defined.

(** C3 as stated fails in the PFE engine: the SA-CCR engine gives the
    at-the-money call its Black-Scholes delta, which exceeds one half, and
    the PFE engine gives the same trade 0.5. *)
Lemma pfe_option_delta_is_fixed :
  SACCR.calculate_supervisory_delta call_atm = Ok (Normal.cdf 0.35) /\
  PFE.calculate_supervisory_delta (as_pfe_trade call_atm 0) = 0.5 /\
  Normal.cdf 0.35 <> 0.5.
Proof.
  split; [exact call_atm_delta |]. split; [reflexivity |].
  pose proof (cdf_gt_half 0.35). lra.
Qed.

(** ** Matrices *)

Lemma length_list_set {A : Type} (i : nat) (v : A) (l : list A) :
  List.length (list_set i v l) = List.length l.
Proof.
  revert i. induction l as [| x l IH]; intros [| i]; simpl; auto.
Qed.

Lemma nth_list_set {A : Type} (i j : nat) (v d : A) (l : list A) :
  nth j (list_set i v l) d
  = if (Nat.eqb i j && Nat.ltb i (List.length l))%bool then v else nth j l d.
Proof.
  revert i j. induction l as [| x l IH]; intros i j.
  - replace (Nat.ltb i (List.length (@nil A))) with false
      by (symmetry; apply Nat.ltb_ge; simpl; lia).
    rewrite andb_false_r. now destruct i.
  - destruct i as [| i], j as [| j]; simpl; try reflexivity.
    rewrite IH. reflexivity.
Qed.

Definition square (n : nat) (m : matrix) : Prop :=
  List.length m = n /\ Forall (fun row => List.length row = n) m.

Lemma square_row (n : nat) (m : matrix) (i : nat) :
  square n m -> (i < n)%nat -> List.length (nth i m []) = n.
Proof.
  intros [Hl Hr] Hi. rewrite Forall_forall in Hr. apply Hr, nth_In. lia.
Qed.

Lemma square_mset (n : nat) (m : matrix) (i j : nat) (v : R) :
  square n m -> square n (mset m i j v).
Proof.
  intros [Hl Hr]. unfold mset. split.
  - now rewrite length_list_set.
  - rewrite Forall_forall in *. intros row Hin.
    destruct (In_nth _ _ [] Hin) as (a & Ha & <-).
    rewrite length_list_set in Ha. rewrite nth_list_set.
    destruct (Nat.eqb i a && Nat.ltb i (List.length m))%bool eqn:E.
    + rewrite length_list_set.
      apply andb_prop in E. destruct E as [_ E]. apply Nat.ltb_lt in E.
      apply Hr, nth_In. assumption.
    + apply Hr, nth_In. assumption.
Qed.

Lemma mget_mset (n : nat) (m : matrix) (i j a b : nat) (v : R) :
  square n m -> (i < n)%nat -> (j < n)%nat ->
  mget (mset m i j v) a b
  = if (Nat.eqb i a && Nat.eqb j b)%bool then v else mget m a b.
Proof.
  intros Hsq Hi Hj. unfold mget, mset. rewrite nth_list_set.
  destruct Hsq as [Hl Hr].
  assert (Hlt : Nat.ltb i (List.length m) = true) by (apply Nat.ltb_lt; lia).
  rewrite Hlt, andb_true_r.
  destruct (Nat.eqb i a) eqn:E; simpl; [| reflexivity].
  apply Nat.eqb_eq in E. subst a. rewrite nth_list_set.
  rewrite (square_row n m i (conj Hl Hr) Hi).
  assert (Hjl : Nat.ltb j n = true) by (apply Nat.ltb_lt; lia).
  rewrite Hjl, andb_true_r. reflexivity.
Qed.

Lemma square_mbuild (n : nat) (f : nat -> nat -> R) : square n (mbuild n f).
Proof.
  unfold mbuild. split.
  - now rewrite length_map, length_seq.
  - apply Forall_forall. intros row Hin. apply in_map_iff in Hin.
    destruct Hin as (i & <- & _). now rewrite length_map, length_seq.
Qed.

Lemma mget_mbuild (n : nat) (f : nat -> nat -> R) (i j : nat) :
  (i < n)%nat -> (j < n)%nat -> mget (mbuild n f) i j = f i j.
Proof.
  intros Hi Hj. unfold mget, mbuild.
  rewrite (nth_indep _ [] (map (fun j => f 0%nat j) (seq 0 n)))
    by (now rewrite length_map, length_seq).
  rewrite (map_nth (fun i => map (fun j => f i j) (seq 0 n)) (seq 0 n) 0%nat i).
  rewrite seq_nth by assumption. simpl.
  rewrite (nth_indep _ 0 (f i 0%nat)) by (now rewrite length_map, length_seq).
  rewrite (map_nth (fun j => f i j) (seq 0 n) 0%nat j).
  now rewrite seq_nth.
Qed.

Lemma mget_out_of_range (n : nat) (m : matrix) (i j : nat) :
  square n m -> (n <= i \/ n <= j)%nat -> mget m i j = 0.
Proof.
  intros [Hl Hr] H. unfold mget.
  destruct (Nat.lt_ge_cases i n) as [Hi | Hi].
  - apply nth_overflow. rewrite (square_row n m i (conj Hl Hr) Hi). lia.
  - rewrite (nth_overflow m) by lia. now destruct j.
Qed.

Lemma enumerate_In {A : Type} (l : list A) (i : nat) (x : A) :
  In (i, x) (enumerate l) -> (i < List.length l)%nat /\ nth_error l i = Some x.
Proof.
  unfold enumerate.
  assert (H : forall start,
             In (i, x) (combine (seq start (List.length l)) l) ->
             (start <= i < start + List.length l)%nat /\
             nth_error l (i - start) = Some x).
  { induction l as [| y l IH]; intros start; simpl; [contradiction |].
    intros [Heq | Hin].
    - injection Heq as <- <-. rewrite Nat.sub_diag. split; [lia | reflexivity].
    - destruct (IH _ Hin) as [Hr Hn]. split; [lia |].
      replace (i - start)%nat with (S (i - S start)) by lia. exact Hn. }
  intros Hin. destruct (H 0%nat Hin) as [Hr Hn].
  rewrite Nat.sub_0_r in Hn. split; [lia | assumption].
Qed.

(** ** The correlation matrix (C10) *)

Definition symmetric (m : matrix) : Prop :=
  forall a b : nat, mget m a b = mget m b a.

Definition unit_diagonal (n : nat) (m : matrix) : Prop :=
  forall a : nat, (a < n)%nat -> mget m a a = 1.

(** No position lists its own id in its correlation map. *)
Definition no_self_correlation (ps : list VaR.Position) : Prop :=
  forall p corr,
    In p ps -> VaR.correlation p = Some corr ->
    dict_get String.eqb (VaR.id p) corr = None.

Lemma initial_correlation_square (n : nat) : square n (VaR.initial_correlation n).
Proof. apply square_mbuild. Qed.

Lemma initial_correlation_symmetric (n : nat) : symmetric (VaR.initial_correlation n).
Proof.
  intros a b. unfold VaR.initial_correlation.
  destruct (Nat.lt_ge_cases a n) as [Ha | Ha];
    [destruct (Nat.lt_ge_cases b n) as [Hb | Hb] |].
  - rewrite !mget_mbuild by assumption. now rewrite (Nat.eqb_sym b a).
  - rewrite !(mget_out_of_range n) by (auto using square_mbuild). reflexivity.
  - rewrite !(mget_out_of_range n) by (auto using square_mbuild). reflexivity.
Qed.

Lemma initial_correlation_diagonal (n : nat) : unit_diagonal n (VaR.initial_correlation n).
Proof.
  intros a Ha. unfold VaR.initial_correlation. rewrite mget_mbuild by assumption.
  now rewrite Nat.eqb_refl.
Qed.

Lemma symmetric_update (n : nat) (m : matrix) (i j : nat) (c : R) :
  square n m -> (i < n)%nat -> (j < n)%nat -> symmetric m ->
  symmetric (mset (mset m i j c) j i c).
Proof.
  intros Hsq Hi Hj Hs a b.
  rewrite !(mget_mset n) by (auto using square_mset).
  destruct (Nat.eqb j a) eqn:Eja, (Nat.eqb i b) eqn:Eib,
           (Nat.eqb j b) eqn:Ejb, (Nat.eqb i a) eqn:Eia; simpl; auto.
Qed.

Lemma update_entry_invariant (n : nat) (corr : list (string * R)) (i : nat)
    (m : matrix) (jp : nat * VaR.Position) :
  (i < n)%nat -> (fst jp < n)%nat ->
  square n m /\ symmetric m ->
  square n (VaR.update_entry corr i m jp) /\ symmetric (VaR.update_entry corr i m jp).
Proof.
  intros Hi Hj [Hsq Hs]. destruct jp as [j pj]. unfold VaR.update_entry.
  destruct (dict_get String.eqb (VaR.id pj) corr); [| now split].
  split; [auto using square_mset | now apply (symmetric_update n)].
Qed.

Lemma fold_invariant {A S : Type} (P : S -> Prop) (Q : A -> Prop)
    (step : S -> A -> S) (l : list A) (s : S) :
  (forall s a, Q a -> P s -> P (step s a)) ->
  Forall Q l -> P s -> P (fold_left step l s).
Proof.
  intros Hstep Hl. revert s. induction Hl as [| a l Ha _ IH]; intros s Hs; simpl.
  - assumption.
  - apply IH, Hstep; assumption.
Qed.

Lemma enumerate_Forall_lt {A : Type} (l : list A) :
  Forall (fun ip => (fst ip < List.length l)%nat) (enumerate l).
Proof.
  apply Forall_forall. intros [i x] Hin. now apply enumerate_In in Hin.
Qed.

Lemma update_row_invariant (ps : list VaR.Position) (m : matrix)
    (ip : nat * VaR.Position) :
  (fst ip < List.length ps)%nat ->
  square (List.length ps) m /\ symmetric m ->
  square (List.length ps) (VaR.update_row ps m ip) /\
  symmetric (VaR.update_row ps m ip).
Proof.
  intros Hi Hm. destruct ip as [i p_i]. unfold VaR.update_row.
  destruct (VaR.correlation p_i) as [[| e corr] |]; try assumption.
  apply (fold_invariant (fun m => square (List.length ps) m /\ symmetric m)
           (fun jp => (fst jp < List.length ps)%nat)).
  - intros s a Ha Hs. now apply update_entry_invariant.
  - apply enumerate_Forall_lt.
  - assumption.
Qed.

(** The matrix built by the parametric and the Monte Carlo method is square
    and symmetric for every portfolio. *)
Lemma correlation_matrix_symmetric (ps : list VaR.Position) :
  square (List.length ps) (VaR.correlation_matrix ps) /\
  symmetric (VaR.correlation_matrix ps).
Proof.
  unfold VaR.correlation_matrix.
  apply (fold_invariant (fun m => square (List.length ps) m /\ symmetric m)
           (fun ip => (fst ip < List.length ps)%nat)).
  - intros s a Ha Hs. now apply update_row_invariant.
  - apply enumerate_Forall_lt.
  - split; [apply initial_correlation_square | apply initial_correlation_symmetric].
Qed.

Lemma diagonal_update (n : nat) (m : matrix) (i j : nat) (c : R) :
  square n m -> (i < n)%nat -> (j < n)%nat -> i <> j ->
  unit_diagonal n m -> unit_diagonal n (mset (mset m i j c) j i c).
Proof.
  intros Hsq Hi Hj Hne Hd a Ha.
  rewrite !(mget_mset n) by (auto using square_mset).
  destruct (Nat.eqb j a) eqn:Eja, (Nat.eqb i a) eqn:Eia; simpl; auto.
  apply Nat.eqb_eq in Eja, Eia. congruence.
Qed.

Lemma update_row_diagonal (ps : list VaR.Position) (m : matrix)
    (ip : nat * VaR.Position) :
  no_self_correlation ps ->
  In ip (enumerate ps) ->
  square (List.length ps) m /\ unit_diagonal (List.length ps) m ->
  square (List.length ps) (VaR.update_row ps m ip) /\
  unit_diagonal (List.length ps) (VaR.update_row ps m ip).
Proof.
  intros Hself Hip Hm. destruct ip as [i p_i].
  destruct (enumerate_In _ _ _ Hip) as [Hi Hnth_i].
  unfold VaR.update_row.
  destruct (VaR.correlation p_i) as [[| e corr] |] eqn:Hc; try assumption.
  apply (fold_invariant
           (fun m => square (List.length ps) m /\ unit_diagonal (List.length ps) m)
           (fun jp => In jp (enumerate ps))).
  - intros s [j p_j] Hjp [Hsq Hd].
    destruct (enumerate_In _ _ _ Hjp) as [Hj Hnth_j].
    unfold VaR.update_entry.
    destruct (dict_get String.eqb (VaR.id p_j) (e :: corr)) as [c |] eqn:Hg;
      [| now split].
    assert (Hne : i <> j).
    { intros ->. rewrite Hnth_i in Hnth_j. injection Hnth_j as <-.
      rewrite (Hself p_i (e :: corr)) in Hg; [discriminate | | assumption].
      eapply nth_error_In; eassumption. }
    split; [auto using square_mset | now apply diagonal_update].
  - apply Forall_forall. auto.
  - assumption.
Qed.

(** Where no position lists its own id, the diagonal stays at 1. *)
Lemma correlation_matrix_diagonal (ps : list VaR.Position) :
  no_self_correlation ps ->
  unit_diagonal (List.length ps) (VaR.correlation_matrix ps).
Proof.
  intros Hself. unfold VaR.correlation_matrix.
  apply (fold_invariant
           (fun m => square (List.length ps) m /\ unit_diagonal (List.length ps) m)
           (fun ip => In ip (enumerate ps))).
  - intros s a Ha Hs. now apply update_row_diagonal.
  - apply Forall_forall. auto.
  - split; [apply initial_correlation_square | apply initial_correlation_diagonal].
Qed.

(** A position whose correlation map holds an entry under its own id. *)
Definition self_correlated : VaR.Position :=
  {| VaR.id := "A";
     VaR.asset_class := VaR.EQUITY;
     VaR.ticker := "AAA";
     VaR.quantity := 1;
     VaR.price := 100;
     VaR.volatility := Some 0.2;
     VaR.correlation := Some [("A"%string, 0.5)] |}.

(** C10 at the failing input.  The update loop has no test for [i = j]:
    the entry that the position holds under its own id replaces the 1 that
    [np.fill_diagonal] had put on the diagonal. *)
Theorem self_correlation_overwrites_diagonal :
  VaR.correlation_matrix [self_correlated] = [[0.5]] /\
  mget (VaR.correlation_matrix [self_correlated]) 0 0 <> 1.
Proof.
  assert (H : VaR.correlation_matrix [self_correlated] = [[0.5]]) by reflexivity.
  split; [exact H |]. rewrite H. unfold mget. simpl. lra.
Qed.

(** ** Contributions of the parametric method (C1) *)

Lemma fold_left_sum {A : Type} (f : A -> R) (l : list A) (a : R) :
  fold_left (fun acc x => acc + f x) l a = a + sum (map f l).
Proof.
  revert a. induction l as [| x l IH]; intros a; simpl.
  - unfold sum. simpl. lra.
  - rewrite IH. unfold sum. simpl. lra.
Qed.

Lemma sum_cons (x : R) (l : list R) : sum (x :: l) = x + sum l.
Proof. reflexivity. Qed.

Lemma sum_nil : sum [] = 0.
Proof. reflexivity. Qed.

Arguments sum : simpl never.

Lemma sum_map_ext {A : Type} (f g : A -> R) (l : list A) :
  (forall x, In x l -> f x = g x) -> sum (map f l) = sum (map g l).
Proof.
  intros H. f_equal. apply map_ext_in. exact H.
Qed.

Lemma sum_map_mult_l {A : Type} (c : R) (f : A -> R) (l : list A) :
  sum (map (fun x => c * f x) l) = c * sum (map f l).
Proof.
  induction l as [| x l IH]; simpl.
  - unfold sum. simpl. lra.
  - rewrite !sum_cons, IH. lra.
Qed.

Lemma sum_map_plus {A : Type} (f g : A -> R) (l : list A) :
  sum (map (fun x => f x + g x) l) = sum (map f l) + sum (map g l).
Proof.
  induction l as [| x l IH]; simpl.
  - unfold sum. simpl. lra.
  - rewrite !sum_cons, IH. lra.
Qed.

Lemma sum_map_zero {A : Type} (l : list A) : sum (map (fun _ => 0) l) = 0.
Proof.
  induction l as [| x l IH]; simpl; [reflexivity |]. rewrite sum_cons, IH. lra.
Qed.

(** Exchanging two finite sums. *)
Lemma sum_swap {A B : Type} (F : A -> B -> R) (l1 : list A) (l2 : list B) :
  sum (map (fun i => sum (map (fun j => F i j) l2)) l1)
  = sum (map (fun j => sum (map (fun i => F i j) l1)) l2).
Proof.
  induction l1 as [| i l1 IH]; simpl.
  - rewrite sum_map_zero. reflexivity.
  - rewrite sum_cons, IH.
    rewrite <- sum_map_plus. apply sum_map_ext. intros j _. now rewrite sum_cons.
Qed.

Lemma dot_map_seq (f : nat -> R) (w : list R) (s : nat) :
  dot (map f (seq s (List.length w))) w
  = sum (map (fun j => f j * nth (j - s) w 0) (seq s (List.length w))).
Proof.
  unfold dot. revert s. induction w as [| x w IH]; intros s; [reflexivity |].
  cbn [List.length seq map combine]. rewrite !sum_cons, Nat.sub_diag.
  cbn [fst snd nth]. f_equal.
  rewrite IH. apply sum_map_ext. intros j Hj. apply in_seq in Hj.
  replace (j - s)%nat with (S (j - S s)) by lia. reflexivity.
Qed.

Lemma sum_combine_seq {A : Type} (g : nat -> R) (l : list A) (s : nat) :
  sum (map (fun ip => g (fst ip)) (combine (seq s (List.length l)) l))
  = sum (map g (seq s (List.length l))).
Proof.
  revert s. induction l as [| x l IH]; intros s; [reflexivity |].
  cbn [List.length seq map combine]. rewrite !sum_cons, IH. reflexivity.
Qed.

(** The sum that the [mcr] loop of position [i] accumulates. *)
Definition marginal (n : nat) (weights : list R) (vm : matrix) (i : nat) : R :=
  sum (map (fun j => nth j weights 0 * mget vm i j) (seq 0 n)).

Lemma parametric_contribution_value (n : nat) (weights : list R) (vm : matrix)
    (sq dvar : R) (ip : nat * VaR.Position) (c : VaR.AssetContribution) :
  VaR.parametric_contribution n weights vm sq dvar ip = Ok c ->
  sq <> 0 /\
  VaR.var_contribution c = nth (fst ip) weights 0 * (marginal n weights vm (fst ip) / sq) * dvar.
Proof.
  destruct ip as [i p]. unfold VaR.parametric_contribution. intros H.
  bind_inv H. bind_inv H. injection H as <-.
  apply fdiv_Ok_inv in Ha. destruct Ha as [Hsq ->].
  split; [assumption |]. cbn [VaR.make_contribution VaR.var_contribution fst].
  rewrite fold_left_sum. unfold marginal. do 3 f_equal. lra.
Qed.

Lemma weighted_marginals (n : nat) (weights : list R) (vm : matrix) :
  List.length weights = n ->
  sum (map (fun i => nth i weights 0 * marginal n weights vm i) (seq 0 n))
  = VaR.portfolio_variance_of n weights vm.
Proof.
  intros Hl. unfold VaR.portfolio_variance_of, vecmat, marginal.
  subst n. rewrite dot_map_seq.
  rewrite (sum_map_ext
             (fun i => nth i weights 0
                       * sum (map (fun j => nth j weights 0 * mget vm i j)
                                  (seq 0 (List.length weights))))
             (fun i => sum (map (fun j => nth i weights 0
                                          * (nth j weights 0 * mget vm i j))
                                (seq 0 (List.length weights)))))
    by (intros i _; now rewrite sum_map_mult_l).
  rewrite sum_swap. apply sum_map_ext. intros j _.
  rewrite Nat.sub_0_r, Rmult_comm, <- sum_map_mult_l.
  apply sum_map_ext. intros i _. lra.
Qed.

(** The component VaRs of the parametric method add up to the diversified
    VaR times the portfolio volatility [sqrt (w' C w)]: each marginal
    contribution is divided by that volatility once, where the Euler
    decomposition needs the variance. *)
Lemma parametric_contributions_sum (pf : VaR.Portfolio) (cl : VaR.ConfidenceLevel)
    (th : VaR.TimeHorizon) (dvar benefit : R) (cs : list VaR.AssetContribution) :
  VaR.calculate_parametric_var pf cl th = Ok (dvar, cs, benefit) ->
  exists weights : list R,
    VaR.weights_of pf = Ok weights /\
    sum (map VaR.var_contribution cs)
    = dvar * sqrt (VaR.portfolio_variance_of (List.length (VaR.positions pf)) weights
                     (VaR.variance_matrix (VaR.positions pf))).
Proof.
  unfold VaR.calculate_parametric_var. intros H.
  bind_inv_as H weights Ha. exists weights. split; [assumption |].
  bind_inv_as H sq Ha0. bind_inv_as H a1 Ha1. injection H as Hd <- _.
  apply py_sqrt_Ok_inv in Ha0. destruct Ha0 as [Hpv Hsq].
  set (n := List.length (VaR.positions pf)) in *.
  set (vm := VaR.variance_matrix (VaR.positions pf)) in *.
  set (pvar := VaR.portfolio_variance_of n weights vm) in *.
  assert (Hlen : List.length weights = n).
  { unfold VaR.weights_of in Ha. now apply mapM_Ok_length in Ha. }
  apply mapM_Ok_Forall2 in Ha1.
  destruct (Req_dec sq 0) as [Hsq0 | Hsq0].
  - assert (Hnil : a1 = []).
    { destruct Ha1 as [| ip c ? ? Hc _]; [reflexivity |].
      apply parametric_contribution_value in Hc. tauto. }
    rewrite Hnil, <- Hd, Hsq0. cbn [map]. rewrite sum_nil. field.
    apply Rgt_not_eq, sqrt_lt_R0. lra.
  - assert (Hcs : sum (map VaR.var_contribution a1)
                  = sum (map (fun ip => nth (fst ip) weights 0
                                        * (marginal n weights vm (fst ip) / sq) * dvar)
                             (enumerate (VaR.positions pf)))).
    { rewrite Hd in Ha1.
      induction Ha1 as [| ip c ips cs' Hc _ IH]; [reflexivity |].
      cbn [map]. rewrite !sum_cons, IH. f_equal.
      now apply parametric_contribution_value in Hc. }
    rewrite Hcs. unfold enumerate.
    rewrite (sum_combine_seq
               (fun i => nth i weights 0 * (marginal n weights vm i / sq) * dvar)).
    fold n.
    rewrite (sum_map_ext _ (fun i => dvar / sq * (nth i weights 0 * marginal n weights vm i)))
      by (intros i _; field; assumption).
    rewrite sum_map_mult_l, weighted_marginals by assumption.
    fold pvar. rewrite <- Hsq.
    assert (Hp2 : pvar = sq * sq) by (rewrite Hsq; symmetry; now apply sqrt_sqrt).
    rewrite Hp2. field. assumption.
Qed.

(** A portfolio of one position worth 100 with no volatility given, so the
    default 0.2 applies. *)
Definition single_default : VaR.Position :=
  {| VaR.id := "A";
     VaR.asset_class := VaR.EQUITY;
     VaR.ticker := "AAA";
     VaR.quantity := 1;
     VaR.price := 100;
     VaR.volatility := None;
     VaR.correlation := None |}.

Definition pf_single : VaR.Portfolio :=
  {| VaR.portfolio_id := "P"; VaR.positions := [single_default] |}.

Lemma sqrt_004 : sqrt 0.04 = 0.2.
Proof. replace 0.04 with (0.2 * 0.2) by lra. apply sqrt_square. lra. Qed.

Lemma sqrt_252_pos : 0 < sqrt 252.
Proof. apply sqrt_lt_R0. lra. Qed.

Lemma pf_single_value : VaR.calculate_portfolio_value pf_single = 100.
Proof. unfold VaR.calculate_portfolio_value, VaR.position_value, sum. cbn. lra. Qed.

Lemma pf_single_weights : VaR.weights_of pf_single = Ok [1].
Proof.
  unfold VaR.weights_of. rewrite pf_single_value. cbn [VaR.positions pf_single mapM].
  rewrite fdiv_Ok by lra. cbn [bind]. unfold VaR.position_value. cbn.
  do 2 f_equal. field.
Qed.

Lemma pf_single_variance_matrix :
  VaR.variance_matrix (VaR.positions pf_single) = [[0.04]].
Proof.
  unfold VaR.variance_matrix. cbn. unfold VaR.volatility_or. cbn.
  replace (0.2 * (0.2 * 1)) with (0.2 * 0.2) by lra.
  rewrite sqrt_square by lra. do 2 f_equal. lra.
Qed.

Lemma pf_single_variance : VaR.portfolio_variance_of 1 [1] [[0.04]] = 0.04.
Proof. unfold VaR.portfolio_variance_of, vecmat, dot, mget, sum. cbn. lra. Qed.

Lemma pf_single_parametric :
  VaR.calculate_parametric_var pf_single VaR.CL_95 VaR.ONE_DAY
  = Ok (100 * 0.2 * 1.645 * 1 / sqrt 252,
        [VaR.make_contribution single_default
           (0.2 * (100 * 0.2 * 1.645 * 1 / sqrt 252)) 20],
        0).
Proof.
  pose proof sqrt_252_pos as H252.
  unfold VaR.calculate_parametric_var.
  rewrite pf_single_weights, pf_single_value, pf_single_variance_matrix. cbn [bind].
  cbn [VaR.positions pf_single List.length]. rewrite pf_single_variance.
  rewrite py_sqrt_Ok by lra. rewrite sqrt_004. cbn [bind].
  cbn [enumerate List.length seq combine mapM VaR.parametric_contribution
       fold_left nth].
  unfold mget. cbn [nth]. rewrite fdiv_Ok by lra. cbn [bind].
  cbn [VaR.CONFIDENCE_LEVELS VaR.TIME_HORIZON_FACTORS].
  rewrite fdiv_Ok by (apply Rgt_not_eq, Rdiv_lt_0_compat; lra).
  cbn [bind map]. unfold VaR.position_var, VaR.position_value, VaR.volatility_or_default.
  cbn [VaR.quantity VaR.price VaR.volatility single_default].
  rewrite sum_cons, sum_nil.
  replace (1 * 100 * 0.2 * 1.645 * 1 / sqrt 252 + 0
           - 100 * 0.2 * 1.645 * 1 / sqrt 252) with 0 by (field; lra).
  set (x := 100 * 0.2 * 1.645 * 1 / sqrt 252).
  assert (Hx : 0 < x) by (apply Rdiv_lt_0_compat; lra).
  replace (1 * ((0 + 1 * 0.04) / 0.2)) with 0.2 by lra.
  assert (Hxx : 0.2 * x / x = 0.2)
    by (unfold Rdiv; rewrite Rmult_assoc, Rinv_r by lra; lra).
  rewrite Hxx. replace (0.2 * 100) with 20 by lra.
  reflexivity.
Qed.

(** C1 at the failing input.  For the one-position portfolio the
    parametric method returns the diversified VaR 32.9 / sqrt 252 together
    with a single contribution of one fifth of it (reported as 20%), so
    the contributions do not add up to the diversified VaR. *)
Theorem parametric_contributions_miss_var :
  exists (dvar benefit : R) (cs : list VaR.AssetContribution),
    VaR.calculate_parametric_var pf_single VaR.CL_95 VaR.ONE_DAY
    = Ok (dvar, cs, benefit) /\
    0 < dvar /\
    sum (map VaR.var_contribution cs) = 0.2 * dvar /\
    sum (map VaR.var_contribution cs) <> dvar /\
    map VaR.var_contribution_percentage cs = [20].
Proof.
  pose proof sqrt_252_pos as H252.
  do 3 eexists. split; [exact pf_single_parametric |].
  cbn [map VaR.make_contribution VaR.var_contribution VaR.var_contribution_percentage].
  rewrite sum_cons, sum_nil.
  assert (Hpos : 0 < 100 * 0.2 * 1.645 * 1 / sqrt 252)
    by (apply Rdiv_lt_0_compat; lra).
  repeat split; first [lra | reflexivity].
Qed.

(** ** The diversification-benefit percentage (C5) *)

(** The percentage line divides by [var + diversification_benefit]
    without looking at it. *)
Lemma diversification_percentage_unguarded (var benefit : R) :
  var + benefit = 0 ->
  VaR.diversification_benefit_percentage_of var benefit = Raise ZeroDivisionError.
Proof.
  intros H. unfold VaR.diversification_benefit_percentage_of.
  rewrite H, fdiv_zero. reflexivity.
Qed.

Lemma diversification_percentage_defined (var benefit : R) :
  var + benefit <> 0 ->
  VaR.diversification_benefit_percentage_of var benefit
  = Ok (benefit / (var + benefit) * 100).
Proof.
  intros H. unfold VaR.diversification_benefit_percentage_of.
  now rewrite fdiv_Ok.
Qed.

Definition valid_position (p : VaR.Position) : Prop :=
  0 < VaR.quantity p /\ 0 < VaR.price p /\
  match VaR.volatility p with Some v => 0 < v | None => True end.

Lemma position_var_pos (z tf : R) (p : VaR.Position) :
  0 < z -> 0 < tf -> valid_position p -> 0 < VaR.position_var z tf p.
Proof.
  intros Hz Htf (Hq & Hp & Hv). unfold VaR.position_var, VaR.position_value.
  assert (Hvol : 0 < VaR.volatility_or_default p).
  { unfold VaR.volatility_or_default. destruct (VaR.volatility p); lra. }
  apply Rdiv_lt_0_compat; [| apply sqrt_252_pos].
  repeat apply Rmult_lt_0_compat; assumption.
Qed.

Lemma CONFIDENCE_LEVELS_pos (cl : VaR.ConfidenceLevel) : 0 < VaR.CONFIDENCE_LEVELS cl.
Proof. destruct cl; simpl; lra. Qed.

Lemma TIME_HORIZON_FACTORS_pos (th : VaR.TimeHorizon) : 0 < VaR.TIME_HORIZON_FACTORS th.
Proof. destruct th; simpl; try lra; apply sqrt_lt_R0; lra. Qed.

(** On the parametric path the divisor is the undiversified VaR, which is
    positive for every non-empty portfolio of valid positions: there the
    division is defined although nothing checks it. *)
Lemma parametric_divisor_positive (pf : VaR.Portfolio) (cl : VaR.ConfidenceLevel)
    (th : VaR.TimeHorizon) (var benefit : R) (cs : list VaR.AssetContribution) :
  VaR.positions pf <> [] ->
  Forall valid_position (VaR.positions pf) ->
  VaR.calculate_parametric_var pf cl th = Ok (var, cs, benefit) ->
  0 < var + benefit.
Proof.
  intros Hne Hvalid H. unfold VaR.calculate_parametric_var in H.
  bind_inv_as H weights Hw. bind_inv_as H sq Hsq. bind_inv_as H cs' Hcs.
  injection H as <- _ <-.
  match goal with
  | |- 0 < ?v + (?u - ?v) => replace (v + (u - v)) with u by lra
  end.
  destruct (VaR.positions pf) as [| p ps]; [contradiction |].
  inversion Hvalid as [| ? ? Hp Hps]; subst.
  cbn [map]. rewrite sum_cons.
  pose proof (position_var_pos _ _ p (CONFIDENCE_LEVELS_pos cl)
                (TIME_HORIZON_FACTORS_pos th) Hp) as Hpos.
  assert (Hrest : 0 <= sum (map (VaR.position_var (VaR.CONFIDENCE_LEVELS cl)
                                   (VaR.TIME_HORIZON_FACTORS th)) ps)).
  { apply sum_nonneg. apply Forall_forall. intros x Hx. apply in_map_iff in Hx.
    destruct Hx as (q & <- & Hq). rewrite Forall_forall in Hps.
    apply Rlt_le, position_var_pos;
      auto using CONFIDENCE_LEVELS_pos, TIME_HORIZON_FACTORS_pos. }
  lra.
Qed.

Definition pf_empty : VaR.Portfolio :=
  {| VaR.portfolio_id := "P0"; VaR.positions := [] |}.

Definition input_empty : VaR.VaRInput :=
  {| VaR.portfolio := pf_empty;
     VaR.method := VaR.PARAMETRIC;
     VaR.time_horizon := VaR.ONE_DAY;
     VaR.confidence_level := VaR.CL_95;
     VaR.num_simulations := 10000;
     VaR.include_stress_scenarios := false |}.

Lemma pf_empty_parametric :
  VaR.calculate_parametric_var pf_empty VaR.CL_95 VaR.ONE_DAY = Ok (0, [], 0).
Proof.
  pose proof sqrt_252_pos as H252.
  unfold VaR.calculate_parametric_var, VaR.weights_of.
  cbn [VaR.positions pf_empty mapM bind map List.length enumerate seq combine].
  assert (Hv : VaR.portfolio_variance_of 0 [] (VaR.variance_matrix []) = 0) by reflexivity.
  rewrite Hv, py_sqrt_Ok by lra. cbn [bind]. rewrite sqrt_0.
  unfold VaR.calculate_portfolio_value. cbn [VaR.positions pf_empty map].
  rewrite sum_nil. f_equal. f_equal; [f_equal |]; field; lra.
Qed.

(** C5 at the failing input.  For an empty portfolio the parametric method
    returns a VaR of 0 with a diversification benefit of 0; the percentage
    line then divides 0 by 0, and the whole call has already failed on the
    division by the portfolio value one line above. *)
Theorem empty_portfolio_divides_by_zero (gauss : nat -> R) :
  VaR.calculate_parametric_var pf_empty VaR.CL_95 VaR.ONE_DAY = Ok (0, [], 0) /\
  VaR.diversification_benefit_percentage_of 0 0 = Raise ZeroDivisionError /\
  VaR.calculate_var gauss input_empty = Raise ZeroDivisionError.
Proof.
  split; [exact pf_empty_parametric |]. split.
  - apply diversification_percentage_unguarded. lra.
  - unfold VaR.calculate_var, VaR.var_by_method.
    cbn [VaR.method VaR.portfolio VaR.confidence_level VaR.time_horizon input_empty].
    rewrite pf_empty_parametric. cbn [bind].
    unfold VaR.var_percentage_of, VaR.calculate_portfolio_value.
    cbn [VaR.positions pf_empty map]. rewrite sum_nil, fdiv_zero. reflexivity.
Qed.

(** ** Numerical bounds for the pricing example (C9) *)

(** *** The exponential at a negative argument, as an alternating series *)

Definition exp_term (u : R) (i : nat) : R := u ^ i / INR (fact i).

Lemma exp_term_decreasing (u : R) : 0 <= u <= 1 -> Un_decreasing (exp_term u).
Proof.
  intros [H0 H1] n. unfold exp_term.
  assert (Hf : 0 < INR (fact n)) by apply INR_fact_lt_0.
  assert (Hp : 0 <= u ^ n) by now apply pow_le.
  rewrite fact_simpl, mult_INR. simpl pow.
  assert (HS : 1 <= INR (S n)).
  { rewrite S_INR. pose proof (pos_INR n). lra. }
  unfold Rdiv. rewrite Rinv_mult.
  assert (Hi : 0 < / INR (fact n)) by now apply Rinv_0_lt_compat.
  assert (HiS : 0 < / INR (S n) <= 1).
  { split; [apply Rinv_0_lt_compat; lra |].
    rewrite <- Rinv_1. apply Rinv_le_contravar; lra. }
  assert (Hprod : u * / INR (S n) <= 1) by nra.
  assert (Hq : 0 <= u ^ n * / INR (fact n)) by nra.
  replace (u * u ^ n * (/ INR (S n) * / INR (fact n)))
    with ((u * / INR (S n)) * (u ^ n * / INR (fact n))) by ring.
  nra.
Qed.

Lemma exp_neg_series (u : R) : Un_cv (sum_f_R0 (tg_alt (exp_term u))) (exp (- u)).
Proof.
  unfold exp. destruct (exist_exp (- u)) as (l, Hl). simpl.
  unfold exp_in, infinite_sum in Hl. intros eps Heps.
  destruct (Hl eps Heps) as (N & HN). exists N. intros n Hn.
  specialize (HN n Hn).
  replace (sum_f_R0 (tg_alt (exp_term u)) n)
    with (sum_f_R0 (fun i => / INR (fact i) * (- u) ^ i) n); [exact HN |].
  apply sum_eq. intros i _. unfold tg_alt, exp_term.
  replace (- u) with (-1 * u) by ring. rewrite Rpow_mult_distr. field.
  apply INR_fact_neq_0.
Qed.

Lemma exp_neg_bounds (u : R) (N : nat) :
  0 <= u <= 1 ->
  sum_f_R0 (tg_alt (exp_term u)) (S (2 * N)) <= exp (- u)
  <= sum_f_R0 (tg_alt (exp_term u)) (2 * N).
Proof.
  intros Hu. apply alternated_series_ineq.
  - now apply exp_term_decreasing.
  - unfold exp_term. apply cv_speed_pow_fact.
  - apply exp_neg_series.
Qed.

Lemma exp_neg_cubic (u : R) :
  0 <= u <= 1 ->
  1 - u + u ^ 2 / 2 - u ^ 3 / 6 <= exp (- u) <= 1 - u + u ^ 2 / 2.
Proof.
  intros Hu. pose proof (exp_neg_bounds u 1 Hu) as [Hlo Hhi].
  unfold sum_f_R0, tg_alt, exp_term in Hlo, Hhi. simpl in Hlo, Hhi.
  replace (1 + 1 + 1 + 1 + 1 + 1) with 6 in Hlo by ring.
  simpl pow. split; nra.
Qed.

Lemma exp_discount_bounds : 0.951229 < exp (- (0.05)) < 0.95123.
Proof.
  assert (Hu : 0 <= 0.05 <= 1) by lra.
  pose proof (exp_neg_bounds 0.05 2 Hu) as [Hlo Hhi].
  unfold sum_f_R0, tg_alt, exp_term in Hlo, Hhi. simpl in Hlo, Hhi.
  split; lra.
Qed.

(** *** The normalising constant *)

Lemma PI_bounds : 3.14159 < PI < 3.1416.
Proof.
  pose proof (PI_2_3_7_ineq 3) as [Hlo Hhi].
  unfold sum_f_R0, tg_alt, PI_2_3_7_tg, Ratan_seq in Hlo, Hhi.
  simpl in Hlo, Hhi.
  split; lra.
Qed.

Lemma sqrt_two_PI_bounds : 2.50662 < sqrt (2 * PI) < 2.50664.
Proof.
  pose proof PI_bounds as [Hlo Hhi].
  pose proof Normal.sqrt_two_PI_pos as Hpos.
  assert (Hsq : sqrt (2 * PI) * sqrt (2 * PI) = 2 * PI)
    by (apply sqrt_sqrt; lra).
  split; nra.
Qed.

Lemma inv_sqrt_two_PI_bounds : 0.39894 < / sqrt (2 * PI) < 0.398944.
Proof.
  pose proof sqrt_two_PI_bounds as [Hlo Hhi].
  assert (Hinv : sqrt (2 * PI) * / sqrt (2 * PI) = 1) by (apply Rinv_r; lra).
  assert (Hpos : 0 < / sqrt (2 * PI)) by (apply Rinv_0_lt_compat; lra).
  split; nra.
Qed.

(** *** Integrals through an antiderivative *)

Lemma lim_monomial (a : R) (n : nat) (t : R) :
  derivable_pt_lim (fun t => a * t ^ n) t (a * (INR n * t ^ pred n)).
Proof.
  apply (derivable_pt_lim_scal (fun t => t ^ n) a t), derivable_pt_lim_pow.
Qed.

Lemma lim_plus (f1 f2 : R -> R) (l1 l2 t : R) :
  derivable_pt_lim f1 t l1 -> derivable_pt_lim f2 t l2 ->
  derivable_pt_lim (fun t => f1 t + f2 t) t (l1 + l2).
Proof. apply derivable_pt_lim_plus. Qed.

Section Antiderivative.

Variables (G g h : R -> R).
Hypothesis G_lim : forall t, derivable_pt_lim G t (g t).
Hypothesis g_cont : continuity g.

Definition antiderivative_C1 : C1_fun :=
  mkC1 (c1 := G) (diff0 := fun t => exist _ (g t) (G_lim t)) g_cont.

Lemma antiderivative_integrable (a b : R) :
  a <= b -> Riemann_integrable (derive antiderivative_C1 (diff0 antiderivative_C1)) a b.
Proof.
  intros Hab. apply continuity_implies_RiemannInt; [assumption |].
  intros x _. apply (cont1 antiderivative_C1).
Qed.

Lemma integral_ge (a b : R) (pr : Riemann_integrable h a b) :
  a <= b -> (forall t, a < t < b -> g t <= h t) -> G b - G a <= RiemannInt pr.
Proof.
  intros Hab Hle.
  pose (prg := antiderivative_integrable a b Hab).
  rewrite <- (FTC_Riemann antiderivative_C1 prg : RiemannInt prg = G b - G a).
  apply RiemannInt_P19; [assumption |]. exact Hle.
Qed.

Lemma integral_le (a b : R) (pr : Riemann_integrable h a b) :
  a <= b -> (forall t, a < t < b -> h t <= g t) -> RiemannInt pr <= G b - G a.
Proof.
  intros Hab Hle.
  pose (prg := antiderivative_integrable a b Hab).
  rewrite <- (FTC_Riemann antiderivative_C1 prg : RiemannInt prg = G b - G a).
  apply RiemannInt_P19; [assumption |]. exact Hle.
Qed.

End Antiderivative.

(** *** Polynomial bounds on the density and their antiderivatives *)

Definition density_lo (c t : R) : R := c * (1 - t ^ 2 / 2 + t ^ 4 / 8 - t ^ 6 / 48).
Definition density_hi (c t : R) : R := c * (1 - t ^ 2 / 2 + t ^ 4 / 8).

Definition primitive_lo (c t : R) : R :=
  c * t ^ 1 + (- c / 6) * t ^ 3 + (c / 40) * t ^ 5 + (- c / 336) * t ^ 7.
Definition primitive_hi (c t : R) : R :=
  c * t ^ 1 + (- c / 6) * t ^ 3 + (c / 40) * t ^ 5.

Lemma primitive_lo_lim (c t : R) :
  derivable_pt_lim (primitive_lo c) t (density_lo c t).
Proof.
  unfold primitive_lo.
  replace (density_lo c t) with
    (c * (INR 1 * t ^ pred 1) + (- c / 6) * (INR 3 * t ^ pred 3)
     + (c / 40) * (INR 5 * t ^ pred 5) + (- c / 336) * (INR 7 * t ^ pred 7)).
  - repeat apply lim_plus; apply lim_monomial.
  - unfold density_lo. simpl. field.
Qed.

Lemma primitive_hi_lim (c t : R) :
  derivable_pt_lim (primitive_hi c) t (density_hi c t).
Proof.
  unfold primitive_hi.
  replace (density_hi c t) with
    (c * (INR 1 * t ^ pred 1) + (- c / 6) * (INR 3 * t ^ pred 3)
     + (c / 40) * (INR 5 * t ^ pred 5)).
  - repeat apply lim_plus; apply lim_monomial.
  - unfold density_hi. simpl. field.
Qed.

Lemma density_lo_continuity (c : R) : continuity (density_lo c).
Proof.
  intros t. apply derivable_continuous_pt.
  unfold density_lo. reg.
Qed.

Lemma density_hi_continuity (c : R) : continuity (density_hi c).
Proof.
  intros t. apply derivable_continuous_pt.
  unfold density_hi. reg.
Qed.

Lemma pdf_between (t : R) :
  0 <= t <= 1 ->
  density_lo (/ sqrt (2 * PI)) t <= Normal.pdf t <= density_hi (/ sqrt (2 * PI)) t.
Proof.
  intros Ht.
  assert (Hu : 0 <= t * t / 2 <= 1) by nra.
  pose proof (exp_neg_cubic (t * t / 2) Hu) as [Hlo Hhi].
  pose proof inv_sqrt_two_PI_bounds as [Hc _].
  assert (Hpdf : Normal.pdf t = / sqrt (2 * PI) * exp (- (t * t / 2))).
  { unfold Normal.pdf. replace (- (t * t) / 2) with (- (t * t / 2)) by lra.
    unfold Rdiv. ring. }
  rewrite Hpdf. unfold density_lo, density_hi.
  set (c := / sqrt (2 * PI)) in *. set (e := exp (- (t * t / 2))) in *.
  simpl pow in *.
  split; (apply Rmult_le_compat_l; [lra | nra]).
Qed.

Lemma cdf_between (x : R) :
  0 <= x <= 1 ->
  1 / 2 + primitive_lo (/ sqrt (2 * PI)) x <= Normal.cdf x
  <= 1 / 2 + primitive_hi (/ sqrt (2 * PI)) x.
Proof.
  intros Hx. unfold Normal.cdf. set (c := / sqrt (2 * PI)).
  assert (H0lo : primitive_lo c 0 = 0) by (unfold primitive_lo; simpl; ring).
  assert (H0hi : primitive_hi c 0 = 0) by (unfold primitive_hi; simpl; ring).
  split; apply Rplus_le_compat_l.
  - replace (primitive_lo c x) with (primitive_lo c x - primitive_lo c 0)
      by (rewrite H0lo; ring).
    apply (integral_ge (primitive_lo c) (density_lo c) Normal.pdf
             (primitive_lo_lim c) (density_lo_continuity c)); [lra |].
    intros t Ht. apply pdf_between. lra.
  - replace (primitive_hi c x) with (primitive_hi c x - primitive_hi c 0)
      by (rewrite H0hi; ring).
    apply (integral_le (primitive_hi c) (density_hi c) Normal.pdf
             (primitive_hi_lim c) (density_hi_continuity c)); [lra |].
    intros t Ht. apply pdf_between. lra.
Qed.

Lemma cdf_035_bounds : 0.63682 < Normal.cdf 0.35 < 0.63684.
Proof.
  assert (Hx : 0 <= 0.35 <= 1) by lra.
  pose proof (cdf_between 0.35 Hx) as [Hlo Hhi].
  pose proof inv_sqrt_two_PI_bounds as [Hc1 Hc2].
  unfold primitive_lo, primitive_hi in Hlo, Hhi.
  set (c := / sqrt (2 * PI)) in *. simpl pow in Hlo, Hhi.
  split; lra.
Qed.

Lemma cdf_015_bounds : 0.55961 < Normal.cdf 0.15 < 0.55962.
Proof.
  assert (Hx : 0 <= 0.15 <= 1) by lra.
  pose proof (cdf_between 0.15 Hx) as [Hlo Hhi].
  pose proof inv_sqrt_two_PI_bounds as [Hc1 Hc2].
  unfold primitive_lo, primitive_hi in Hlo, Hhi.
  set (c := / sqrt (2 * PI)) in *. simpl pow in Hlo, Hhi.
  split; lra.
Qed.

(** C9.  On the at-the-money call (S = K = 100, T = 1, sigma = 0.20,
    r = 0.05) the pricer returns; [d1] is 0.35; the price is
    S Phi(d1) - K exp(-rT) Phi(d2) and the delta Phi(d1); the price is
    within 0.005 of 10.45 and the delta within 0.0005 of 0.637. *)
Theorem black_scholes_example :
  exists price delta gamma : R,
    SACCR.calculate_black_scholes SACCR.CALL 100 100 1 0.2 0.05
    = Ok (price, delta, gamma) /\
    let d1 := (ln (100 / 100) + (0.05 + 0.2 ^ 2 / 2) * 1) / (0.2 * sqrt 1) in
    let d2 := d1 - 0.2 * sqrt 1 in
    d1 = 0.35 /\
    price = 100 * Normal.cdf d1 - 100 * exp (- (0.05) * 1) * Normal.cdf d2 /\
    delta = Normal.cdf d1 /\
    Rabs (price - 10.45) < 0.005 /\
    Rabs (delta - 0.637) < 0.0005.
Proof.
  pose proof (black_scholes_returns SACCR.CALL 100 100 1 0.2 0.05) as H.
  cbv zeta in H. rewrite d1_atm in H.
  do 3 eexists. split; [apply H; lra |]. cbv zeta.
  assert (Hd1 : (ln (100 / 100) + (0.05 + 0.2 ^ 2 / 2) * 1) / (0.2 * sqrt 1) = 0.35).
  { replace (100 / 100) with 1 by lra. rewrite ln_1, sqrt_1. lra. }
  rewrite Hd1, sqrt_1.
  replace (0.35 - 0.2 * 1) with 0.15 by lra.
  replace (- (0.05) * 1) with (- (0.05)) by lra.
  pose proof cdf_035_bounds as [Ha1 Ha2].
  pose proof cdf_015_bounds as [Hb1 Hb2].
  pose proof exp_discount_bounds as [He1 He2].
  repeat split; try reflexivity.
  - apply Rabs_def1; nra.
  - apply Rabs_def1; lra.
Qed.

(** ** Simulated series *)

Lemma np_sort_sorted (l : list R) : Sorted Rle l -> VaR.np_sort l = l.
Proof.
  induction 1 as [| a l Hs IH Hd]; [reflexivity |].
  unfold VaR.np_sort in *. cbn [fold_right]. rewrite IH.
  destruct Hd as [| b l' Hab]; [reflexivity |].
  cbn [VaR.insert_sorted]. destruct (Rle_dec a b); [reflexivity | contradiction].
Qed.

Lemma sorted_map_seq (h : nat -> R) (s n : nat) :
  (forall i, h i <= h (S i)) -> Sorted Rle (map h (seq s n)).
Proof.
  intros Hstep. revert s. induction n as [| n IH]; intros s; cbn [seq map].
  - constructor.
  - constructor; [apply IH |].
    destruct n; cbn [seq map]; constructor. apply Hstep.
Qed.

Lemma nth_error_map_seq (h : nat -> R) (s n i : nat) :
  (i < n)%nat -> nth_error (map h (seq s n)) i = Some (h (s + i)%nat).
Proof.
  revert s i. induction n as [| n IH]; intros s i Hi; [lia |].
  destruct i as [| i]; cbn [seq map nth_error].
  - now rewrite Nat.add_0_r.
  - rewrite IH by lia. f_equal. f_equal. lia.
Qed.

Lemma In_map_seq (h : nat -> R) (n i : nat) :
  (i < n)%nat -> In (h i) (map h (seq 0 n)).
Proof. intros Hi. apply in_map, in_seq. lia. Qed.

(** A series that takes two different values. *)
Definition non_constant (l : list R) : Prop :=
  exists x y, In x l /\ In y l /\ x <> y.

Lemma dot_self (l : list R) : dot l l = sum (map (fun x => x * x) l).
Proof.
  unfold dot. induction l as [| x l IH]; [reflexivity |].
  cbn [combine map fst snd]. rewrite !sum_cons, IH. reflexivity.
Qed.

Lemma sum_squares_nonneg (l : list R) : 0 <= sum (map (fun x => x * x) l).
Proof.
  apply sum_nonneg, Forall_forall. intros y Hy. apply in_map_iff in Hy.
  destruct Hy as (x & <- & _). nra.
Qed.

Lemma sum_squares_pos (l : list R) (x : R) :
  In x l -> x <> 0 -> 0 < sum (map (fun x => x * x) l).
Proof.
  induction l as [| y l IH]; [contradiction |].
  intros [-> | Hin] Hx; cbn [map]; rewrite sum_cons.
  - pose proof (sum_squares_nonneg l). nra.
  - specialize (IH Hin Hx). nra.
Qed.

Lemma spread_pos (l : list R) (m : R) :
  non_constant l -> 0 < dot (VaR.centered l m) (VaR.centered l m).
Proof.
  intros (x & y & Hx & Hy & Hne). rewrite dot_self. unfold VaR.centered.
  destruct (Req_dec (x - m) 0) as [Hxm | Hxm].
  - apply (sum_squares_pos _ (y - m));
      [exact (in_map (fun z => z - m) l y Hy) | lra].
  - apply (sum_squares_pos _ (x - m));
      [exact (in_map (fun z => z - m) l x Hx) | assumption].
Qed.

Lemma INR_length_ge_2 {A : Type} (l : list A) :
  (2 <= List.length l)%nat -> 2 <= INR (List.length l).
Proof. intros H. apply le_INR in H. simpl in H. lra. Qed.

Lemma np_mean_returns (l : list R) :
  (2 <= List.length l)%nat -> VaR.np_mean l = Ok (sum l / INR (List.length l)).
Proof.
  intros H. unfold VaR.np_mean. apply fdiv_Ok.
  pose proof (INR_length_ge_2 l H). lra.
Qed.

Lemma np_cov_returns (x y : list R) :
  (2 <= List.length x)%nat -> List.length y = List.length x ->
  VaR.np_cov x y
  = Ok (dot (VaR.centered x (sum x / INR (List.length x)))
            (VaR.centered y (sum y / INR (List.length y)))
        / (INR (List.length x) - 1)).
Proof.
  intros Hx Hy. unfold VaR.np_cov.
  rewrite (np_mean_returns x Hx), (np_mean_returns y) by lia. cbn [bind].
  apply fdiv_Ok. pose proof (INR_length_ge_2 x Hx). lra.
Qed.

Lemma np_cov_self_pos (x : list R) :
  (2 <= List.length x)%nat -> non_constant x ->
  exists c, VaR.np_cov x x = Ok c /\ 0 < c.
Proof.
  intros Hx Hnc. rewrite np_cov_returns by auto. eexists. split; [reflexivity |].
  pose proof (INR_length_ge_2 x Hx).
  apply Rdiv_lt_0_compat; [now apply spread_pos | lra].
Qed.

Lemma np_std_pos (x : list R) :
  (2 <= List.length x)%nat -> non_constant x ->
  exists s, VaR.np_std x = Ok s /\ 0 < s.
Proof.
  intros Hx Hnc. unfold VaR.np_std.
  rewrite (np_mean_returns x Hx). cbn [bind].
  set (m := sum x / INR (List.length x)).
  assert (Hl : List.length (map (fun d => d * d) (VaR.centered x m)) = List.length x)
    by (unfold VaR.centered; now rewrite !length_map).
  rewrite np_mean_returns by lia. cbn [bind]. rewrite Hl.
  eexists. split; [reflexivity |].
  apply sqrt_lt_R0. pose proof (INR_length_ge_2 x Hx).
  apply Rdiv_lt_0_compat; [| lra].
  rewrite <- dot_self. now apply spread_pos.
Qed.

(** The contribution of a position is defined whenever both series vary
    and neither the portfolio value nor the VaR is zero. *)
Lemma simulated_contribution_returns (pv var : R) (P A : list R) (p : VaR.Position) :
  (2 <= List.length A)%nat -> List.length P = List.length A ->
  non_constant A -> non_constant P -> pv <> 0 -> var <> 0 ->
  exists c, VaR.simulated_contribution pv var P p A = Ok c.
Proof.
  intros Hlen HP HA HncP Hpv Hvar. unfold VaR.simulated_contribution, VaR.np_corrcoef.
  rewrite (np_cov_returns A P) by auto. cbn [bind].
  destruct (np_cov_self_pos A Hlen HA) as (cxx & -> & Hcxx).
  destruct (np_cov_self_pos P) as (cyy & -> & Hcyy); [lia | assumption |].
  cbn [bind].
  assert (Hsx : 0 < sqrt cxx) by now apply sqrt_lt_R0.
  assert (Hsy : 0 < sqrt cyy) by now apply sqrt_lt_R0.
  rewrite fdiv_Ok by lra. cbn [bind]. rewrite fdiv_Ok by lra. cbn [bind].
  destruct (np_std_pos A Hlen HA) as (sa & -> & Hsa).
  destruct (np_std_pos P) as (sp & -> & Hsp); [lia | assumption |].
  cbn [bind].
  rewrite fdiv_Ok by lra. cbn [bind]. rewrite fdiv_Ok by assumption. cbn [bind].
  rewrite fdiv_Ok by assumption. cbn [bind]. eexists. reflexivity.
Qed.

(** ** Monte Carlo on a single position *)

Lemma single_correlation_matrix (p : VaR.Position) :
  VaR.correlation p = None -> VaR.correlation_matrix [p] = [[1]].
Proof.
  intros H. unfold VaR.correlation_matrix.
  cbn [enumerate List.length seq combine fold_left VaR.update_row].
  rewrite H. reflexivity.
Qed.

Lemma cholesky_unit : VaR.cholesky [[1]] = Ok [[1]].
Proof.
  unfold VaR.cholesky.
  cbn [List.length VaR.cholesky_rows]. unfold VaR.cholesky_row.
  cbn [List.length VaR.cholesky_prefix nth].
  unfold dot. cbn [combine map]. rewrite sum_nil.
  destruct (Rle_dec (1 - 0) 0) as [H | _]; [lra |].
  cbn [bind app Nat.sub repeat VaR.cholesky_rows].
  replace (1 - 0) with 1 by lra. now rewrite sqrt_1.
Qed.

Lemma simulate_single (gauss : nat -> R) (dv : R) (i : nat) :
  VaR.simulate gauss 1 [[1]] [dv] i = [gauss i * dv].
Proof.
  unfold VaR.simulate, VaR.normal, matvec, dot.
  cbn [seq map combine fst snd]. rewrite !sum_cons, sum_nil.
  rewrite Nat.mul_1_r, Nat.add_0_r. f_equal. ring.
Qed.

Lemma quantile_of_monotone (h : nat -> R) (n idx : nat) :
  (forall i, h i <= h (S i)) -> (idx < n)%nat ->
  VaR.quantile_loss (map h (seq 0 n)) idx = Ok (- h idx).
Proof.
  intros Hstep Hidx. unfold VaR.quantile_loss, VaR.index.
  rewrite np_sort_sorted by now apply sorted_map_seq.
  rewrite nth_error_map_seq by assumption. reflexivity.
Qed.

Lemma non_constant_map_seq (h : nat -> R) (n : nat) :
  (2 <= n)%nat -> h 0%nat <> h (n - 1)%nat -> non_constant (map h (seq 0 n)).
Proof.
  intros Hn Hne. exists (h 0%nat), (h (n - 1)%nat).
  repeat split; [apply In_map_seq; lia | apply In_map_seq; lia | assumption].
Qed.

Lemma mc_single_position (gauss : nat -> R) (pid : string) (p : VaR.Position)
    (cl : VaR.ConfidenceLevel) (th : VaR.TimeHorizon) (N : nat) :
  VaR.correlation p = None ->
  0 < VaR.position_value p -> 0 < VaR.volatility_or_default p ->
  (forall i, gauss i <= gauss (S i)) ->
  (2 <= N)%nat -> (VaR.var_index N cl < N)%nat ->
  gauss 0%nat <> gauss (N - 1)%nat ->
  gauss (VaR.var_index N cl) <> 0 ->
  exists cs b,
    VaR.calculate_monte_carlo_var gauss
      {| VaR.portfolio_id := pid; VaR.positions := [p] |} cl th N
    = Ok (VaR.position_value p * (- gauss (VaR.var_index N cl))
          * (VaR.volatility_or_default p / sqrt 252) * VaR.TIME_HORIZON_FACTORS th,
          cs, b).
Proof.
  intros Hc Hval Hvol Hmono HN Hidx Hends Hq.
  pose proof sqrt_252_pos as H252.
  pose proof (TIME_HORIZON_FACTORS_pos th) as Htf.
  set (dv := VaR.volatility_or_default p / sqrt 252).
  assert (Hdv : 0 < dv) by (apply Rdiv_lt_0_compat; assumption).
  set (v := VaR.position_value p) in *.
  unfold VaR.calculate_monte_carlo_var.
  cbn [VaR.positions List.length map].
  rewrite (single_correlation_matrix p Hc), cholesky_unit. cbn [bind].
  fold dv.
  rewrite (map_ext _ (fun i => [gauss i * dv]) (simulate_single gauss dv)).
  assert (Hpv : VaR.calculate_portfolio_value
                  {| VaR.portfolio_id := pid; VaR.positions := [p] |} = v).
  { unfold VaR.calculate_portfolio_value. cbn [VaR.positions map].
    rewrite sum_cons, sum_nil. fold v. lra. }
  rewrite Hpv.
  set (idx := VaR.var_index N cl) in *.
  set (hP := fun i : nat => 0 + v / v * (gauss i * dv)).
  set (hA := fun i : nat => gauss i * dv).
  assert (HhA : forall i, hA i <= hA (S i)).
  { intros i. unfold hA. apply Rmult_le_compat_r; [lra | apply Hmono]. }
  assert (HhP : forall i, hP i <= hP (S i)).
  { intros i. unfold hP. replace (v / v) with 1 by (field; lra).
    specialize (HhA i). unfold hA in HhA. lra. }
  replace (v * - gauss idx * dv * VaR.TIME_HORIZON_FACTORS th)
    with (v * - hP idx * VaR.TIME_HORIZON_FACTORS th)
    by (unfold hP; field; lra).
  rewrite (mapM_total _ (fun s => 0 + v / v * nth 0 s 0)).
  2:{ intros s Hs. apply in_map_iff in Hs. destruct Hs as (i & <- & _).
      cbn [enumerate List.length seq combine VaR.weighted_return]. fold v.
      rewrite fdiv_Ok by lra. cbn [bind]. unfold VaR.index.
      cbn [nth_error bind nth]. reflexivity. }
  cbn [bind]. rewrite map_map. cbn [nth]. fold hP.
  rewrite (quantile_of_monotone hP N idx HhP Hidx). cbn [bind].
  cbn [enumerate List.length seq combine mapM fst snd].
  unfold VaR.asset_series. rewrite map_map. cbn [nth]. fold hA.
  rewrite (quantile_of_monotone hA N idx HhA Hidx). cbn [bind].
  assert (HncA : non_constant (map hA (seq 0 N))).
  { apply non_constant_map_seq; [assumption |]. unfold hA. nra. }
  assert (HncP : non_constant (map hP (seq 0 N))).
  { apply non_constant_map_seq; [assumption |]. unfold hP.
    replace (v / v) with 1 by (field; lra). nra. }
  destruct (simulated_contribution_returns v (v * - hP idx * VaR.TIME_HORIZON_FACTORS th)
              (map hP (seq 0 N)) (map hA (seq 0 N)) p) as (c & Hcontr).
  - now rewrite length_map, length_seq.
  - now rewrite !length_map, !length_seq.
  - assumption.
  - assumption.
  - lra.
  - assert (HhPq : hP idx <> 0).
    { unfold hP. replace (v / v) with 1 by (field; lra). nra. }
    apply Rmult_integral_contrapositive_currified; [| lra].
    apply Rmult_integral_contrapositive_currified; lra.
  - rewrite Hcontr. cbn [bind]. do 2 eexists. reflexivity.
Qed.

(** ** Stress scenarios (C7) *)

(** A stream of draws sorted in ascending order: 2500 times -1, then 1. *)
Definition sorted_draws (k : nat) : R := if Nat.ltb k 2500 then -1 else 1.

Lemma sorted_draws_step (i : nat) : sorted_draws i <= sorted_draws (S i).
Proof.
  unfold sorted_draws.
  destruct (Nat.ltb_spec i 2500), (Nat.ltb_spec (S i) 2500); try lra. lia.
Qed.

Lemma var_index_5000 (cl : VaR.ConfidenceLevel) :
  (VaR.var_index 5000 cl < 5000)%nat /\ sorted_draws (VaR.var_index 5000 cl) = -1.
Proof.
  assert (H : Nat.ltb (VaR.var_index 5000 cl) 2500 = true)
    by (destruct cl; vm_compute; reflexivity).
  split.
  - apply Nat.ltb_lt. destruct cl; vm_compute; reflexivity.
  - unfold sorted_draws. now rewrite H.
Qed.

Lemma sorted_draws_ends : sorted_draws 0 <> sorted_draws (5000 - 1).
Proof.
  assert (H0 : sorted_draws 0 = -1) by reflexivity.
  assert (H1 : sorted_draws (5000 - 1) = 1).
  { unfold sorted_draws.
    replace (Nat.ltb (5000 - 1) 2500) with false by (vm_compute; reflexivity).
    reflexivity. }
  rewrite H0, H1. lra.
Qed.

Lemma two_le_5000 : (2 <= 5000)%nat.
Proof. apply Nat.leb_le. vm_compute. reflexivity. Qed.

Lemma stress_position_uncorrelated (sc : VaR.Scenario) (p : VaR.Position) :
  VaR.correlation p = None -> VaR.correlation (VaR.stress_position sc p) = None.
Proof. intros H. unfold VaR.stress_position. cbn. now rewrite H. Qed.

Lemma stress_scenario_single (pid : string) (p : VaR.Position)
    (cl : VaR.ConfidenceLevel) (th : VaR.TimeHorizon) (base : R) (sc : VaR.Scenario) :
  VaR.correlation p = None ->
  0 < VaR.position_value p ->
  0 < VaR.volatility_or_default (VaR.stress_position sc p) ->
  base <> 0 ->
  exists r,
    VaR.stress_scenario sorted_draws
      {| VaR.portfolio_id := pid; VaR.positions := [p] |} cl th base sc = Ok (Some r) /\
    VaR.name r = VaR.scenario_name sc /\
    VaR.stressed_var r
    = VaR.position_value p
      * (VaR.volatility_or_default (VaR.stress_position sc p) / sqrt 252)
      * VaR.TIME_HORIZON_FACTORS th.
Proof.
  intros Hc Hv Hvol Hb.
  destruct (var_index_5000 cl) as [Hidx Hq].
  destruct (mc_single_position sorted_draws pid (VaR.stress_position sc p) cl th 5000)
    as (cs & b & Hmc).
  - now apply stress_position_uncorrelated.
  - exact Hv.
  - exact Hvol.
  - exact sorted_draws_step.
  - exact two_le_5000.
  - exact Hidx.
  - exact sorted_draws_ends.
  - rewrite Hq. lra.
  - unfold VaR.stress_scenario, VaR.stressed_portfolio.
    cbn [VaR.positions VaR.portfolio_id map].
    rewrite Hmc. cbn [bind]. rewrite fdiv_Ok by assumption. cbn [bind].
    eexists. split; [reflexivity |]. split; [reflexivity |].
    cbn [VaR.stressed_var]. rewrite Hq.
    replace (VaR.position_value (VaR.stress_position sc p)) with (VaR.position_value p)
      by reflexivity.
    ring.
Qed.

(** The statement of the specification: every position's volatility, the
    default included, is multiplied by the scenario factors. *)
Definition spec_stress_position (sc : VaR.Scenario) (p : VaR.Position) : VaR.Position :=
  {| VaR.id := VaR.id p;
     VaR.asset_class := VaR.asset_class p;
     VaR.ticker := VaR.ticker p;
     VaR.quantity := VaR.quantity p;
     VaR.price := VaR.price p;
     VaR.volatility :=
       Some (VaR.volatility_or_default p * VaR.volatility_multiplier sc
             * VaR.asset_class_multiplier sc p);
     VaR.correlation := VaR.correlation (VaR.stress_position sc p) |}.

Definition spec_stressed_portfolio (sc : VaR.Scenario) (pf : VaR.Portfolio)
    : VaR.Portfolio :=
  {| VaR.portfolio_id := VaR.portfolio_id pf;
     VaR.positions := map (spec_stress_position sc) (VaR.positions pf) |}.

Lemma keep_some_cons {A : Type} (a : A) (l : list (option A)) :
  VaR.keep_some (Some a :: l) = a :: VaR.keep_some l.
Proof. reflexivity. Qed.

Lemma stress_scenario_inv (gauss : nat -> R) (pf : VaR.Portfolio)
    (cl : VaR.ConfidenceLevel) (th : VaR.TimeHorizon) (base : R)
    (sc : VaR.Scenario) (o : option VaR.StressScenario) :
  VaR.positions pf <> [] ->
  VaR.stress_scenario gauss pf cl th base sc = Ok o ->
  exists r cs b,
    o = Some r /\
    VaR.calculate_monte_carlo_var gauss (VaR.stressed_portfolio sc pf) cl th 5000
    = Ok (VaR.stressed_var r, cs, b) /\
    VaR.var_increase r = VaR.stressed_var r - base /\
    VaR.name r = VaR.scenario_name sc.
Proof.
  intros Hne H. unfold VaR.stress_scenario in H.
  destruct (VaR.positions (VaR.stressed_portfolio sc pf)) as [| q qs] eqn:Hq.
  - unfold VaR.stressed_portfolio in Hq. cbn [VaR.positions] in Hq.
    apply map_eq_nil in Hq. contradiction.
  - bind_inv_as H r Hmc. destruct r as [[sv cs] b]. bind_inv_as H pct Hpct.
    injection H as <-. eexists. exists cs, b.
    split; [reflexivity |]. repeat split. exact Hmc.
Qed.

(** C7, as the code has it.  For a non-empty portfolio every scenario
    yields one result: the Monte Carlo VaR, on 5,000 simulations, of the
    portfolio in which each volatility that is given is multiplied by the
    scenario factor and the factor of the asset class, a position without a
    volatility keeps none (so the simulation uses the unstressed default
    0.2 for it), and every supplied correlation is raised by the scenario
    increment and capped at 1; the increase is the stressed VaR minus the
    base VaR. *)
Theorem stress_scenarios_rule (gauss : nat -> R) (pf : VaR.Portfolio)
    (cl : VaR.ConfidenceLevel) (th : VaR.TimeHorizon) (base : R)
    (rs : list VaR.StressScenario) :
  VaR.positions pf <> [] ->
  VaR.calculate_stress_scenarios gauss pf cl th base = Ok rs ->
  Forall2
    (fun sc r =>
       exists cs b,
         VaR.calculate_monte_carlo_var gauss (VaR.stressed_portfolio sc pf) cl th 5000
         = Ok (VaR.stressed_var r, cs, b) /\
         VaR.var_increase r = VaR.stressed_var r - base /\
         VaR.name r = VaR.scenario_name sc)
    VaR.STRESS_SCENARIOS rs /\
  forall (sc : VaR.Scenario) (p : VaR.Position),
    VaR.volatility (VaR.stress_position sc p)
    = match VaR.volatility p with
      | Some v =>
          Some (v * VaR.volatility_multiplier sc * VaR.asset_class_multiplier sc p)
      | None => None
      end /\
    VaR.correlation (VaR.stress_position sc p)
    = match VaR.correlation p with
      | Some (e :: corr) =>
          Some (map (fun kv => (fst kv, Rmin 1 (snd kv + VaR.correlation_increase sc)))
                    (e :: corr))
      | _ => None
      end /\
    VaR.id (VaR.stress_position sc p) = VaR.id p /\
    VaR.quantity (VaR.stress_position sc p) = VaR.quantity p /\
    VaR.price (VaR.stress_position sc p) = VaR.price p.
Proof.
  intros Hne H. split.
  - unfold VaR.calculate_stress_scenarios in H. bind_inv_as H os Hos.
    injection H as <-. apply mapM_Ok_Forall2 in Hos.
    induction Hos as [| sc o scs os Ho _ IH]; [constructor |].
    destruct (stress_scenario_inv _ _ _ _ _ _ _ Hne Ho) as (r & cs & b & -> & Hr).
    rewrite keep_some_cons. constructor; [| exact IH]. exists cs, b. exact Hr.
  - intros sc p. repeat split.
Qed.

Lemma keep_some_map_Some {A : Type} (l : list A) : VaR.keep_some (map Some l) = l.
Proof.
  induction l as [| a l IH]; [reflexivity |].
  cbn [map]. rewrite keep_some_cons, IH. reflexivity.
Qed.

(** On a single uncorrelated position and the sorted stream every scenario
    returns, with the stressed VaR in closed form. *)
Lemma stress_scenarios_single (pid : string) (p : VaR.Position)
    (cl : VaR.ConfidenceLevel) (th : VaR.TimeHorizon) (base : R) :
  VaR.correlation p = None ->
  0 < VaR.position_value p ->
  (forall sc, In sc VaR.STRESS_SCENARIOS ->
              0 < VaR.volatility_or_default (VaR.stress_position sc p)) ->
  base <> 0 ->
  exists rs,
    VaR.calculate_stress_scenarios sorted_draws
      {| VaR.portfolio_id := pid; VaR.positions := [p] |} cl th base = Ok rs /\
    Forall2
      (fun sc r =>
         VaR.name r = VaR.scenario_name sc /\
         VaR.stressed_var r
         = VaR.position_value p
           * (VaR.volatility_or_default (VaR.stress_position sc p) / sqrt 252)
           * VaR.TIME_HORIZON_FACTORS th)
      VaR.STRESS_SCENARIOS rs.
Proof.
  intros Hc Hv Hvol Hb. unfold VaR.calculate_stress_scenarios.
  assert (H : forall l,
             (forall sc, In sc l ->
                         0 < VaR.volatility_or_default (VaR.stress_position sc p)) ->
             exists rs,
               mapM (VaR.stress_scenario sorted_draws
                       {| VaR.portfolio_id := pid; VaR.positions := [p] |} cl th base) l
               = Ok (map Some rs) /\
               Forall2
                 (fun sc r =>
                    VaR.name r = VaR.scenario_name sc /\
                    VaR.stressed_var r
                    = VaR.position_value p
                      * (VaR.volatility_or_default (VaR.stress_position sc p) / sqrt 252)
                      * VaR.TIME_HORIZON_FACTORS th)
                 l rs).
  { induction l as [| sc l IH]; intros Hl.
    - exists []. split; [reflexivity | constructor].
    - destruct IH as (rs & Hrs & HF); [intros sc' Hin; apply Hl; now right |].
      destruct (stress_scenario_single pid p cl th base sc Hc Hv
                  (Hl sc (or_introl eq_refl)) Hb)
        as (r & Hr & Hname & Hvar).
      exists (r :: rs). split.
      + cbn [mapM map]. rewrite Hr. cbn [bind]. rewrite Hrs. reflexivity.
      + constructor; [split; assumption | exact HF]. }
  destruct (H VaR.STRESS_SCENARIOS Hvol) as (rs & Hrs & HF).
  exists rs. rewrite Hrs. cbn [bind]. rewrite keep_some_map_Some.
  split; [reflexivity | exact HF].
Qed.

(** One position worth 100 with the volatility 0.2 given. *)
Definition single_given : VaR.Position :=
  {| VaR.id := "A";
     VaR.asset_class := VaR.EQUITY;
     VaR.ticker := "AAA";
     VaR.quantity := 1;
     VaR.price := 100;
     VaR.volatility := Some 0.2;
     VaR.correlation := None |}.

Definition pf_given : VaR.Portfolio :=
  {| VaR.portfolio_id := "P"; VaR.positions := [single_given] |}.

Lemma asset_class_multiplier_pos (sc : VaR.Scenario) (p : VaR.Position) :
  In sc VaR.STRESS_SCENARIOS -> 0 < VaR.asset_class_multiplier sc p.
Proof.
  intros [<- | [<- | [<- | []]]]; unfold VaR.asset_class_multiplier;
    destruct (VaR.asset_class p); cbn; lra.
Qed.

Lemma pf_given_stress :
  exists rs,
    VaR.calculate_stress_scenarios sorted_draws pf_given VaR.CL_95 VaR.ONE_DAY 1
    = Ok rs.
Proof.
  destruct (stress_scenarios_single "P" single_given VaR.CL_95 VaR.ONE_DAY 1)
    as (rs & Hrs & _).
  - reflexivity.
  - unfold VaR.position_value. cbn. lra.
  - intros sc Hsc. pose proof (asset_class_multiplier_pos sc single_given Hsc) as Hm.
    unfold VaR.volatility_or_default, VaR.stress_position.
    cbn [VaR.volatility single_given].
    apply Rmult_lt_0_compat; [| exact Hm].
    destruct Hsc as [<- | [<- | [<- | []]]]; cbn; lra.
  - lra.
  - exists rs. exact Hrs.
Qed.

Lemma stress_scenarios_rule_witness :
  VaR.positions pf_given <> [] /\
  exists rs,
    VaR.calculate_stress_scenarios sorted_draws pf_given VaR.CL_95 VaR.ONE_DAY 1
    = Ok rs /\
    Forall2
      (fun sc r =>
         exists cs b,
           VaR.calculate_monte_carlo_var sorted_draws (VaR.stressed_portfolio sc pf_given)
             VaR.CL_95 VaR.ONE_DAY 5000
           = Ok (VaR.stressed_var r, cs, b) /\
           VaR.var_increase r = VaR.stressed_var r - 1 /\
           VaR.name r = VaR.scenario_name sc)
      VaR.STRESS_SCENARIOS rs.
Proof.
  assert (Hne : VaR.positions pf_given <> []) by discriminate.
  split; [exact Hne |].
  destruct pf_given_stress as (rs & Hrs). exists rs. split; [exact Hrs |].
  exact (proj1 (stress_scenarios_rule sorted_draws pf_given VaR.CL_95 VaR.ONE_DAY 1
                  rs Hne Hrs)).
Defined.

(** C7 as stated fails for a position without a volatility.  Under the
    Market Crash scenario the one-position portfolio with the default
    volatility is simulated at 0.2, not at the tripled 0.6: on the sorted
    stream its stressed VaR is 100 x 0.2 / sqrt 252 where the portfolio of
    the statement gives 100 x 0.6 / sqrt 252. *)
Lemma default_volatility_is_not_stressed :
  exists (r : VaR.StressScenario) (rs : list VaR.StressScenario)
         (sv b : R) (cs : list VaR.AssetContribution),
    VaR.calculate_stress_scenarios sorted_draws pf_single VaR.CL_95 VaR.ONE_DAY 1
    = Ok (r :: rs) /\
    VaR.name r = "Market Crash"%string /\
    VaR.calculate_monte_carlo_var sorted_draws
      (spec_stressed_portfolio VaR.MARKET_CRASH pf_single) VaR.CL_95 VaR.ONE_DAY 5000
    = Ok (sv, cs, b) /\
    VaR.stressed_var r <> sv.
Proof.
  pose proof sqrt_252_pos as H252.
  destruct (stress_scenarios_single "P" single_default VaR.CL_95 VaR.ONE_DAY 1)
    as (rs & Hrs & HF).
  - reflexivity.
  - unfold VaR.position_value. cbn. lra.
  - intros sc _. unfold VaR.volatility_or_default. cbn. lra.
  - lra.
  - unfold VaR.STRESS_SCENARIOS in HF.
    inversion HF as [| sc r scs rs' [Hname Hvar] _ Hsc Hr]. subst.
    destruct (var_index_5000 VaR.CL_95) as [Hidx Hq].
    destruct (mc_single_position sorted_draws "P"
                (spec_stress_position VaR.MARKET_CRASH single_default)
                VaR.CL_95 VaR.ONE_DAY 5000)
      as (cs & b & Hmc).
    + reflexivity.
    + unfold VaR.position_value. cbn. lra.
    + unfold VaR.volatility_or_default, VaR.asset_class_multiplier. cbn. lra.
    + exact sorted_draws_step.
    + exact two_le_5000.
    + exact Hidx.
    + exact sorted_draws_ends.
    + rewrite Hq. lra.
    + exists r, rs'. do 3 eexists.
      split; [exact Hrs |]. split; [exact Hname |]. split; [exact Hmc |].
      rewrite Hvar, Hq.
      unfold VaR.position_value, VaR.volatility_or_default, VaR.asset_class_multiplier.
      cbn. intros Heq.
      assert (Hs : / sqrt 252 <> 0) by (apply Rinv_neq_0_compat; lra).
      apply Hs. unfold Rdiv in Heq. nra.
Qed.

(** ** Contributions of the simulating methods *)

Lemma sum_as_index (l : list R) :
  sum l = sum (map (fun i => nth i l 0) (seq 0 (List.length l))).
Proof.
  induction l as [| x l IH]; [reflexivity |].
  cbn [List.length seq map nth]. rewrite !sum_cons, IH. f_equal.
  rewrite <- seq_shift, map_map. reflexivity.
Qed.

Lemma dot_as_index (x y : list R) :
  List.length y = List.length x ->
  dot x y = sum (map (fun i => nth i x 0 * nth i y 0) (seq 0 (List.length x))).
Proof.
  revert y. induction x as [| a x IH]; intros [| b y] Hl; try discriminate.
  - reflexivity.
  - unfold dot in *. cbn [List.length seq map nth combine fst snd].
    rewrite !sum_cons. f_equal. rewrite IH by (simpl in Hl; lia).
    rewrite <- seq_shift, map_map. reflexivity.
Qed.

Lemma nth_centered (l : list R) (m : R) (i : nat) :
  (i < List.length l)%nat -> nth i (VaR.centered l m) 0 = nth i l 0 - m.
Proof.
  intros Hi. unfold VaR.centered.
  rewrite (nth_indep _ 0 (0 - m)) by (now rewrite length_map).
  now rewrite (map_nth (fun x => x - m) l 0 i).
Qed.

(** The centred cross product of two series. *)
Definition cross (x y : list R) : R :=
  dot (VaR.centered x (sum x / INR (List.length x)))
      (VaR.centered y (sum y / INR (List.length y))).

Lemma np_mean_inv (l : list R) (m : R) :
  VaR.np_mean l = Ok m -> INR (List.length l) <> 0 /\ m = sum l / INR (List.length l).
Proof. unfold VaR.np_mean. apply fdiv_Ok_inv. Qed.

Lemma np_cov_inv (x y : list R) (c : R) :
  VaR.np_cov x y = Ok c ->
  INR (List.length x) - 1 <> 0 /\ c = cross x y / (INR (List.length x) - 1).
Proof.
  unfold VaR.np_cov. intros H. bind_inv_as H mx Hmx. bind_inv_as H my Hmy.
  apply np_mean_inv in Hmx, Hmy. destruct Hmx as [_ ->], Hmy as [_ ->].
  apply fdiv_Ok_inv in H. exact H.
Qed.

Lemma np_std_inv (x : list R) (s : R) :
  VaR.np_std x = Ok s ->
  INR (List.length x) <> 0 /\ s = sqrt (cross x x / INR (List.length x)).
Proof.
  unfold VaR.np_std. intros H. bind_inv_as H m Hm. bind_inv_as H v Hv.
  injection H as <-. apply np_mean_inv in Hm, Hv.
  destruct Hm as [Hn ->], Hv as [_ ->]. split; [assumption |].
  unfold cross. rewrite dot_self. unfold VaR.centered. now rewrite !length_map.
Qed.

Lemma cross_self_nonneg (x : list R) : 0 <= cross x x.
Proof. unfold cross. rewrite dot_self. apply sum_squares_nonneg. Qed.

(** When the contribution is defined, [beta] is the regression coefficient
    of the asset series on the portfolio series. *)
Lemma simulated_contribution_value (pv var : R) (P A : list R) (p : VaR.Position)
    (c : VaR.AssetContribution) :
  List.length P = List.length A ->
  VaR.simulated_contribution pv var P p A = Ok c ->
  pv <> 0 /\ 0 < cross P P /\
  VaR.var_contribution c
  = VaR.position_value p / pv * (cross A P / cross P P) * var.
Proof.
  intros Hlen H. unfold VaR.simulated_contribution, VaR.np_corrcoef in H.
  bind_inv_as H rho Hrho. bind_inv_as H sa Hsa. bind_inv_as H sp Hsp.
  bind_inv_as H ratio Hratio. bind_inv_as H w Hw. bind_inv_as H pct Hpct.
  injection H as <-. cbn [VaR.make_contribution VaR.var_contribution].
  bind_inv_as Hrho cxy Hcxy. bind_inv_as Hrho cxx Hcxx. bind_inv_as Hrho cyy Hcyy.
  bind_inv_as Hrho r Hr.
  apply np_cov_inv in Hcxy, Hcxx, Hcyy.
  destruct Hcxy as [Hm ->], Hcxx as [_ ->], Hcyy as [_ ->].
  apply fdiv_Ok_inv in Hr, Hrho, Hratio, Hw.
  destruct Hr as [Hsxx ->], Hrho as [Hsyy ->], Hratio as [Hsp0 ->], Hw as [Hpv ->].
  apply np_std_inv in Hsa, Hsp. destruct Hsa as [Hn ->], Hsp as [_ ->].
  rewrite Hlen in *.
  set (n := INR (List.length A)) in *.
  pose proof (cross_self_nonneg A) as HA0. pose proof (cross_self_nonneg P) as HP0.
  set (a := cross A A) in *. set (b := cross P P) in *. set (s := cross A P) in *.
  assert (Hn0 : 0 <= n) by apply pos_INR.
  assert (Hnpos : 0 < n) by lra.
  (* the two variances under the roots are positive *)
  assert (Hax : 0 < a / (n - 1)).
  { destruct (Rle_lt_dec (a / (n - 1)) 0) as [Hle | Hlt]; [| exact Hlt].
    exfalso. apply Hsxx. now apply sqrt_neg_0. }
  assert (Hbx : 0 < b / (n - 1)).
  { destruct (Rle_lt_dec (b / (n - 1)) 0) as [Hle | Hlt]; [| exact Hlt].
    exfalso. apply Hsyy. now apply sqrt_neg_0. }
  assert (Hm1 : 0 < n - 1).
  { destruct (Rle_lt_dec (n - 1) 0) as [Hle | Hlt]; [| exact Hlt].
    exfalso. assert (Hinv : / (n - 1) < 0) by (apply Rinv_lt_0_compat; lra).
    unfold Rdiv in Hax. nra. }
  assert (Ha : 0 < a).
  { unfold Rdiv in Hax. assert (0 < / (n - 1)) by now apply Rinv_0_lt_compat. nra. }
  assert (Hb : 0 < b).
  { unfold Rdiv in Hbx. assert (0 < / (n - 1)) by now apply Rinv_0_lt_compat. nra. }
  split; [assumption |]. split; [assumption |].
  rewrite !sqrt_div by lra.
  assert (Hra : 0 < sqrt a) by now apply sqrt_lt_R0.
  assert (Hrb : 0 < sqrt b) by now apply sqrt_lt_R0.
  assert (Hrm : 0 < sqrt (n - 1)) by now apply sqrt_lt_R0.
  assert (Hrn : 0 < sqrt n) by now apply sqrt_lt_R0.
  assert (Hb2 : b = sqrt b * sqrt b) by (symmetry; apply sqrt_sqrt; lra).
  assert (Hm2 : n - 1 = sqrt (n - 1) * sqrt (n - 1)) by (symmetry; apply sqrt_sqrt; lra).
  set (ra := sqrt a) in *. set (rb := sqrt b) in *.
  set (rm := sqrt (n - 1)) in *. set (rn := sqrt n) in *.
  assert (Hbeta : s / (n - 1) / (ra / rm) / (rb / rm) * (ra / rn / (rb / rn)) = s / b).
  { rewrite Hb2, Hm2. field. repeat split; lra. }
  rewrite Hbeta. reflexivity.
Qed.

Lemma cross_as_index (x y : list R) :
  List.length y = List.length x ->
  cross x y
  = sum (map (fun i => (nth i x 0 - sum x / INR (List.length x))
                       * (nth i y 0 - sum y / INR (List.length y)))
             (seq 0 (List.length x))).
Proof.
  intros Hl. unfold cross.
  rewrite dot_as_index by (unfold VaR.centered; now rewrite !length_map).
  unfold VaR.centered at 3. rewrite length_map.
  apply sum_map_ext. intros i Hi. apply in_seq in Hi.
  rewrite !nth_centered by lia. reflexivity.
Qed.

Lemma sum_map_mult_r {A : Type} (c : R) (f : A -> R) (l : list A) :
  sum (map (fun x => f x * c) l) = sum (map f l) * c.
Proof.
  induction l as [| x l IH]; cbn [map].
  - rewrite !sum_nil. lra.
  - rewrite !sum_cons, IH. lra.
Qed.

Lemma sum_map_minus {A : Type} (f g : A -> R) (l : list A) :
  sum (map (fun x => f x - g x) l) = sum (map f l) - sum (map g l).
Proof.
  induction l as [| x l IH]; cbn [map].
  - rewrite !sum_nil. lra.
  - rewrite !sum_cons, IH. lra.
Qed.

Lemma sum_map_const {A : Type} (c : R) (l : list A) :
  sum (map (fun _ => c) l) = INR (List.length l) * c.
Proof.
  induction l as [| x l IH]; [cbn [map List.length]; rewrite sum_nil; simpl; lra |].
  cbn [map]. rewrite sum_cons, IH. cbn [List.length]. rewrite S_INR. lra.
Qed.

Section Decomposition.

(** A portfolio series that is, point by point, the weighted sum of the
    asset series. *)
Variables (K : list (R * list R)) (P : list R) (N : nat).

Definition combination (i : nat) : R :=
  sum (map (fun wa => fst wa * nth i (snd wa) 0) K).

Hypothesis K_length : forall wa, In wa K -> List.length (snd wa) = N.
Hypothesis P_length : List.length P = N.
Hypothesis P_combination : forall i, (i < N)%nat -> nth i P 0 = combination i.

Lemma sum_P : sum P = sum (map (fun wa => fst wa * sum (snd wa)) K).
Proof.
  rewrite (sum_as_index P), P_length.
  rewrite (sum_map_ext _ combination) by (intros i Hi; apply in_seq in Hi;
                                           apply P_combination; lia).
  unfold combination. rewrite sum_swap.
  apply sum_map_ext. intros wa Hwa. rewrite sum_map_mult_l.
  f_equal. rewrite (sum_as_index (snd wa)), (K_length wa Hwa). reflexivity.
Qed.

Lemma weighted_cross : sum (map (fun wa => fst wa * cross (snd wa) P) K) = cross P P.
Proof.
  set (n := INR N). set (mP := sum P / n).
  assert (Hcross : forall wa, In wa K ->
            fst wa * cross (snd wa) P
            = sum (map (fun i => fst wa * (nth i (snd wa) 0 - sum (snd wa) / n)
                                 * (nth i P 0 - mP))
                       (seq 0 N))).
  { intros wa Hwa. rewrite cross_as_index by (rewrite K_length; auto).
    rewrite K_length, P_length by assumption. fold n. fold mP.
    rewrite <- sum_map_mult_l. apply sum_map_ext. intros i _. ring. }
  rewrite (sum_map_ext _ _ K Hcross). rewrite sum_swap.
  rewrite cross_as_index by reflexivity. rewrite P_length. fold n. fold mP.
  apply sum_map_ext. intros i Hi. apply in_seq in Hi.
  rewrite sum_map_mult_r. f_equal.
  rewrite (sum_map_ext _ (fun wa => fst wa * nth i (snd wa) 0
                                    - fst wa * sum (snd wa) / n))
    by (intros wa _; unfold Rdiv; ring).
  rewrite sum_map_minus. fold (combination i). rewrite <- P_combination by lia.
  f_equal. unfold mP. rewrite sum_P.
  rewrite (sum_map_ext _ (fun wa => fst wa * sum (snd wa) * / n))
    by (intros wa _; reflexivity).
  rewrite sum_map_mult_r. reflexivity.
Qed.

End Decomposition.

Lemma index_inv (l : list R) (i : nat) (x : R) :
  VaR.index l i = Ok x -> nth i l 0 = x.
Proof.
  unfold VaR.index. destruct (nth_error l i) as [y |] eqn:E; [| discriminate].
  intros H. injection H as <-. now apply nth_error_nth.
Qed.

Lemma weighted_return_value (pv : R) (jps : list (nat * VaR.Position))
    (s : list R) (acc r : R) :
  VaR.weighted_return pv jps s acc = Ok r ->
  r = acc + sum (map (fun jp => VaR.position_value (snd jp) / pv * nth (fst jp) s 0) jps).
Proof.
  revert acc. induction jps as [| [j p] jps IH]; intros acc H; cbn [VaR.weighted_return] in H.
  - injection H as <-. cbn [map]. rewrite sum_nil. lra.
  - bind_inv_as H w Hw. bind_inv_as H x Hx.
    apply fdiv_Ok_inv in Hw. destruct Hw as [_ ->]. apply index_inv in Hx. subst x.
    apply IH in H. rewrite H. cbn [map fst snd]. rewrite sum_cons. lra.
Qed.

Lemma Forall2_nth_result {A : Type} (f : A -> result R) (l : list A) (rs : list R)
    (d : A) (i : nat) :
  Forall2 (fun a r => f a = Ok r) l rs -> (i < List.length l)%nat ->
  f (nth i l d) = Ok (nth i rs 0).
Proof.
  intros H. revert i. induction H as [| a r l rs Ha _ IH]; intros i Hi.
  - simpl in Hi. lia.
  - destruct i as [| i]; [exact Ha |]. cbn [nth]. apply IH. simpl in Hi. lia.
Qed.

Lemma nth_asset_series (sims : list (list R)) (j i : nat) :
  (i < List.length sims)%nat ->
  nth i (VaR.asset_series sims j) 0 = nth j (nth i sims []) 0.
Proof.
  intros Hi. unfold VaR.asset_series.
  rewrite (nth_indep _ 0 (nth j [] 0)) by (now rewrite length_map).
  now rewrite (map_nth (fun s => nth j s 0) sims [] i).
Qed.

Lemma mapM_map {A B C : Type} (g : A -> B) (f : B -> result C) (l : list A) :
  mapM f (map g l) = mapM (fun a => f (g a)) l.
Proof.
  induction l as [| a l IH]; [reflexivity |]. cbn [map mapM]. now rewrite IH.
Qed.

Lemma mapM_Ok_ext {A B : Type} (f g : A -> result B) (l : list A) (bs : list B) :
  (forall a b, In a l -> f a = Ok b -> g a = Ok b) ->
  mapM f l = Ok bs -> mapM g l = Ok bs.
Proof.
  revert bs. induction l as [| a l IH]; intros bs Hfg H; [exact H |].
  cbn [mapM] in *. bind_inv_as H b Hb. bind_inv_as H bs' Hbs. injection H as <-.
  rewrite (Hfg a b (or_introl eq_refl) Hb). cbn [bind].
  rewrite (IH bs') by (auto using in_cons). reflexivity.
Qed.

Lemma list_eq_dec_nil {A : Type} (l : list A) : {l = []} + {l <> []}.
Proof. destruct l; [now left | right; discriminate]. Qed.

(** The decomposition behind both simulating methods: when the portfolio
    series is the weighted sum of the asset series, the component VaRs
    [w * beta * var] add up to [var]. *)
Lemma simulated_contributions_sum (items : list (VaR.Position * list R))
    (pv var : R) (P : list R) (N : nat) (cs : list VaR.AssetContribution) :
  (forall it, In it items -> List.length (snd it) = N) ->
  List.length P = N ->
  (forall i, (i < N)%nat ->
             nth i P 0
             = sum (map (fun it => VaR.position_value (fst it) / pv * nth i (snd it) 0)
                        items)) ->
  (items = [] -> var = 0) ->
  mapM (fun it => VaR.simulated_contribution pv var P (fst it) (snd it)) items = Ok cs ->
  sum (map VaR.var_contribution cs) = var.
Proof.
  intros Hitems HPlen HP Hempty Hcs.
  assert (Hvalue : forall it c,
             In it items ->
             VaR.simulated_contribution pv var P (fst it) (snd it) = Ok c ->
             pv <> 0 /\ 0 < cross P P /\
             VaR.var_contribution c
             = VaR.position_value (fst it) / pv * (cross (snd it) P / cross P P) * var).
  { intros it c Hit Hc. apply simulated_contribution_value in Hc; [exact Hc |].
    rewrite (Hitems it Hit). exact HPlen. }
  pose proof (mapM_Ok_Forall2 _ _ _ Hcs) as HF.
  assert (Hsum : sum (map VaR.var_contribution cs)
                 = sum (map (fun it => VaR.position_value (fst it) / pv
                                       * (cross (snd it) P / cross P P) * var) items)).
  { clear - HF Hvalue.
    induction HF as [| it c l cs Hc _ IH]; [reflexivity |].
    cbn [map]. rewrite !sum_cons, IH by (intros; apply Hvalue; auto using in_cons).
    f_equal. apply Hvalue; [now left | assumption]. }
  assert (Hne : items <> [] -> pv <> 0 /\ 0 < cross P P).
  { clear - HF Hvalue. intros Hne.
    destruct HF as [| it c l cs Hc _]; [contradiction |].
    destruct (Hvalue it c (or_introl eq_refl) Hc) as (H1 & H2 & _). now split. }
  rewrite Hsum.
  destruct (list_eq_dec_nil items) as [He | He].
  - rewrite He. cbn [map]. rewrite sum_nil. symmetry. now apply Hempty.
  - destruct (Hne He) as [Hpv Hpos].
    set (K := map (fun it : VaR.Position * list R =>
                     (VaR.position_value (fst it) / pv, snd it)) items).
    assert (HK : forall wa, In wa K -> List.length (snd wa) = N).
    { intros wa Hwa. unfold K in Hwa. apply in_map_iff in Hwa.
      destruct Hwa as (it & <- & Hit). cbn [snd]. auto. }
    assert (HPK : forall i, (i < N)%nat -> nth i P 0 = combination K i).
    { intros i Hi. rewrite (HP i Hi). unfold combination, K. rewrite map_map.
      reflexivity. }
    rewrite (sum_map_ext _ (fun it => var / cross P P
                                      * (VaR.position_value (fst it) / pv
                                         * cross (snd it) P)))
      by (intros jp _; field; split; first [assumption | lra]).
    rewrite sum_map_mult_l.
    pose proof (weighted_cross K P N HK HPlen HPK) as Hw.
    unfold K in Hw. rewrite map_map in Hw. cbn [fst snd] in Hw. rewrite Hw.
    field. lra.
Qed.

(** In the Monte Carlo method the component VaRs add up to the VaR
    whenever the method returns. *)
Lemma monte_carlo_contributions_sum (gauss : nat -> R) (pf : VaR.Portfolio)
    (cl : VaR.ConfidenceLevel) (th : VaR.TimeHorizon) (N : nat)
    (var b : R) (cs : list VaR.AssetContribution) :
  VaR.calculate_monte_carlo_var gauss pf cl th N = Ok (var, cs, b) ->
  sum (map VaR.var_contribution cs) = var.
Proof.
  unfold VaR.calculate_monte_carlo_var. intros H.
  bind_inv_as H chol Hchol. bind_inv_as H P HP. bind_inv_as H q Hq.
  bind_inv_as H avs Havs. bind_inv_as H cs' Hcs. injection H as Hvar <- _.
  set (ps := VaR.positions pf) in *.
  set (pv := VaR.calculate_portfolio_value pf) in *.
  set (sims := map (VaR.simulate gauss (List.length ps) chol
                      (map (fun v => v / sqrt 252) (map VaR.volatility_or_default ps)))
                   (seq 0 N)) in *.
  rewrite Hvar in Hcs.
  assert (Hsims : List.length sims = N) by (unfold sims; now rewrite length_map, length_seq).
  apply (simulated_contributions_sum
           (map (fun jp : nat * VaR.Position => (snd jp, VaR.asset_series sims (fst jp)))
                (enumerate ps)) pv var P N).
  - intros it Hit. apply in_map_iff in Hit. destruct Hit as (jp & <- & _).
    cbn [snd]. unfold VaR.asset_series. now rewrite length_map.
  - apply mapM_Ok_length in HP. lia.
  - intros i Hi. apply mapM_Ok_Forall2 in HP.
    pose proof (Forall2_nth_result _ _ _ [] i HP) as Hi'. cbv beta in Hi'.
    rewrite Hsims in Hi'. specialize (Hi' Hi).
    apply weighted_return_value in Hi'. rewrite Hi', map_map, Rplus_0_l.
    cbn [fst snd]. apply sum_map_ext. intros jp _.
    rewrite nth_asset_series by lia. reflexivity.
  - intros He. apply map_eq_nil in He.
    assert (Hps : ps = []).
    { unfold enumerate in He. destruct ps; [reflexivity | discriminate]. }
    rewrite <- Hvar. unfold pv, VaR.calculate_portfolio_value. fold ps. rewrite Hps.
    cbn [map]. rewrite sum_nil. ring.
  - rewrite mapM_map. exact Hcs.
Qed.

(** *** Historical method *)

Lemma dict_get_set_string {V : Type} (k k' : string) (v : V) (d : list (string * V)) :
  dict_get String.eqb k (dict_set String.eqb k' v d)
  = if String.eqb k k' then Some v else dict_get String.eqb k d.
Proof.
  induction d as [| [k0 v0] d IH]; cbn [dict_set dict_get].
  - reflexivity.
  - destruct (String.eqb k' k0) eqn:E'; cbn [dict_get].
    + apply String.eqb_eq in E'. subst k0.
      destruct (String.eqb k k'); reflexivity.
    + destruct (String.eqb k k0) eqn:E0.
      * apply String.eqb_eq in E0. subst k0.
        destruct (String.eqb k k') eqn:E; [| reflexivity].
        apply String.eqb_eq in E. subst k'.
        rewrite String.eqb_refl in E'. discriminate.
      * exact IH.
Qed.

Lemma historical_returns_length (gauss : nat -> R) (ps : list VaR.Position)
    (k : string) (r : list R) :
  dict_get String.eqb k (VaR.historical_returns gauss ps) = Some r ->
  List.length r = VaR.num_days.
Proof.
  unfold VaR.historical_returns.
  apply (fold_invariant
           (fun d => forall k r, dict_get String.eqb k d = Some r ->
                                 List.length r = VaR.num_days)
           (fun _ => True)).
  - intros d [j p] _ Hd k' r'. rewrite dict_get_set_string.
    destruct (String.eqb k' (VaR.id p)); [| apply Hd].
    intros H. injection H as <-. unfold VaR.normal.
    now rewrite length_map, length_seq.
  - apply Forall_forall. trivial.
  - intros k' r'. discriminate.
Qed.

Definition series_of (returns : list (string * list R)) (p : VaR.Position) : list R :=
  match dict_get String.eqb (VaR.id p) returns with
  | Some r => r
  | None => []
  end.

Lemma returns_of_inv (returns : list (string * list R)) (p : VaR.Position) (r : list R) :
  VaR.returns_of returns p = Ok r ->
  dict_get String.eqb (VaR.id p) returns = Some r /\ r = series_of returns p.
Proof.
  unfold VaR.returns_of, series_of.
  destruct (dict_get String.eqb (VaR.id p) returns); [| discriminate].
  intros H. injection H as <-. split; reflexivity.
Qed.

Lemma axpy_length (w : R) (r acc : list R) :
  List.length r = List.length acc -> List.length (VaR.axpy w r acc) = List.length acc.
Proof.
  intros H. unfold VaR.axpy. rewrite length_map, length_combine. lia.
Qed.

Lemma axpy_nth (w : R) (r acc : list R) (i : nat) :
  List.length r = List.length acc -> (i < List.length acc)%nat ->
  nth i (VaR.axpy w r acc) 0 = nth i acc 0 + w * nth i r 0.
Proof.
  intros Hl Hi. unfold VaR.axpy.
  rewrite (nth_indep _ 0 ((fun p => fst p + w * snd p) (0, 0)))
    by (rewrite length_map, length_combine; lia).
  rewrite (map_nth (fun p => fst p + w * snd p) (combine acc r) (0, 0) i).
  rewrite combine_nth by lia. reflexivity.
Qed.

Lemma historical_portfolio_returns_value (pv : R) (returns : list (string * list R))
    (L : nat) (ps : list VaR.Position) (acc P : list R) :
  (forall k r, dict_get String.eqb k returns = Some r -> List.length r = L) ->
  List.length acc = L ->
  VaR.historical_portfolio_returns pv returns ps acc = Ok P ->
  List.length P = L /\
  forall i, (i < L)%nat ->
            nth i P 0
            = nth i acc 0
              + sum (map (fun p => VaR.position_value p / pv * nth i (series_of returns p) 0)
                         ps).
Proof.
  intros Hret. revert acc. induction ps as [| p ps IH]; intros acc Hacc H;
    cbn [VaR.historical_portfolio_returns] in H.
  - injection H as <-. split; [assumption |]. intros i _. cbn [map].
    rewrite sum_nil. lra.
  - bind_inv_as H w Hw. bind_inv_as H r Hr.
    apply fdiv_Ok_inv in Hw. destruct Hw as [_ ->].
    apply returns_of_inv in Hr. destruct Hr as [Hget Hr].
    pose proof (Hret _ _ Hget) as Hlen.
    apply IH in H; [| rewrite axpy_length; lia].
    destruct H as [HP Hnth]. split; [assumption |].
    intros i Hi. rewrite (Hnth i Hi), axpy_nth by lia.
    cbn [map]. rewrite sum_cons, <- Hr. lra.
Qed.

(** In the historical method the component VaRs add up to the VaR
    whenever the method returns. *)
Lemma historical_contributions_sum (gauss : nat -> R) (pf : VaR.Portfolio)
    (cl : VaR.ConfidenceLevel) (th : VaR.TimeHorizon)
    (var b : R) (cs : list VaR.AssetContribution) :
  VaR.calculate_historical_var gauss pf cl th = Ok (var, cs, b) ->
  sum (map VaR.var_contribution cs) = var.
Proof.
  unfold VaR.calculate_historical_var. intros H.
  bind_inv_as H P HP. bind_inv_as H q Hq.
  bind_inv_as H avs Havs. bind_inv_as H cs' Hcs. injection H as Hvar <- _.
  set (ps := VaR.positions pf) in *.
  set (pv := VaR.calculate_portfolio_value pf) in *.
  set (returns := VaR.historical_returns gauss ps) in *.
  rewrite Hvar in Hcs.
  apply historical_portfolio_returns_value with (L := VaR.num_days) in HP.
  2:{ intros k r. apply historical_returns_length. }
  2:{ apply repeat_length. }
  destruct HP as [HPlen HPnth].
  apply (simulated_contributions_sum
           (map (fun p => (p, series_of returns p)) ps) pv var P VaR.num_days).
  - intros it Hit. apply in_map_iff in Hit. destruct Hit as (p & <- & Hp).
    cbn [snd]. apply mapM_Ok_Forall2 in Hcs.
    assert (Hex : exists c, r <- VaR.returns_of returns p ;;
                            VaR.simulated_contribution pv var P p r = Ok c).
    { clear - Hcs Hp. revert Hp. generalize ps cs' Hcs. clear.
      intros l l' HF. induction HF as [| p' c ps' cs'' Hc _ IH]; [contradiction |].
      intros [-> | Hp]; [eauto | auto]. }
    destruct Hex as (c & Hc). bind_inv_as Hc r Hr.
    apply returns_of_inv in Hr. destruct Hr as [Hget <-].
    eapply historical_returns_length. exact Hget.
  - exact HPlen.
  - intros i Hi. rewrite (HPnth i Hi), map_map. cbn [fst snd].
    rewrite nth_repeat. lra.
  - intros He. apply map_eq_nil in He.
    rewrite <- Hvar. unfold pv, VaR.calculate_portfolio_value. fold ps. rewrite He.
    cbn [map]. rewrite sum_nil. ring.
  - rewrite mapM_map. cbn [fst snd].
    refine (mapM_Ok_ext _ _ _ _ _ Hcs).
    intros p c _ Hc. cbv beta in Hc. bind_inv_as Hc r Hr.
    apply returns_of_inv in Hr. destruct Hr as [_ <-]. exact Hc.
Qed.

(** *** The simulating methods on a single position *)

Lemma axpy_map_seq (c : R) (h : nat -> R) (s n : nat) :
  VaR.axpy c (map h (seq s n)) (repeat 0 n) = map (fun i => 0 + c * h i) (seq s n).
Proof.
  unfold VaR.axpy. revert s. induction n as [| n IH]; intros s; [reflexivity |].
  cbn [seq map repeat combine fst snd]. now rewrite IH.
Qed.

Lemma historical_returns_single (gauss : nat -> R) (p : VaR.Position) :
  VaR.historical_returns gauss [p]
  = [(VaR.id p,
      map (fun k => 0 + VaR.volatility_or_default p / sqrt 252 * gauss k)
          (seq 0 VaR.num_days))].
Proof.
  unfold VaR.historical_returns, VaR.normal.
  cbn [enumerate List.length seq combine fold_left dict_set Nat.mul Nat.add].
  reflexivity.
Qed.

Lemma hist_single_position (gauss : nat -> R) (pid : string) (p : VaR.Position)
    (cl : VaR.ConfidenceLevel) (th : VaR.TimeHorizon) :
  0 < VaR.position_value p -> 0 < VaR.volatility_or_default p ->
  (forall i, gauss i <= gauss (S i)) ->
  (VaR.var_index VaR.num_days cl < VaR.num_days)%nat ->
  gauss 0%nat <> gauss (VaR.num_days - 1)%nat ->
  gauss (VaR.var_index VaR.num_days cl) <> 0 ->
  exists cs b,
    VaR.calculate_historical_var gauss
      {| VaR.portfolio_id := pid; VaR.positions := [p] |} cl th
    = Ok (VaR.position_value p * (- gauss (VaR.var_index VaR.num_days cl))
          * (VaR.volatility_or_default p / sqrt 252) * VaR.TIME_HORIZON_FACTORS th,
          cs, b).
Proof.
  intros Hval Hvol Hmono Hidx Hends Hq.
  pose proof sqrt_252_pos as H252.
  pose proof (TIME_HORIZON_FACTORS_pos th) as Htf.
  set (dv := VaR.volatility_or_default p / sqrt 252).
  assert (Hdv : 0 < dv) by (apply Rdiv_lt_0_compat; assumption).
  set (v := VaR.position_value p) in *.
  assert (HN : (2 <= VaR.num_days)%nat)
    by (apply Nat.leb_le; vm_compute; reflexivity).
  unfold VaR.calculate_historical_var.
  cbn [VaR.positions]. rewrite historical_returns_single. fold dv.
  assert (Hpv : VaR.calculate_portfolio_value
                  {| VaR.portfolio_id := pid; VaR.positions := [p] |} = v).
  { unfold VaR.calculate_portfolio_value. cbn [VaR.positions map].
    rewrite sum_cons, sum_nil. fold v. lra. }
  rewrite Hpv.
  set (N := VaR.num_days) in *.
  set (idx := VaR.var_index N cl) in *.
  set (hA := fun k : nat => 0 + dv * gauss k).
  set (hP := fun i : nat => 0 + v / v * hA i).
  assert (HhA : forall i, hA i <= hA (S i)).
  { intros i. unfold hA. specialize (Hmono i). nra. }
  assert (HhP : forall i, hP i <= hP (S i)).
  { intros i. unfold hP. replace (v / v) with 1 by (field; lra).
    specialize (HhA i). lra. }
  assert (Hret : VaR.returns_of [(VaR.id p, map hA (seq 0 N))] p
                 = Ok (map hA (seq 0 N))).
  { unfold VaR.returns_of. cbn [dict_get]. now rewrite String.eqb_refl. }
  cbn [VaR.historical_portfolio_returns].
  rewrite fdiv_Ok by lra. cbn [bind]. rewrite Hret. cbn [bind].
  rewrite axpy_map_seq. fold v. fold hP.
  rewrite (quantile_of_monotone hP N idx HhP Hidx). cbn [bind].
  cbn [mapM]. rewrite Hret. cbn [bind].
  rewrite (quantile_of_monotone hA N idx HhA Hidx). cbn [bind].
  replace (v * - gauss idx * dv * VaR.TIME_HORIZON_FACTORS th)
    with (v * - hP idx * VaR.TIME_HORIZON_FACTORS th)
    by (unfold hP, hA; field; lra).
  assert (HncA : non_constant (map hA (seq 0 N))).
  { apply non_constant_map_seq; [assumption |]. unfold hA. nra. }
  assert (HncP : non_constant (map hP (seq 0 N))).
  { apply non_constant_map_seq; [assumption |]. unfold hP, hA.
    replace (v / v) with 1 by (field; lra). nra. }
  destruct (simulated_contribution_returns v (v * - hP idx * VaR.TIME_HORIZON_FACTORS th)
              (map hP (seq 0 N)) (map hA (seq 0 N)) p) as (c & Hcontr).
  - now rewrite length_map, length_seq.
  - now rewrite !length_map, !length_seq.
  - assumption.
  - assumption.
  - lra.
  - assert (HhPq : hP idx <> 0).
    { unfold hP, hA. replace (v / v) with 1 by (field; lra). nra. }
    apply Rmult_integral_contrapositive_currified; [| lra].
    apply Rmult_integral_contrapositive_currified; lra.
  - rewrite Hcontr. cbn [bind]. do 2 eexists. reflexivity.
Qed.

(** A stream of daily draws sorted in ascending order: 250 times -1, then 1. *)
Definition sorted_days (k : nat) : R := if Nat.ltb k 250 then -1 else 1.

Lemma sorted_days_step (i : nat) : sorted_days i <= sorted_days (S i).
Proof.
  unfold sorted_days.
  destruct (Nat.ltb_spec i 250), (Nat.ltb_spec (S i) 250); try lra. lia.
Qed.

Lemma var_index_num_days (cl : VaR.ConfidenceLevel) :
  (VaR.var_index VaR.num_days cl < VaR.num_days)%nat /\
  sorted_days (VaR.var_index VaR.num_days cl) = -1.
Proof.
  assert (H : Nat.ltb (VaR.var_index VaR.num_days cl) 250 = true)
    by (destruct cl; vm_compute; reflexivity).
  split.
  - apply Nat.ltb_lt. destruct cl; vm_compute; reflexivity.
  - unfold sorted_days. now rewrite H.
Qed.

Lemma sorted_days_ends : sorted_days 0 <> sorted_days (VaR.num_days - 1).
Proof.
  assert (H0 : sorted_days 0 = -1) by reflexivity.
  assert (H1 : sorted_days (VaR.num_days - 1) = 1).
  { unfold sorted_days.
    assert (H : Nat.ltb (VaR.num_days - 1) 250 = false) by (vm_compute; reflexivity).
    now rewrite H. }
  rewrite H0, H1. lra.
Qed.

Lemma single_default_value : 0 < VaR.position_value single_default.
Proof. unfold VaR.position_value. cbn. lra. Qed.

Lemma single_default_volatility : 0 < VaR.volatility_or_default single_default.
Proof. unfold VaR.volatility_or_default. cbn. lra. Qed.

Lemma pf_single_historical :
  exists var cs b,
    VaR.calculate_historical_var sorted_days pf_single VaR.CL_95 VaR.ONE_DAY
    = Ok (var, cs, b).
Proof.
  destruct (hist_single_position sorted_days "P" single_default VaR.CL_95 VaR.ONE_DAY)
    as (cs & b & H).
  - exact single_default_value.
  - exact single_default_volatility.
  - exact sorted_days_step.
  - exact (proj1 (var_index_num_days VaR.CL_95)).
  - exact sorted_days_ends.
  - rewrite (proj2 (var_index_num_days VaR.CL_95)). lra.
  - eexists _, cs, b. exact H.
Qed.

Lemma pf_single_monte_carlo :
  exists var cs b,
    VaR.calculate_monte_carlo_var sorted_draws pf_single VaR.CL_95 VaR.ONE_DAY 5000
    = Ok (var, cs, b).
Proof.
  destruct (mc_single_position sorted_draws "P" single_default VaR.CL_95 VaR.ONE_DAY 5000)
    as (cs & b & H).
  - reflexivity.
  - exact single_default_value.
  - exact single_default_volatility.
  - exact sorted_draws_step.
  - exact two_le_5000.
  - exact (proj1 (var_index_5000 VaR.CL_95)).
  - exact sorted_draws_ends.
  - rewrite (proj2 (var_index_5000 VaR.CL_95)). lra.
  - eexists _, cs, b. exact H.
Qed.

Lemma monte_carlo_contributions_sum_witness :
  exists var cs b,
    VaR.calculate_monte_carlo_var sorted_draws pf_single VaR.CL_95 VaR.ONE_DAY 5000
    = Ok (var, cs, b) /\
    sum (map VaR.var_contribution cs) = var.
Proof.
  destruct pf_single_monte_carlo as (var & cs & b & H).
  exists var, cs, b. split; [exact H |].
  exact (monte_carlo_contributions_sum sorted_draws pf_single VaR.CL_95 VaR.ONE_DAY 5000
           var b cs H).
Defined.

Lemma historical_contributions_sum_witness :
  exists var cs b,
    VaR.calculate_historical_var sorted_days pf_single VaR.CL_95 VaR.ONE_DAY
    = Ok (var, cs, b) /\
    sum (map VaR.var_contribution cs) = var.
Proof.
  destruct pf_single_historical as (var & cs & b & H).
  exists var, cs, b. split; [exact H |].
  exact (historical_contributions_sum sorted_days pf_single VaR.CL_95 VaR.ONE_DAY
           var b cs H).
Defined.

(** *** Concrete instances of the general results *)

Lemma parametric_contributions_sum_witness :
  VaR.calculate_parametric_var pf_single VaR.CL_95 VaR.ONE_DAY
  = Ok (100 * 0.2 * 1.645 * 1 / sqrt 252,
        [VaR.make_contribution single_default
           (0.2 * (100 * 0.2 * 1.645 * 1 / sqrt 252)) 20],
        0) /\
  exists weights : list R,
    VaR.weights_of pf_single = Ok weights /\
    sum (map VaR.var_contribution
             [VaR.make_contribution single_default
                (0.2 * (100 * 0.2 * 1.645 * 1 / sqrt 252)) 20])
    = 100 * 0.2 * 1.645 * 1 / sqrt 252
      * sqrt (VaR.portfolio_variance_of (List.length (VaR.positions pf_single)) weights
                (VaR.variance_matrix (VaR.positions pf_single))).
Proof.
  split; [exact pf_single_parametric |].
  exact (parametric_contributions_sum pf_single VaR.CL_95 VaR.ONE_DAY _ _ _
           pf_single_parametric).
Defined.

Lemma single_default_valid : Forall valid_position (VaR.positions pf_single).
Proof.
  repeat constructor; cbn; lra.
Qed.

Lemma parametric_divisor_positive_witness :
  VaR.positions pf_single <> [] /\
  Forall valid_position (VaR.positions pf_single) /\
  0 < 100 * 0.2 * 1.645 * 1 / sqrt 252 + 0.
Proof.
  assert (Hne : VaR.positions pf_single <> []) by discriminate.
  split; [exact Hne |]. split; [exact single_default_valid |].
  exact (parametric_divisor_positive pf_single VaR.CL_95 VaR.ONE_DAY _ _ _
           Hne single_default_valid pf_single_parametric).
Defined.

(** Two positions, the first giving its correlation with the second. *)
Definition pair_positions : list VaR.Position :=
  [ {| VaR.id := "A";
       VaR.asset_class := VaR.EQUITY;
       VaR.ticker := "AAA";
       VaR.quantity := 1;
       VaR.price := 100;
       VaR.volatility := None;
       VaR.correlation := Some [("B"%string, 0.3)] |};
    {| VaR.id := "B";
       VaR.asset_class := VaR.FX;
       VaR.ticker := "BBB";
       VaR.quantity := 2;
       VaR.price := 50;
       VaR.volatility := Some 0.1;
       VaR.correlation := None |} ].

Lemma pair_positions_no_self_correlation : no_self_correlation pair_positions.
Proof.
  intros p corr [<- | [<- | []]] H; cbn in H; [| discriminate].
  injection H as <-. reflexivity.
Qed.

Lemma correlation_matrix_diagonal_witness :
  no_self_correlation pair_positions /\
  unit_diagonal (List.length pair_positions) (VaR.correlation_matrix pair_positions).
Proof.
  split; [exact pair_positions_no_self_correlation |].
  exact (correlation_matrix_diagonal pair_positions pair_positions_no_self_correlation).
Defined.

(** * The rest of the services *)

(** ** Failing computations *)

Lemma mapM_In_Raise {A B : Type} (f : A -> result B) (l : list A) (a : A) (e : exn) :
  In a l -> f a = Raise e -> exists e', mapM f l = Raise e'.
Proof.
  induction l as [| x l IH]; intros Hin Hf; [contradiction |].
  cbn [mapM]. destruct Hin as [-> | Hin].
  - rewrite Hf. cbn [bind]. eauto.
  - destruct (f x) as [b | e0]; cbn [bind]; [| eauto].
    destruct (IH Hin Hf) as (e' & ->). cbn [bind]. eauto.
Qed.

Lemma dict_get_In {V : Type} (k : AssetClass) (v : V) (d : list (AssetClass * V)) :
  dict_get AssetClass_eqb k d = Some v -> In (k, v) d.
Proof.
  induction d as [| [k0 v0] d IH]; cbn [dict_get]; [discriminate |].
  destruct (AssetClass_eqb k k0) eqn:E.
  - apply AssetClass_eqb_eq in E. subst k0. intros H. injection H as ->. now left.
  - intros H. right. auto.
Qed.

(** Every element lands in the group of its asset class. *)
Lemma group_by_asset_class_In {A : Type} (f : A -> AssetClass) (l : list A) (x : A) :
  In x l ->
  exists xs, In (f x, xs) (group_by_asset_class f l) /\ In x xs.
Proof.
  intros Hin.
  pose proof (group_by_asset_class_get f (f x) l) as Hget.
  assert (Hx : In x (filter (fun y => AssetClass_eqb (f y) (f x)) l)).
  { apply filter_In. split; [assumption | apply AssetClass_eqb_refl]. }
  destruct (filter (fun y => AssetClass_eqb (f y) (f x)) l) as [| y ys] eqn:E;
    [contradiction |].
  exists (y :: ys). split; [now apply dict_get_In | assumption].
Qed.

(** ** The aggregation loop of the SA-CCR service *)

Definition missing_option_parameters (t : SACCR.Transaction) : Prop :=
  is_option_like (SACCR.transaction_type t) = true /\
  SACCR.supervisory_delta t = None /\
  (SACCR.underlying_price t = None \/ SACCR.strike_price t = None \/
   SACCR.option_type t = None \/ SACCR.volatility t = None \/
   SACCR.interest_rate t = None).

Lemma missing_parameters_delta (t : SACCR.Transaction) :
  missing_option_parameters t ->
  SACCR.calculate_supervisory_delta t = Raise ValueError.
Proof.
  intros (Ho & Hd & Hm). unfold SACCR.calculate_supervisory_delta.
  rewrite Hd, Ho. cbn [negb].
  destruct (SACCR.underlying_price t), (SACCR.strike_price t), (SACCR.option_type t),
    (SACCR.volatility t), (SACCR.interest_rate t); try reflexivity.
  destruct Hm as [H | [H | [H | [H | H]]]]; discriminate.
Qed.

Lemma missing_parameters_value (t : SACCR.Transaction) :
  missing_option_parameters t ->
  SACCR.transaction_value t = Ok (0.1 * SACCR.notional t).
Proof.
  intros (Ho & _ & Hm). unfold SACCR.transaction_value. rewrite Ho.
  destruct (SACCR.underlying_price t), (SACCR.strike_price t), (SACCR.option_type t),
    (SACCR.volatility t), (SACCR.interest_rate t); try reflexivity.
  destruct Hm as [H | [H | [H | [H | H]]]]; discriminate.
Qed.

Lemma missing_parameters_add_on (ns : SACCR.NettingSet) (t : SACCR.Transaction) :
  In t (SACCR.transactions ns) -> missing_option_parameters t ->
  exists e, SACCR.calculate_add_on ns = Raise e.
Proof.
  intros Hin Hmiss. unfold SACCR.calculate_add_on.
  destruct (group_by_asset_class_In SACCR.asset_class _ _ Hin) as (xs & Hg & Hx).
  assert (Hen : SACCR.effective_notional_of t = Raise ValueError).
  { unfold SACCR.effective_notional_of. now rewrite missing_parameters_delta. }
  destruct (mapM_In_Raise _ _ _ _ Hx Hen) as (e & He).
  apply (mapM_In_Raise _ _ (SACCR.asset_class t, xs) e Hg).
  unfold SACCR.class_add_on. now rewrite He.
Qed.

Lemma process_netting_sets_Raise (l : list SACCR.NettingSet) (ns : SACCR.NettingSet)
    (st : SACCRService.Totals) :
  In ns l ->
  (exists e, SACCR.calculate_add_on ns = Raise e) ->
  exists e, SACCRService.process_netting_sets st l = Raise e.
Proof.
  intros Hin (e & He). revert st.
  induction l as [| x l IH]; intros st; [contradiction |].
  cbn [SACCRService.process_netting_sets].
  destruct Hin as [-> | Hin].
  - unfold SACCRService.process_netting_set.
    destruct (SACCR.calculate_replacement_cost ns); cbn [bind]; [| eauto].
    unfold SACCR.calculate_potential_future_exposure. rewrite He. cbn [bind]. eauto.
  - destruct (SACCRService.process_netting_set st x) as [st' | e0]; cbn [bind];
      [apply IH, Hin | eauto].
Qed.

(** An option or swaption that has neither a supervisory delta nor all of
    its pricing parameters makes the whole calculation fail, although the
    replacement cost on its own falls back to a tenth of the notional. *)
Lemma missing_option_parameters_fail (netting_sets : list SACCR.NettingSet)
    (ns : SACCR.NettingSet) (t : SACCR.Transaction) :
  In ns netting_sets ->
  In t (SACCR.transactions ns) ->
  missing_option_parameters t ->
  SACCR.calculate_supervisory_delta t = Raise ValueError /\
  SACCR.transaction_value t = Ok (0.1 * SACCR.notional t) /\
  exists e, SACCRService.accumulate_netting_sets netting_sets = Raise e.
Proof.
  intros Hns Ht Hmiss.
  split; [now apply missing_parameters_delta |].
  split; [now apply missing_parameters_value |].
  unfold SACCRService.accumulate_netting_sets.
  exact (process_netting_sets_Raise _ ns SACCRService.initial_totals Hns
           (missing_parameters_add_on ns t Ht Hmiss)).
Qed.

(** An option of the equity class that gives no volatility. *)
Definition option_without_volatility : SACCR.Transaction :=
  {| SACCR.id := "O2";
     SACCR.asset_class := EQUITY;
     SACCR.transaction_type := OPTION;
     SACCR.notional := 1000000;
     SACCR.maturity := 1;
     SACCR.underlying_price := Some 100;
     SACCR.strike_price := Some 100;
     SACCR.option_type := Some SACCR.CALL;
     SACCR.option_style := Some SACCR.EUROPEAN;
     SACCR.volatility := None;
     SACCR.interest_rate := Some 0.05;
     SACCR.supervisory_delta := None;
     SACCR.supervisory_factor := None;
     SACCR.maturity_factor := None |}.

Definition ns_incomplete_option : SACCR.NettingSet :=
  {| SACCR.ns_id := "N3";
     SACCR.transactions := [swap_1m_3y; option_without_volatility];
     SACCR.collateral := 0 |}.

Lemma option_without_volatility_missing :
  missing_option_parameters option_without_volatility.
Proof. repeat split. right. right. right. left. reflexivity. Qed.

Lemma missing_option_parameters_fail_witness :
  In ns_incomplete_option [ns_swap; ns_incomplete_option] /\
  In option_without_volatility (SACCR.transactions ns_incomplete_option) /\
  missing_option_parameters option_without_volatility /\
  exists e,
    SACCRService.accumulate_netting_sets [ns_swap; ns_incomplete_option] = Raise e.
Proof.
  assert (H1 : In ns_incomplete_option [ns_swap; ns_incomplete_option])
    by (right; left; reflexivity).
  assert (H2 : In option_without_volatility (SACCR.transactions ns_incomplete_option))
    by (right; left; reflexivity).
  split; [exact H1 |]. split; [exact H2 |].
  split; [exact option_without_volatility_missing |].
  exact (proj2 (proj2 (missing_option_parameters_fail _ _ _ H1 H2
                         option_without_volatility_missing))).
Defined.

(** *** Totals *)

Lemma replacement_cost_nonneg (ns : SACCR.NettingSet) (rc : R) :
  SACCR.calculate_replacement_cost ns = Ok rc -> 0 <= rc.
Proof.
  unfold SACCR.calculate_replacement_cost. intros H.
  bind_inv_as H values Hv. injection H as <-. apply Rmax_r.
Qed.

Lemma saccr_process_netting_sets_totals (l : list SACCR.NettingSet)
    (st st' : SACCRService.Totals) :
  SACCRService.process_netting_sets st l = Ok st' ->
  exists (rcs : list R) (pfes : list (R * list (AssetClass * R))),
    mapM SACCR.calculate_replacement_cost l = Ok rcs /\
    mapM SACCR.calculate_potential_future_exposure l = Ok pfes /\
    SACCRService.acc_total_replacement_cost st'
    = SACCRService.acc_total_replacement_cost st + sum rcs /\
    SACCRService.acc_total_potential_future_exposure st'
    = SACCRService.acc_total_potential_future_exposure st + sum (map fst pfes) /\
    Forall (fun x => 0 <= x) rcs.
Proof.
  revert st. induction l as [| ns l IH]; intros st H;
    cbn [SACCRService.process_netting_sets] in H.
  - injection H as <-. exists [], []. cbn [mapM map]. rewrite sum_nil.
    repeat split; try lra. constructor.
  - bind_inv_as H st1 Hst1. unfold SACCRService.process_netting_set in Hst1.
    bind_inv_as Hst1 rc Hrc. bind_inv_as Hst1 r Hr. destruct r as [pfe add_ons].
    bind_inv_as Hst1 classes Hcl. injection Hst1 as <-.
    destruct (IH _ H) as (rcs & pfes & Hrcs & Hpfes & Htrc & Htpfe & Hpos).
    cbn [SACCRService.acc_total_replacement_cost
         SACCRService.acc_total_potential_future_exposure] in Htrc, Htpfe.
    exists (rc :: rcs), ((pfe, add_ons) :: pfes). cbn [mapM].
    rewrite Hrc, Hr, Hrcs, Hpfes. cbn [bind map fst]. rewrite !sum_cons.
    repeat split; try lra.
    constructor; [now apply (replacement_cost_nonneg ns) | assumption].
Qed.

(** The totals of [calculate_saccr]: the replacement costs and the
    potential future exposures of the netting sets are added up, the
    exposure at default is the sum of the two totals, and the total
    replacement cost is never negative. *)
Lemma saccr_totals (netting_sets : list SACCR.NettingSet) (st : SACCRService.Totals) :
  SACCRService.accumulate_netting_sets netting_sets = Ok st ->
  exists (rcs : list R) (pfes : list (R * list (AssetClass * R))),
    mapM SACCR.calculate_replacement_cost netting_sets = Ok rcs /\
    mapM SACCR.calculate_potential_future_exposure netting_sets = Ok pfes /\
    SACCRService.acc_total_replacement_cost st = sum rcs /\
    SACCRService.acc_total_potential_future_exposure st = sum (map fst pfes) /\
    SACCRService.total_ead st = sum rcs + sum (map fst pfes) /\
    0 <= SACCRService.acc_total_replacement_cost st.
Proof.
  unfold SACCRService.accumulate_netting_sets. intros Hst.
  destruct (saccr_process_netting_sets_totals _ _ _ Hst)
    as (rcs & pfes & Hrcs & Hpfes & Htrc & Htpfe & Hpos).
  cbn in Htrc, Htpfe. exists rcs, pfes. unfold SACCRService.total_ead.
  rewrite Htrc, Htpfe.
  repeat split; try assumption; try lra.
  pose proof (sum_nonneg rcs Hpos). lra.
Qed.

(** *** Results per asset class *)

Lemma dict_set_Forall {V : Type} (P : V -> Prop) (k : AssetClass) (v : V)
    (d : list (AssetClass * V)) :
  P v -> Forall P (dict_values d) -> Forall P (dict_values (dict_set AssetClass_eqb k v d)).
Proof.
  intros Hv. induction d as [| [k0 v0] d IH]; cbn [dict_set dict_values map]; intros Hd.
  - repeat constructor. assumption.
  - inversion Hd as [| ? ? H0 Hrest]; subst.
    destruct (AssetClass_eqb k k0); cbn [map]; constructor; auto.
Qed.

Definition class_ead (kv : AssetClass * SACCRService.ClassResult) : R :=
  SACCRService.ead (snd kv).

Lemma class_ead_set (k : AssetClass) (e v : SACCRService.ClassResult)
    (d : list (AssetClass * SACCRService.ClassResult)) :
  match dict_get AssetClass_eqb k d with
  | Some e' => e' = e
  | None => SACCRService.ead e = 0
  end ->
  sum (map class_ead (dict_set AssetClass_eqb k v d))
  = sum (map class_ead d) + (SACCRService.ead v - SACCRService.ead e).
Proof.
  induction d as [| [k0 v0] d IH]; cbn [dict_get dict_set map].
  - intros H. rewrite sum_cons, sum_nil. unfold class_ead. cbn [snd]. lra.
  - destruct (AssetClass_eqb k k0); intros H.
    + subst v0. cbn [map]. rewrite !sum_cons. unfold class_ead at 1 3. cbn [snd]. lra.
    + cbn [map]. rewrite !sum_cons, IH by assumption. lra.
Qed.

(** The state that the loop over [add_ons.items()] keeps for every asset
    class: no replacement cost, and an exposure at default equal to the
    potential future exposure. *)
Definition class_invariant (res : SACCRService.ClassResult) : Prop :=
  SACCRService.replacement_cost res = 0 /\
  SACCRService.ead res = SACCRService.potential_future_exposure res.

Lemma update_class_invariant (ns : SACCR.NettingSet)
    (results results' : list (AssetClass * SACCRService.ClassResult))
    (kv : AssetClass * R) :
  SACCRService.update_class ns results kv = Ok results' ->
  Forall class_invariant (dict_values results) ->
  Forall class_invariant (dict_values results') /\
  sum (map class_ead results') = sum (map class_ead results) + snd kv.
Proof.
  destruct kv as [ac add_on]. unfold SACCRService.update_class. intros H Hinv.
  bind_inv_as H details Hd. injection H as <-.
  set (entry := match dict_get AssetClass_eqb ac results with
                | Some e => e
                | None => SACCRService.new_class_result ac
                end) in *.
  assert (Hentry : class_invariant entry).
  { unfold entry. destruct (dict_get AssetClass_eqb ac results) as [e |] eqn:E.
    - apply dict_get_In in E. rewrite Forall_forall in Hinv. apply Hinv.
      unfold dict_values. now apply (in_map snd) in E.
    - split; reflexivity. }
  split.
  - apply dict_set_Forall; [| assumption].
    destruct Hentry as [Hrc Head]. split; cbn; [assumption | lra].
  - rewrite (class_ead_set ac entry).
    + cbn [SACCRService.ead snd]. lra.
    + unfold entry. destruct (dict_get AssetClass_eqb ac results); reflexivity.
Qed.

Lemma update_classes_invariant (ns : SACCR.NettingSet)
    (items : list (AssetClass * R))
    (results results' : list (AssetClass * SACCRService.ClassResult)) :
  SACCRService.update_classes ns results items = Ok results' ->
  Forall class_invariant (dict_values results) ->
  Forall class_invariant (dict_values results') /\
  sum (map class_ead results') = sum (map class_ead results) + sum (dict_values items).
Proof.
  revert results. induction items as [| kv items IH]; intros results H Hinv;
    cbn [SACCRService.update_classes] in H.
  - injection H as <-. split; [assumption |]. cbn [dict_values map]. rewrite sum_nil. lra.
  - bind_inv_as H results1 H1.
    destruct (update_class_invariant _ _ _ _ H1 Hinv) as [Hinv1 Hsum1].
    destruct (IH _ H Hinv1) as [Hinv' Hsum'].
    split; [assumption |]. rewrite Hsum', Hsum1. destruct kv as [k v].
    rewrite sum_dict_values_cons. cbn [snd]. lra.
Qed.

Lemma saccr_process_netting_sets_classes (l : list SACCR.NettingSet)
    (st st' : SACCRService.Totals) :
  SACCRService.process_netting_sets st l = Ok st' ->
  Forall class_invariant (dict_values (SACCRService.acc_asset_class_results st)) ->
  exists pfes : list (R * list (AssetClass * R)),
    mapM SACCR.calculate_potential_future_exposure l = Ok pfes /\
    Forall class_invariant (dict_values (SACCRService.acc_asset_class_results st')) /\
    sum (map class_ead (SACCRService.acc_asset_class_results st'))
    = sum (map class_ead (SACCRService.acc_asset_class_results st))
      + sum (map (fun p => sum (dict_values (snd p))) pfes).
Proof.
  revert st. induction l as [| ns l IH]; intros st H Hinv;
    cbn [SACCRService.process_netting_sets] in H.
  - injection H as <-. exists []. cbn [mapM map]. rewrite sum_nil.
    repeat split; [assumption | lra].
  - bind_inv_as H st1 Hst1. unfold SACCRService.process_netting_set in Hst1.
    bind_inv_as Hst1 rc Hrc. bind_inv_as Hst1 r Hr. destruct r as [pfe add_ons].
    bind_inv_as Hst1 classes Hcl. injection Hst1 as <-.
    destruct (update_classes_invariant _ _ _ _ Hcl Hinv) as [Hinv1 Hsum1].
    destruct (IH _ H Hinv1) as (pfes & Hpfes & Hinv' & Hsum').
    cbn [SACCRService.acc_asset_class_results] in Hsum'.
    exists ((pfe, add_ons) :: pfes). cbn [mapM]. rewrite Hr, Hpfes. cbn [bind].
    repeat split; [assumption |].
    cbn [map snd]. rewrite sum_cons, Hsum', Hsum1. lra.
Qed.

(** The figures that [calculate_saccr] keeps per asset class carry no
    replacement cost and no multiplier: the replacement cost stays 0, the
    exposure at default equals the potential future exposure, and over the
    asset classes they add up to the plain add-ons of the netting sets. *)
Lemma saccr_asset_class_results (netting_sets : list SACCR.NettingSet)
    (st : SACCRService.Totals) :
  SACCRService.accumulate_netting_sets netting_sets = Ok st ->
  (forall (ac : AssetClass) (res : SACCRService.ClassResult),
      dict_get AssetClass_eqb ac (SACCRService.acc_asset_class_results st) = Some res ->
      SACCRService.replacement_cost res = 0 /\
      SACCRService.ead res = SACCRService.potential_future_exposure res) /\
  exists pfes : list (R * list (AssetClass * R)),
    mapM SACCR.calculate_potential_future_exposure netting_sets = Ok pfes /\
    sum (map (fun kv => SACCRService.ead (snd kv))
             (SACCRService.acc_asset_class_results st))
    = sum (map (fun p => sum (dict_values (snd p))) pfes).
Proof.
  unfold SACCRService.accumulate_netting_sets. intros Hst.
  destruct (saccr_process_netting_sets_classes _ _ _ Hst) as (pfes & Hpfes & Hinv & Hsum).
  { constructor. }
  split.
  - intros ac res Hget. apply dict_get_In in Hget.
    rewrite Forall_forall in Hinv. apply (Hinv res).
    unfold dict_values. now apply (in_map snd) in Hget.
  - exists pfes. split; [assumption |].
    cbn [SACCRService.acc_asset_class_results SACCRService.initial_totals map] in Hsum.
    rewrite sum_nil in Hsum. unfold class_ead in Hsum. lra.
Qed.

(** *** The multiplier *)

(** With a total add-on that is not negative, the potential future exposure
    of a netting set lies between the add-on scaled by the least multiplier
    [0.05 + 0.95 / e] and the add-on itself. *)
Lemma saccr_pfe_bounds (ns : SACCR.NettingSet) (pfe : R)
    (add_ons : list (AssetClass * R)) :
  SACCR.calculate_potential_future_exposure ns = Ok (pfe, add_ons) ->
  0 <= sum (dict_values add_ons) ->
  (0.05 + 0.95 * exp (- 1)) * sum (dict_values add_ons) <= pfe <= sum (dict_values add_ons).
Proof.
  unfold SACCR.calculate_potential_future_exposure. intros H Hpos.
  bind_inv_as H a Ha. bind_inv_as H rc Hrc. injection H as <- <-.
  apply replacement_cost_nonneg in Hrc.
  set (total := sum (dict_values a)) in *.
  pose proof (exp_pos (- 1)) as He.
  assert (He1 : exp (- 1) <= 1).
  { rewrite <- exp_0. apply Rlt_le, exp_increasing. lra. }
  destruct (Req_dec total 0) as [Hz | Hnz].
  - rewrite Hz, SACCR_multiplier_zero. lra.
  - rewrite SACCR_multiplier_nonzero by assumption.
    assert (Hq : 0 <= rc / (2 * total)).
    { apply Rmult_le_pos; [assumption |]. apply Rlt_le, Rinv_0_lt_compat. lra. }
    assert (Hx : 0 <= Rmin 1 (rc / (2 * total)) <= 1).
    { split; [apply Rmin_glb; lra | apply Rmin_l]. }
    generalize dependent (Rmin 1 (rc / (2 * total))). intros x Hx.
    assert (Hlo : exp (- 1) <= exp (- x)).
    { destruct (Req_dec x 1) as [-> | Hne]; [right; f_equal; lra |].
      apply Rlt_le, exp_increasing. lra. }
    assert (Hhi : exp (- x) <= 1).
    { destruct (Req_dec x 0) as [-> | Hne]; [rewrite Ropp_0, exp_0; lra |].
      rewrite <- exp_0. apply Rlt_le, exp_increasing. lra. }
    assert (Ht : 0 < total) by lra.
    split; nra.
Qed.

(** *** The calculation on one interest rate swap *)

Lemma swap_1m_3y_detail :
  exists d, SACCRService.transaction_detail swap_1m_3y = Ok d.
Proof.
  unfold SACCRService.transaction_detail, SACCR.calculate_supervisory_delta,
    SACCR.calculate_maturity_factor.
  cbn [SACCR.supervisory_delta SACCR.transaction_type SACCR.maturity_factor
       SACCR.maturity swap_1m_3y is_option_like negb bind].
  rewrite sqrt_Rmin_3_1. cbn [bind]. eexists. reflexivity.
Qed.

Lemma ns_swap_accumulated :
  exists st, SACCRService.accumulate_netting_sets [ns_swap] = Ok st.
Proof.
  destruct swap_1m_3y_detail as (d & Hd).
  unfold SACCRService.accumulate_netting_sets.
  cbn [SACCRService.process_netting_sets].
  unfold SACCRService.process_netting_set.
  rewrite ns_swap_replacement_cost, ns_swap_pfe. cbn [bind].
  cbn [SACCRService.acc_asset_class_results SACCRService.initial_totals
       SACCRService.update_classes].
  unfold SACCRService.update_class.
  cbn [dict_get SACCR.transactions ns_swap SACCRService.append_details
       SACCR.asset_class swap_1m_3y AssetClass_eqb].
  fold swap_1m_3y. rewrite Hd. cbn [bind]. eexists. reflexivity.
Qed.

Lemma saccr_totals_witness :
  exists st,
    SACCRService.accumulate_netting_sets [ns_swap] = Ok st /\
    0 <= SACCRService.acc_total_replacement_cost st.
Proof.
  destruct ns_swap_accumulated as (st & Hst). exists st. split; [exact Hst |].
  destruct (saccr_totals [ns_swap] st Hst) as (_ & _ & _ & _ & _ & _ & _ & H).
  exact H.
Defined.

Lemma saccr_asset_class_results_witness :
  exists st,
    SACCRService.accumulate_netting_sets [ns_swap] = Ok st /\
    forall (ac : AssetClass) (res : SACCRService.ClassResult),
      dict_get AssetClass_eqb ac (SACCRService.acc_asset_class_results st) = Some res ->
      SACCRService.replacement_cost res = 0 /\
      SACCRService.ead res = SACCRService.potential_future_exposure res.
Proof.
  destruct ns_swap_accumulated as (st & Hst). exists st. split; [exact Hst |].
  exact (proj1 (saccr_asset_class_results [ns_swap] st Hst)).
Defined.

Lemma saccr_pfe_bounds_witness :
  SACCR.calculate_potential_future_exposure ns_swap
  = Ok (SACCR.multiplier 50000 5000 * 5000, [(INTEREST_RATE, 5000)]) /\
  0 <= sum (dict_values [(INTEREST_RATE, 5000)]) /\
  (0.05 + 0.95 * exp (- 1)) * sum (dict_values [(INTEREST_RATE, 5000)])
  <= SACCR.multiplier 50000 5000 * 5000
  <= sum (dict_values [(INTEREST_RATE, 5000)]).
Proof.
  assert (H : 0 <= sum (dict_values [(INTEREST_RATE, 5000)]))
    by (rewrite sum_single_add_on; lra).
  split; [exact ns_swap_pfe |]. split; [exact H |].
  exact (saccr_pfe_bounds ns_swap _ _ ns_swap_pfe H).
Defined.

(** ** Time points of the exposure profile *)

Lemma py_float_error (s : string) (e : exn) :
  PFEService.py_float s = Raise e -> e = ValueError.
Proof.
  unfold PFEService.py_float. destruct s as [| c s]; [congruence |].
  destruct (PFEService.digits_value (String c s) 0); congruence.
Qed.

Lemma last_char_empty (s : string) :
  PFEService.last_char s = Raise IndexError -> s = EmptyString.
Proof.
  induction s as [| c s IH]; [reflexivity |].
  cbn [PFEService.last_char]. destruct s as [| c' s']; [discriminate |].
  intros H. apply IH in H. discriminate.
Qed.

Lemma last_char_error (s : string) (e : exn) :
  PFEService.last_char s = Raise e -> e = IndexError.
Proof.
  induction s as [| c s IH]; cbn [PFEService.last_char]; [congruence |].
  destruct s as [| c' s']; [discriminate | exact IH].
Qed.

(** A time point whose last character is none of [d], [w], [m], [y], the
    empty string included, is rejected with a [ValueError]. *)
Lemma time_point_unit_error (tp : string) :
  PFEService.last_char tp <> Ok "d"%string ->
  PFEService.last_char tp <> Ok "w"%string ->
  PFEService.last_char tp <> Ok "m"%string ->
  PFEService.last_char tp <> Ok "y"%string ->
  PFEService.time_point_to_years tp = Raise ValueError.
Proof.
  intros Hd Hw Hm Hy. unfold PFEService.time_point_to_years.
  destruct (PFEService.py_float (PFEService.but_last tp)) as [v | e] eqn:Ev; cbn [bind].
  - destruct (PFEService.last_char tp) as [u | e] eqn:Eu; cbn [bind].
    + destruct (String.eqb_spec u "d"); [congruence |].
      destruct (String.eqb_spec u "w"); [congruence |].
      destruct (String.eqb_spec u "m"); [congruence |].
      destruct (String.eqb_spec u "y"); [congruence |].
      reflexivity.
    + pose proof (last_char_error _ _ Eu). subst e.
      apply last_char_empty in Eu. subst tp. discriminate.
  - now rewrite (py_float_error _ _ Ev).
Qed.

Lemma time_point_unit_error_witness :
  PFEService.last_char "10q" <> Ok "d"%string /\
  PFEService.last_char "10q" <> Ok "w"%string /\
  PFEService.last_char "10q" <> Ok "m"%string /\
  PFEService.last_char "10q" <> Ok "y"%string /\
  PFEService.time_point_to_years "10q" = Raise ValueError.
Proof.
  assert (H1 : PFEService.last_char "10q" <> Ok "d"%string) by discriminate.
  assert (H2 : PFEService.last_char "10q" <> Ok "w"%string) by discriminate.
  assert (H3 : PFEService.last_char "10q" <> Ok "m"%string) by discriminate.
  assert (H4 : PFEService.last_char "10q" <> Ok "y"%string) by discriminate.
  repeat (split; [assumption |]).
  exact (time_point_unit_error "10q" H1 H2 H3 H4).
Defined.

Lemma but_last_append (s : string) (c : Ascii.ascii) :
  PFEService.but_last (s ++ String c EmptyString) = s.
Proof.
  induction s as [| c0 s IH]; [reflexivity |].
  cbn [append PFEService.but_last]. rewrite IH.
  destruct (s ++ String c EmptyString)%string eqn:E; [| reflexivity].
  destruct s; discriminate.
Qed.

Lemma last_char_append (s : string) (c : Ascii.ascii) :
  PFEService.last_char (s ++ String c EmptyString) = Ok (String c EmptyString).
Proof.
  induction s as [| c0 s IH]; [reflexivity |].
  cbn [append PFEService.last_char]. rewrite IH.
  destruct (s ++ String c EmptyString)%string eqn:E; [| reflexivity].
  destruct s; discriminate.
Qed.

(** The years of a numeral followed by a unit: days count 365 to the
    year, weeks 52 and months 12. *)
Lemma time_point_years (s : string) (n : nat) :
  s <> EmptyString ->
  PFEService.digits_value s 0 = Some n ->
  PFEService.time_point_to_years (s ++ "d") = Ok (INR n / 365) /\
  PFEService.time_point_to_years (s ++ "w") = Ok (INR n / 52) /\
  PFEService.time_point_to_years (s ++ "m") = Ok (INR n / 12) /\
  PFEService.time_point_to_years (s ++ "y") = Ok (INR n).
Proof.
  intros Hne Hn.
  assert (Hf : PFEService.py_float s = Ok (INR n)).
  { unfold PFEService.py_float. destruct s; [contradiction |]. now rewrite Hn. }
  unfold PFEService.time_point_to_years.
  rewrite !but_last_append, !last_char_append, Hf. cbn [bind].
  repeat split; reflexivity.
Qed.

Lemma time_point_years_witness :
  "26"%string <> EmptyString /\
  PFEService.digits_value "26" 0 = Some 26%nat /\
  PFEService.time_point_to_years "26w" = Ok (INR 26 / 52).
Proof.
  assert (H1 : "26"%string <> EmptyString) by discriminate.
  assert (H2 : PFEService.digits_value "26" 0 = Some 26%nat) by reflexivity.
  split; [exact H1 |]. split; [exact H2 |].
  exact (proj1 (proj2 (time_point_years "26" 26 H1 H2))).
Defined.

(** ** Exposure profiles *)

(** The time points of every horizon, with their years. *)
Definition horizon_points (h : PFE.TimeHorizon) : list (string * R) :=
  match h with
  | PFE.ONE_WEEK | PFE.ONE_MONTH =>
      [("1d", 1 / 365); ("1w", 1 / 52); ("2w", 2 / 52); ("3w", 3 / 52); ("1m", 1 / 12)]
  | PFE.THREE_MONTH =>
      [("1d", 1 / 365); ("1w", 1 / 52); ("2w", 2 / 52); ("1m", 1 / 12);
       ("2m", 2 / 12); ("3m", 3 / 12)]
  | PFE.SIX_MONTH | PFE.ONE_YEAR =>
      [("1d", 1 / 365); ("1w", 1 / 52); ("1m", 1 / 12); ("3m", 3 / 12);
       ("6m", 6 / 12); ("9m", 9 / 12); ("1y", 1)]
  | PFE.TWO_YEAR =>
      [("1d", 1 / 365); ("1m", 1 / 12); ("3m", 3 / 12); ("6m", 6 / 12);
       ("1y", 1); ("2y", 2)]
  | PFE.FIVE_YEAR =>
      [("1d", 1 / 365); ("1m", 1 / 12); ("3m", 3 / 12); ("6m", 6 / 12);
       ("1y", 1); ("2y", 2); ("3y", 3); ("5y", 5)]
  end%string.

(** The profile entry of a time point that lies [y] years ahead. *)
Definition profile_point (replacement_cost time_horizon_years pfe : R)
    (p : string * R) : PFEService.ExposureProfile :=
  let '(tp, y) := p in
  {| PFEService.time_point := tp;
     PFEService.expected_exposure := replacement_cost * exp (- 2 * y);
     PFEService.potential_future_exposure :=
       pfe * sqrt (y / time_horizon_years)
       * (if Rlt_dec y time_horizon_years
          then 4 * y * (1 - y / time_horizon_years) else 0) |}.

Lemma TIME_HORIZON_YEARS_pos (h : PFE.TimeHorizon) : 0 < PFE.TIME_HORIZON_YEARS h.
Proof. destruct h; cbn; lra. Qed.

Ltac time_point_value :=
  unfold PFEService.time_point_to_years, PFEService.py_float;
  cbn [PFEService.but_last PFEService.last_char PFEService.digits_value];
  match goal with
  | |- context [PFEService.digit_of ?c] =>
      let v := eval vm_compute in (PFEService.digit_of c) in
      change (PFEService.digit_of c) with v
  end;
  cbn; f_equal; lra.

Lemma time_point_values :
  Forall (fun p => PFEService.time_point_to_years (fst p) = Ok (snd p))
    [("1d", 1 / 365); ("1w", 1 / 52); ("2w", 2 / 52); ("3w", 3 / 52);
     ("1m", 1 / 12); ("2m", 2 / 12); ("3m", 3 / 12); ("6m", 6 / 12);
     ("9m", 9 / 12); ("1y", 1); ("2y", 2); ("3y", 3); ("5y", 5)]%string.
Proof.
  repeat (constructor; [cbn [fst snd]; time_point_value |]). constructor.
Qed.

Lemma horizon_points_years (h : PFE.TimeHorizon) :
  Forall (fun p => PFEService.time_point_to_years (fst p) = Ok (snd p) /\ 0 <= snd p)
         (horizon_points h).
Proof.
  pose proof time_point_values as H. rewrite Forall_forall in H.
  apply Forall_forall. intros p Hp. split.
  - apply H. destruct h; cbn in Hp |- *; intuition.
  - destruct h; cbn in Hp;
      repeat (destruct Hp as [<- | Hp]; [cbn; lra |]); contradiction.
Qed.

Lemma time_points_of_horizon (h : PFE.TimeHorizon) :
  PFEService.time_points_of (PFE.TIME_HORIZON_YEARS h) = Ok (map fst (horizon_points h)).
Proof.
  pose proof time_point_values as H. rewrite Forall_forall in H.
  assert (Hv : forall tp y, In (tp, y)
                 [("1d", 1 / 365); ("1w", 1 / 52); ("2w", 2 / 52); ("3w", 3 / 52);
                  ("1m", 1 / 12); ("2m", 2 / 12); ("3m", 3 / 12); ("6m", 6 / 12);
                  ("9m", 9 / 12); ("1y", 1); ("2y", 2); ("3y", 3); ("5y", 5)]%string ->
               PFEService.time_point_to_years tp = Ok y).
  { intros tp y Hin. exact (H _ Hin). }
  unfold PFEService.time_points_of.
  destruct h; cbn [PFE.TIME_HORIZON_YEARS horizon_points map fst].
  1-5: rdec; reflexivity.
  all: destruct (Rle_dec _ (1 / 12)); [lra |];
       destruct (Rle_dec _ (3 / 12)); [lra |];
       destruct (Rle_dec _ 1); [lra |];
       cbn [PFEService.filterM];
       repeat (erewrite Hv by (cbn; intuition)); cbn [bind];
       rdec; reflexivity.
Qed.

Lemma exposure_point_value (rc T pfe : R) (p : string * R) :
  PFEService.time_point_to_years (fst p) = Ok (snd p) -> 0 <= snd p -> 0 < T ->
  PFEService.exposure_point rc T pfe (fst p) = Ok (profile_point rc T pfe p).
Proof.
  destruct p as [tp y]. cbn [fst snd]. intros Hy Hpos HT.
  unfold PFEService.exposure_point. rewrite Hy. cbn [bind].
  rewrite fdiv_Ok by lra. cbn [bind].
  rewrite py_sqrt_Ok by (apply Rmult_le_pos; [lra | apply Rlt_le, Rinv_0_lt_compat; lra]).
  cbn [bind]. unfold profile_point.
  destruct (Rlt_dec y T); cbn [bind]; reflexivity.
Qed.

Lemma exposure_points_value (rc T pfe : R) (ps : list (string * R)) :
  Forall (fun p => PFEService.time_point_to_years (fst p) = Ok (snd p) /\ 0 <= snd p) ps ->
  0 < T ->
  mapM (PFEService.exposure_point rc T pfe) (map fst ps)
  = Ok (map (profile_point rc T pfe) ps).
Proof.
  intros Hps HT. induction Hps as [| p ps [Hy Hpos] _ IH]; [reflexivity |].
  cbn [map mapM]. rewrite (exposure_point_value rc T pfe p Hy Hpos HT), IH. reflexivity.
Qed.

(** The profile of a horizon in closed form: generating it never fails. *)
Lemma generate_exposure_profile_value (ns : PFE.NettingSet) (h : PFE.TimeHorizon)
    (pfe : R) :
  PFEService.generate_exposure_profile ns h pfe
  = Ok (map (profile_point (PFE.calculate_replacement_cost ns)
                           (PFE.TIME_HORIZON_YEARS h) pfe)
            (horizon_points h)).
Proof.
  unfold PFEService.generate_exposure_profile.
  rewrite time_points_of_horizon. cbn [bind].
  apply exposure_points_value;
    [apply horizon_points_years | apply TIME_HORIZON_YEARS_pos].
Qed.

Lemma PFE_replacement_cost_nonneg (ns : PFE.NettingSet) :
  0 <= PFE.calculate_replacement_cost ns.
Proof. unfold PFE.calculate_replacement_cost. apply Rmax_r. Qed.

Lemma profile_factor_bounds (y T : R) :
  0 <= y -> 0 < T ->
  0 <= sqrt (y / T) * (if Rlt_dec y T then 4 * y * (1 - y / T) else 0) <= T.
Proof.
  intros Hy HT.
  assert (Hq : 0 <= y / T)
    by (apply Rmult_le_pos; [lra | apply Rlt_le, Rinv_0_lt_compat; lra]).
  pose proof (sqrt_pos (y / T)) as Hs.
  destruct (Rlt_dec y T) as [Hlt | Hge]; [| lra].
  assert (Hq1 : y / T <= 1).
  { apply Rmult_le_reg_r with T; [assumption |].
    unfold Rdiv. rewrite Rmult_assoc, Rinv_l by lra. lra. }
  assert (Hs1 : sqrt (y / T) <= 1).
  { rewrite <- sqrt_1. apply sqrt_le_1_alt. assumption. }
  set (q := y / T) in *.
  assert (Hy' : y = q * T) by (unfold q; field; lra).
  assert (Hf : 0 <= 4 * y * (1 - q) <= T).
  { assert (Hsq : 0 <= T * ((1 - 2 * q) * (1 - 2 * q)))
      by (apply Rmult_le_pos; [lra | apply Rle_0_sqr]).
    rewrite Hy'. split; [| lra].
    apply Rmult_le_pos; [| lra]. nra. }
  split; nra.
Qed.

(** Every entry of an exposure profile has an expected exposure between 0
    and the replacement cost, and a potential future exposure that is the
    given PFE scaled by a factor between 0 and the horizon in years: for a
    horizon below one year the profile stays below the PFE it was built
    from.  Its last time point lies at or past the horizon, where the
    factor is 0. *)
Lemma exposure_profile_bounds (ns : PFE.NettingSet) (h : PFE.TimeHorizon) (pfe : R) :
  exists prof : list PFEService.ExposureProfile,
    PFEService.generate_exposure_profile ns h pfe = Ok prof /\
    map PFEService.time_point prof = map fst (horizon_points h) /\
    Forall (fun pt =>
              0 <= PFEService.expected_exposure pt <= PFE.calculate_replacement_cost ns /\
              Rabs (PFEService.potential_future_exposure pt)
              <= Rabs pfe * PFE.TIME_HORIZON_YEARS h)
           prof /\
    exists pt, last prof pt = pt /\ In pt prof /\
               PFEService.potential_future_exposure pt = 0.
Proof.
  pose proof (TIME_HORIZON_YEARS_pos h) as HT.
  pose proof (PFE_replacement_cost_nonneg ns) as Hrc.
  eexists. split; [apply generate_exposure_profile_value |].
  split; [| split].
  - rewrite map_map. apply map_ext. intros [tp y]. reflexivity.
  - apply Forall_forall. intros pt Hpt. apply in_map_iff in Hpt.
    destruct Hpt as ([tp y] & <- & Hin).
    pose proof (horizon_points_years h) as Hys. rewrite Forall_forall in Hys.
    destruct (Hys _ Hin) as [_ Hy]. cbn [snd] in Hy.
    cbn [profile_point PFEService.expected_exposure PFEService.potential_future_exposure].
    split.
    + pose proof (exp_pos (- 2 * y)) as He.
      assert (He1 : exp (- 2 * y) <= 1).
      { destruct (Req_dec y 0) as [-> | Hne].
        - replace (- 2 * 0) with 0 by lra. rewrite exp_0. lra.
        - rewrite <- exp_0. apply Rlt_le, exp_increasing. lra. }
      split; nra.
    + pose proof (profile_factor_bounds y _ Hy HT) as Hf.
      rewrite Rmult_assoc, Rabs_mult.
      rewrite (Rabs_right (sqrt _ * _)) by lra.
      apply Rmult_le_compat_l; [apply Rabs_pos | lra].
  - set (rc := PFE.calculate_replacement_cost ns).
    destruct h; cbn [horizon_points map last PFE.TIME_HORIZON_YEARS];
      (eexists; split; [reflexivity |]; split; [cbn; intuition |]);
      cbn [profile_point PFEService.potential_future_exposure];
      rdec; lra.
Qed.

(** ** The exposure profile of [calculate_pfe] *)

Lemma PFEService_pfe_by_method_value (m : PFE.CalculationMethod) (ns : PFE.NettingSet)
    (h : PFE.TimeHorizon) (c : PFE.ConfidenceLevel) :
  PFEService.pfe_by_method m ns h c
  = (r <- PFE.pfe_by_method m ns h c ;;
     Ok (fst r, snd r,
         map (profile_point (PFE.calculate_replacement_cost ns)
                            (PFE.TIME_HORIZON_YEARS h) (fst r))
             (horizon_points h))).
Proof.
  destruct m; cbn [PFEService.pfe_by_method PFE.pfe_by_method];
    unfold PFEService.calculate_potential_future_exposure_internal_model,
      PFEService.calculate_potential_future_exposure_historical,
      PFE.calculate_potential_future_exposure_internal_model,
      PFE.calculate_potential_future_exposure_historical;
    destruct (PFE.calculate_potential_future_exposure_sa_ccr ns h c) as [[pfe add_ons] | e];
    cbn [bind fst snd]; try reflexivity;
    rewrite generate_exposure_profile_value; reflexivity.
Qed.

Lemma profile_point_add (rc rc' T pfe pfe' : R) (p : string * R) :
  {| PFEService.time_point := PFEService.time_point (profile_point rc T pfe p);
     PFEService.expected_exposure :=
       PFEService.expected_exposure (profile_point rc T pfe p)
       + PFEService.expected_exposure (profile_point rc' T pfe' p);
     PFEService.potential_future_exposure :=
       PFEService.potential_future_exposure (profile_point rc T pfe p)
       + PFEService.potential_future_exposure (profile_point rc' T pfe' p) |}
  = profile_point (rc + rc') T (pfe + pfe') p.
Proof.
  destruct p as [tp y]. unfold profile_point.
  cbn [PFEService.time_point PFEService.expected_exposure
       PFEService.potential_future_exposure].
  f_equal; ring.
Qed.

(** Adding the profile of one netting set to the stored one gives the
    profile of the two sets taken together; the index never runs past the
    stored profile. *)
Lemma add_profiles_points (rc rc' T pfe pfe' : R) (ps : list (string * R)) :
  PFEService.add_profiles (map (profile_point rc T pfe) ps)
                          (map (profile_point rc' T pfe') ps)
  = Ok (map (profile_point (rc + rc') T (pfe + pfe')) ps).
Proof.
  induction ps as [| p ps IH]; [reflexivity |].
  cbn [map PFEService.add_profiles]. rewrite IH. cbn [bind].
  now rewrite profile_point_add.
Qed.

(** What the loop of [calculate_pfe] keeps true of its profile: nothing is
    stored before the first netting set, and afterwards the stored profile
    is the profile of the running totals. *)
Definition profile_invariant (h : PFE.TimeHorizon) (st : PFEService.State) : Prop :=
  PFEService.exposure_profiles st
  = map (profile_point (PFE.acc_total_expected_exposure (PFEService.totals st))
                       (PFE.TIME_HORIZON_YEARS h)
                       (PFE.acc_total_pfe (PFEService.totals st)))
        (horizon_points h).

Lemma horizon_points_nonempty (h : PFE.TimeHorizon) : horizon_points h <> [].
Proof. destruct h; discriminate. Qed.

Lemma map_nonempty {A B : Type} (f : A -> B) (l : list A) : l <> [] -> map f l <> [].
Proof. destruct l; [contradiction | discriminate]. Qed.

Lemma store_or_add (stored new : list PFEService.ExposureProfile) :
  stored <> [] ->
  match stored with
  | [] => Ok new
  | _ :: _ => PFEService.add_profiles stored new
  end = PFEService.add_profiles stored new.
Proof. destruct stored; [contradiction | reflexivity]. Qed.

Lemma PFEService_process_netting_set_value (input : PFE.PFEInput)
    (st : PFEService.State) (ns : PFE.NettingSet) :
  let h := PFE.time_horizon input in
  (PFEService.exposure_profiles st = [] /\
   PFE.acc_total_pfe (PFEService.totals st) = 0 /\
   PFE.acc_total_expected_exposure (PFEService.totals st) = 0) \/
  profile_invariant h st ->
  PFEService.process_netting_set input st ns
  = (t <- PFE.process_netting_set input (PFEService.totals st) ns ;;
     Ok {| PFEService.totals := t;
           PFEService.exposure_profiles :=
             map (profile_point (PFE.acc_total_expected_exposure t)
                                (PFE.TIME_HORIZON_YEARS h) (PFE.acc_total_pfe t))
                 (horizon_points h) |}).
Proof.
  intros h Hinv.
  unfold PFEService.process_netting_set, PFE.process_netting_set.
  rewrite PFEService_pfe_by_method_value. fold h.
  destruct (PFE.pfe_by_method (PFE.calculation_method input) ns h
              (PFE.confidence_level input)) as [[pfe add_ons] | e];
    cbn [bind fst snd]; [| reflexivity].
  cbn [PFE.acc_total_pfe PFE.acc_total_expected_exposure].
  destruct Hinv as [(Hnil & Hp & He) | Hinv].
  - rewrite Hnil, Hp, He. cbn [bind]. rewrite !Rplus_0_l. reflexivity.
  - unfold profile_invariant in Hinv. rewrite Hinv.
    rewrite store_or_add by (apply map_nonempty, horizon_points_nonempty).
    rewrite add_profiles_points. cbn [bind]. reflexivity.
Qed.

Lemma PFEService_process_netting_sets_value (input : PFE.PFEInput)
    (l : list PFE.NettingSet) (st : PFEService.State) :
  let h := PFE.time_horizon input in
  profile_invariant h st ->
  PFEService.process_netting_sets input st l
  = (t <- PFE.process_netting_sets input (PFEService.totals st) l ;;
     Ok {| PFEService.totals := t;
           PFEService.exposure_profiles :=
             map (profile_point (PFE.acc_total_expected_exposure t)
                                (PFE.TIME_HORIZON_YEARS h) (PFE.acc_total_pfe t))
                 (horizon_points h) |}).
Proof.
  intros h. revert st. induction l as [| ns l IH]; intros st Hinv;
    cbn [PFEService.process_netting_sets PFE.process_netting_sets].
  - cbn [bind]. destruct st as [t prof]. unfold profile_invariant in Hinv.
    cbn [PFEService.totals PFEService.exposure_profiles] in *. now rewrite Hinv.
  - rewrite PFEService_process_netting_set_value by (right; exact Hinv). fold h.
    destruct (PFE.process_netting_set input (PFEService.totals st) ns) as [t | e];
      cbn [bind]; [| reflexivity].
    rewrite IH by reflexivity. reflexivity.
Qed.

(** The full entry point against the one without the profile: the same
    result, and for a non-empty input the profile of its totals. *)
Lemma PFEService_calculate_pfe_value (input : PFE.PFEInput) :
  PFEService.calculate_pfe input
  = (r <- PFE.calculate_pfe input ;;
     Ok (r,
         match PFE.netting_sets input with
         | [] => []
         | _ :: _ =>
             map (profile_point (PFE.total_expected_exposure r)
                                (PFE.TIME_HORIZON_YEARS (PFE.time_horizon input))
                                (PFE.total_pfe r))
                 (horizon_points (PFE.time_horizon input))
         end)).
Proof.
  unfold PFEService.calculate_pfe, PFE.calculate_pfe.
  destruct (PFE.netting_sets input) as [| ns l].
  - reflexivity.
  - cbn [PFEService.process_netting_sets PFE.process_netting_sets].
    rewrite PFEService_process_netting_set_value
      by (left; repeat split; reflexivity).
    cbn [PFEService.totals].
    destruct (PFE.process_netting_set input _ ns) as [t | e]; cbn [bind]; [| reflexivity].
    rewrite PFEService_process_netting_sets_value by reflexivity.
    cbn [PFEService.totals].
    destruct (PFE.process_netting_sets input t l) as [t' | e]; cbn [bind]; reflexivity.
Qed.

(** The exposure profile that [calculate_pfe] reports is the profile of
    its totals: adding the profiles of the netting sets entry by entry
    gives what the profile loop yields for the total expected exposure and
    the total PFE.  Without netting sets the profile is empty. *)
Lemma exposure_profile_of_totals (input : PFE.PFEInput) (r : PFE.PFEResult)
    (prof : list PFEService.ExposureProfile) :
  PFEService.calculate_pfe input = Ok (r, prof) ->
  match PFE.netting_sets input with
  | [] => prof = []
  | _ :: _ =>
      let T := PFE.TIME_HORIZON_YEARS (PFE.time_horizon input) in
      (time_points <- PFEService.time_points_of T ;;
       mapM (PFEService.exposure_point (PFE.total_expected_exposure r) T
               (PFE.total_pfe r)) time_points)
      = Ok prof
  end.
Proof.
  rewrite PFEService_calculate_pfe_value. intros H. bind_inv_as H r' Hr.
  injection H as -> <-.
  destruct (PFE.netting_sets input); [reflexivity |].
  cbv zeta. rewrite time_points_of_horizon. cbn [bind].
  apply exposure_points_value;
    [apply horizon_points_years | apply TIME_HORIZON_YEARS_pos].
Qed.

(** ** When the PFE calculation fails *)


Lemma mapM_returns {A B : Type} (f : A -> result B) (l : list A) :
  (forall a, In a l -> exists b, f a = Ok b) -> exists bs, mapM f l = Ok bs.
Proof.
  induction l as [| x l IH]; intros H; cbn [mapM]; [eauto |].
  destruct (H x (or_introl eq_refl)) as (b & ->). cbn [bind].
  destruct IH as (bs & ->); [intros a Ha; apply H; now right |].
  cbn [bind]. eauto.
Qed.

(** The members of a group come from the list and have the asset class of
    the group. *)
Lemma group_by_asset_class_members {A : Type} (f : A -> AssetClass) (l : list A)
    (k : AssetClass) (xs : list A) (x : A) :
  In (k, xs) (group_by_asset_class f l) -> In x xs -> In x l /\ f x = k.
Proof.
  unfold group_by_asset_class.
  assert (H : forall d,
             (forall k xs x, In (k, xs) d -> In x xs -> In x l /\ f x = k) ->
             forall l', incl l' l ->
             forall k xs x,
               In (k, xs) (fold_left (fun d x => group_append (f x) x d) l' d) ->
               In x xs -> In x l /\ f x = k).
  { intros d Hd l'. revert d Hd. induction l' as [| y l' IH]; intros d Hd Hincl;
      cbn [fold_left]; [exact Hd |].
    apply IH; [| intros z Hz; apply Hincl; now right].
    assert (Hy : In y l) by (apply Hincl; now left).
    clear IH. intros k0 xs0 x0 Hin Hx0. unfold group_append in Hin.
    destruct (dict_get AssetClass_eqb (f y) d) as [ys |] eqn:E.
    - destruct (dict_set_present (f y) (ys ++ [y]) ys d E) as (d1 & d2 & Hd12 & Hset).
      rewrite Hset in Hin. apply in_app_or in Hin.
      destruct Hin as [Hin | [Hin | Hin]].
      + apply (Hd k0 xs0); [rewrite Hd12; apply in_or_app; now left | assumption].
      + injection Hin as <- <-. apply in_app_or in Hx0.
        destruct Hx0 as [Hx0 | [<- | []]]; [| now split].
        apply (Hd (f y) ys); [rewrite Hd12; apply in_or_app; right; now left | assumption].
      + apply (Hd k0 xs0); [rewrite Hd12; apply in_or_app; right; now right | assumption].
    - rewrite (dict_set_absent _ _ _ E) in Hin. apply in_app_or in Hin.
      destruct Hin as [Hin | [Hin | []]].
      + now apply (Hd k0 xs0).
      + injection Hin as <- <-. destruct Hx0 as [<- | []]. now split. }
  intros Hin Hx. apply (H [] (fun _ _ _ F => False_ind _ F) l (incl_refl l) k xs x Hin Hx).
Qed.

(** A trade can be given a maturity factor: it has one of its own, or its
    maturity is not negative. *)
Definition valid_maturity (t : PFE.Trade) : Prop :=
  PFE.maturity_factor t <> None \/ 0 <= PFE.maturity t.

Lemma maturity_factor_returns (t : PFE.Trade) :
  valid_maturity t -> exists m, PFE.calculate_maturity_factor t = Ok m.
Proof.
  unfold PFE.calculate_maturity_factor. intros [H | H].
  - destruct (PFE.maturity_factor t); [eauto | contradiction].
  - destruct (PFE.maturity_factor t); [eauto |].
    rewrite py_sqrt_Ok; [eauto |].
    unfold Rdiv. rewrite Rinv_1, Rmult_1_r. apply Rmin_glb; lra.
Qed.



Lemma PFE_add_on_returns (ns : PFE.NettingSet) :
  (forall t, In t (PFE.trades ns) -> valid_maturity t) ->
  exists add_ons, PFE.calculate_add_on ns = Ok add_ons.
Proof.
  intros Hvalid. unfold PFE.calculate_add_on. apply mapM_returns.
  intros [k xs] Hin. unfold PFE.class_add_on.
  destruct (mapM_returns PFE.effective_notional_of xs) as (ens & ->).
  - intros t Ht. unfold PFE.effective_notional_of.
    destruct (maturity_factor_returns t) as (m & ->); [| cbn [bind]; eauto].
    apply Hvalid. exact (proj1 (group_by_asset_class_members _ _ _ _ _ Hin Ht)).
  - cbn [bind]. eauto.
Qed.



Lemma PFE_by_method_outcome (m : PFE.CalculationMethod) (ns : PFE.NettingSet)
    (h : PFE.TimeHorizon) (c : PFE.ConfidenceLevel) :
  match PFE.calculate_add_on ns with
  | Ok _ => exists r, PFE.pfe_by_method m ns h c = Ok r
  | Raise e => PFE.pfe_by_method m ns h c = Raise e
  end.
Proof.
  destruct m; cbn [PFE.pfe_by_method];
    unfold PFE.calculate_potential_future_exposure_internal_model,
      PFE.calculate_potential_future_exposure_historical,
      PFE.calculate_potential_future_exposure_sa_ccr;
    destruct (PFE.calculate_add_on ns); cbn [bind]; eauto.
Qed.

Lemma PFE_process_netting_sets_returns (input : PFE.PFEInput)
    (l : list PFE.NettingSet) (st : PFE.Totals) :
  (forall ns t, In ns l -> In t (PFE.trades ns) -> valid_maturity t) ->
  exists st', PFE.process_netting_sets input st l = Ok st'.
Proof.
  revert st. induction l as [| ns l IH]; intros st Hvalid;
    cbn [PFE.process_netting_sets]; [eauto |].
  unfold PFE.process_netting_set.
  pose proof (PFE_by_method_outcome (PFE.calculation_method input) ns
                (PFE.time_horizon input) (PFE.confidence_level input)) as Hm.
  destruct (PFE_add_on_returns ns) as (a & Ha);
    [intros t Ht; apply (Hvalid ns t); [now left | assumption] |].
  rewrite Ha in Hm. destruct Hm as ([pfe add_ons] & ->). cbn [bind].
  apply IH. intros ns' t Hns' Ht. apply (Hvalid ns' t); [now right | assumption].
Qed.




(** ** Totals and results per netting set *)

Lemma PFE_process_netting_sets_totals (input : PFE.PFEInput)
    (l : list PFE.NettingSet) (st st' : PFE.Totals) :
  PFE.process_netting_sets input st l = Ok st' ->
  exists results : list (R * list (AssetClass * R)),
    mapM (fun ns => PFE.pfe_by_method (PFE.calculation_method input) ns
                      (PFE.time_horizon input) (PFE.confidence_level input)) l
    = Ok results /\
    PFE.acc_total_pfe st' = PFE.acc_total_pfe st + sum (map fst results) /\
    PFE.acc_total_expected_exposure st'
    = PFE.acc_total_expected_exposure st + sum (map PFE.calculate_replacement_cost l).
Proof.
  revert st. induction l as [| ns l IH]; intros st H; cbn [PFE.process_netting_sets] in H.
  - injection H as <-. exists []. cbn [mapM map]. rewrite sum_nil.
    repeat split; lra.
  - bind_inv_as H st1 H1. unfold PFE.process_netting_set in H1.
    bind_inv_as H1 r Hr. destruct r as [pfe add_ons]. injection H1 as <-.
    destruct (IH _ H) as (results & Hres & Hp & He).
    cbn [PFE.acc_total_pfe PFE.acc_total_expected_exposure] in Hp, He.
    exists ((pfe, add_ons) :: results). cbn [mapM]. rewrite Hr, Hres. cbn [bind map fst].
    rewrite !sum_cons. repeat split; lra.
Qed.

(** The totals of [calculate_pfe] are the sums over the netting sets of
    the PFE of the chosen method and of the replacement cost, and the
    total expected exposure is never negative. *)
Lemma pfe_totals (input : PFE.PFEInput) (r : PFE.PFEResult) :
  PFE.calculate_pfe input = Ok r ->
  exists results : list (R * list (AssetClass * R)),
    mapM (fun ns => PFE.pfe_by_method (PFE.calculation_method input) ns
                      (PFE.time_horizon input) (PFE.confidence_level input))
         (PFE.netting_sets input)
    = Ok results /\
    PFE.total_pfe r = sum (map fst results) /\
    PFE.total_expected_exposure r
    = sum (map PFE.calculate_replacement_cost (PFE.netting_sets input)) /\
    0 <= PFE.total_expected_exposure r.
Proof.
  unfold PFE.calculate_pfe. intros H. bind_inv_as H st Hst. injection H as <-.
  destruct (PFE_process_netting_sets_totals _ _ _ _ Hst) as (results & Hres & Hp & He).
  cbn [PFE.acc_total_pfe PFE.acc_total_expected_exposure] in Hp, He.
  exists results. cbn [PFE.total_pfe PFE.total_expected_exposure].
  rewrite Hp, He, !Rplus_0_l. repeat split; try assumption.
  apply sum_nonneg, Forall_forall. intros x Hx. apply in_map_iff in Hx.
  destruct Hx as (ns & <- & _). apply PFE_replacement_cost_nonneg.
Qed.

Lemma PFE_process_netting_sets_app (input : PFE.PFEInput)
    (l1 l2 : list PFE.NettingSet) (st : PFE.Totals) :
  PFE.process_netting_sets input st (l1 ++ l2)
  = (st1 <- PFE.process_netting_sets input st l1 ;;
     PFE.process_netting_sets input st1 l2).
Proof.
  revert st. induction l1 as [| ns l1 IH]; intros st; [reflexivity |].
  cbn [app PFE.process_netting_sets].
  destruct (PFE.process_netting_set input st ns); cbn [bind]; [apply IH | reflexivity].
Qed.

Lemma PFE_results_other_ids (input : PFE.PFEInput) (l : list PFE.NettingSet)
    (st st' : PFE.Totals) (k : string) :
  PFE.process_netting_sets input st l = Ok st' ->
  Forall (fun ns => PFE.ns_id ns <> k) l ->
  dict_get String.eqb k (PFE.acc_netting_set_results st')
  = dict_get String.eqb k (PFE.acc_netting_set_results st).
Proof.
  revert st. induction l as [| ns l IH]; intros st H Hids;
    cbn [PFE.process_netting_sets] in H.
  - now injection H as <-.
  - inversion Hids as [| ? ? Hne Hrest]; subst.
    bind_inv_as H st1 H1. rewrite (IH _ H Hrest).
    unfold PFE.process_netting_set in H1. bind_inv_as H1 r Hr.
    destruct r as [pfe add_ons]. injection H1 as <-.
    cbn [PFE.acc_netting_set_results]. rewrite dict_get_set_string.
    destruct (String.eqb_spec k (PFE.ns_id ns)); [congruence | reflexivity].
Qed.

(** [netting_set_results] is keyed by the id of the netting set: a set
    whose id comes again later in the input is overwritten, and the entry
    of an id holds the PFE, the expected exposure and the add-ons of the
    last netting set that carries it, while the totals count every set. *)
Lemma netting_set_results_keep_last (input : PFE.PFEInput) (r : PFE.PFEResult)
    (before after : list PFE.NettingSet) (ns : PFE.NettingSet) :
  PFE.calculate_pfe input = Ok r ->
  PFE.netting_sets input = before ++ ns :: after ->
  Forall (fun ns' => PFE.ns_id ns' <> PFE.ns_id ns) after ->
  exists (pfe : R) (add_ons : list (AssetClass * R)),
    PFE.pfe_by_method (PFE.calculation_method input) ns
      (PFE.time_horizon input) (PFE.confidence_level input) = Ok (pfe, add_ons) /\
    dict_get String.eqb (PFE.ns_id ns) (PFE.netting_set_results r)
    = Some (pfe, PFE.calculate_replacement_cost ns, add_ons).
Proof.
  unfold PFE.calculate_pfe. intros H Hsplit Hafter. bind_inv_as H st Hst.
  injection H as <-. cbn [PFE.netting_set_results].
  rewrite Hsplit, PFE_process_netting_sets_app in Hst.
  bind_inv_as Hst st1 H1. cbn [PFE.process_netting_sets] in Hst.
  bind_inv_as Hst st2 H2.
  rewrite (PFE_results_other_ids _ _ _ _ _ Hst Hafter).
  unfold PFE.process_netting_set in H2. bind_inv_as H2 res Hres.
  destruct res as [pfe add_ons]. injection H2 as <-.
  exists pfe, add_ons. split; [assumption |].
  cbn [PFE.acc_netting_set_results]. rewrite dict_get_set_string.
  now rewrite String.eqb_refl.
Qed.

(** ** The total add-on over the trades *)

(** Grouping by asset class neither drops nor repeats an element. *)
Lemma group_by_asset_class_sum {A : Type} (f : A -> AssetClass) (psi : A -> R)
    (l : list A) :
  sum (map (fun kv => sum (map psi (snd kv))) (group_by_asset_class f l))
  = sum (map psi l).
Proof.
  unfold group_by_asset_class.
  assert (H : forall d,
             sum (map (fun kv => sum (map psi (snd kv)))
                      (fold_left (fun d x => group_append (f x) x d) l d))
             = sum (map (fun kv => sum (map psi (snd kv))) d) + sum (map psi l)).
  { induction l as [| x l IH]; intros d; cbn [fold_left map].
    - rewrite sum_nil. lra.
    - rewrite IH, sum_cons. unfold group_append.
      destruct (dict_get AssetClass_eqb (f x) d) as [xs |] eqn:E.
      + destruct (dict_set_present (f x) (xs ++ [x]) xs d E) as (d1 & d2 & Hd & ->).
        rewrite Hd, !map_app. cbn [map snd]. rewrite !sum_app, !sum_cons.
        rewrite map_app, sum_app. cbn [map]. rewrite sum_cons, sum_nil. lra.
      + rewrite (dict_set_absent _ _ _ E), map_app, sum_app.
        cbn [map snd]. rewrite !sum_cons, !sum_nil. lra. }
  rewrite H. cbn [map]. rewrite sum_nil. lra.
Qed.

Definition maturity_factor_value (t : PFE.Trade) : R :=
  match PFE.maturity_factor t with
  | Some m => m
  | None => sqrt (Rmin (PFE.maturity t) 1 / 1)
  end.

(** The effective notional of a trade: delta times notional times maturity
    factor. *)
Definition effective_notional_value (t : PFE.Trade) : R :=
  PFE.calculate_supervisory_delta t * PFE.notional t * maturity_factor_value t.

Lemma effective_notional_inv (t : PFE.Trade) (v : R) :
  PFE.effective_notional_of t = Ok v -> v = effective_notional_value t.
Proof.
  unfold PFE.effective_notional_of, effective_notional_value, maturity_factor_value,
    PFE.calculate_maturity_factor.
  intros H. bind_inv_as H mf Hmf. injection H as <-.
  destruct (PFE.maturity_factor t).
  - now injection Hmf as <-.
  - apply py_sqrt_Ok_inv in Hmf. now destruct Hmf as [_ ->].
Qed.

Lemma effective_notionals_inv (ts : list PFE.Trade) (ens : list R) :
  mapM PFE.effective_notional_of ts = Ok ens -> ens = map effective_notional_value ts.
Proof.
  intros H. apply mapM_Ok_Forall2 in H.
  induction H as [| t v ts ens Hv _ IH]; [reflexivity |].
  cbn [map]. now rewrite (effective_notional_inv t v Hv), IH.
Qed.

Lemma class_add_on_inv (group : AssetClass * list PFE.Trade) (a : AssetClass * R) :
  PFE.class_add_on group = Ok a ->
  a = (fst group,
       PFE.SUPERVISORY_FACTORS (fst group)
       * sum (map effective_notional_value (snd group))).
Proof.
  destruct group as [k xs]. unfold PFE.class_add_on. intros H.
  bind_inv_as H ens Hens. injection H as <-.
  rewrite (effective_notionals_inv _ _ Hens), fold_left_Rplus. cbn [fst snd].
  f_equal. lra.
Qed.

(** The add-ons of a netting set add up to the sum, over all its trades,
    of supervisory factor times delta times notional times maturity
    factor: the asset classes are simply added, and the correlation
    parameters of the service play no part. *)
Lemma pfe_total_add_on (ns : PFE.NettingSet) (add_ons : list (AssetClass * R)) :
  PFE.calculate_add_on ns = Ok add_ons ->
  sum (dict_values add_ons)
  = sum (map (fun t => PFE.SUPERVISORY_FACTORS (PFE.asset_class t)
                       * effective_notional_value t)
             (PFE.trades ns)).
Proof.
  unfold PFE.calculate_add_on. intros H.
  rewrite <- (group_by_asset_class_sum PFE.asset_class).
  set (groups := group_by_asset_class PFE.asset_class (PFE.trades ns)) in *.
  assert (Hmem : forall k xs x, In (k, xs) groups -> In x xs -> PFE.asset_class x = k).
  { intros k xs x Hin Hx.
    exact (proj2 (group_by_asset_class_members _ _ _ _ _ Hin Hx)). }
  apply mapM_Ok_Forall2 in H. clearbody groups.
  induction H as [| g a groups add_ons Ha _ IH]; [reflexivity |].
  cbn [map]. rewrite sum_cons. rewrite (class_add_on_inv g a Ha).
  rewrite sum_dict_values_cons.
  rewrite IH by (intros k xs x Hin; apply (Hmem k xs x); now right).
  f_equal. rewrite <- sum_map_mult_l. apply sum_map_ext. intros x Hx.
  destruct g as [k xs]. cbn [fst snd] in *.
  now rewrite (Hmem k xs x (or_introl eq_refl) Hx).
Qed.

(** ** Concrete inputs *)

Lemma PFE_calculate_pfe_returns (input : PFE.PFEInput) :
  (forall ns t, In ns (PFE.netting_sets input) -> In t (PFE.trades ns) ->
                valid_maturity t) ->
  exists r, PFE.calculate_pfe input = Ok r.
Proof.
  intros Hvalid. unfold PFE.calculate_pfe.
  destruct (PFE_process_netting_sets_returns input (PFE.netting_sets input)
              {| PFE.acc_total_pfe := 0; PFE.acc_total_expected_exposure := 0;
                 PFE.all_add_ons := []; PFE.acc_netting_set_results := [] |} Hvalid)
    as (st & ->).
  cbn [bind]. eauto.
Qed.

(** The same netting set sent twice. *)
Definition pfe_input_twice : PFE.PFEInput :=
  {| PFE.netting_sets := [pfe_ns_swap; pfe_ns_swap];
     PFE.calculation_method := PFE.HISTORICAL;
     PFE.time_horizon := PFE.SIX_MONTH;
     PFE.confidence_level := PFE.CL_99 |}.

Lemma pfe_swap_1m_3y_valid : valid_maturity pfe_swap_1m_3y.
Proof. right. cbn. lra. Qed.

Lemma pfe_input_twice_valid (ns : PFE.NettingSet) (t : PFE.Trade) :
  In ns (PFE.netting_sets pfe_input_twice) -> In t (PFE.trades ns) -> valid_maturity t.
Proof.
  intros [<- | [<- | []]] [<- | []]; exact pfe_swap_1m_3y_valid.
Qed.

Lemma pfe_input_twice_returns :
  exists r, PFE.calculate_pfe pfe_input_twice = Ok r.
Proof. exact (PFE_calculate_pfe_returns pfe_input_twice pfe_input_twice_valid). Qed.

Lemma pfe_input_twice_profile :
  exists r prof, PFEService.calculate_pfe pfe_input_twice = Ok (r, prof).
Proof.
  destruct pfe_input_twice_returns as (r & Hr).
  rewrite PFEService_calculate_pfe_value, Hr. cbn [bind]. eauto.
Qed.

Lemma exposure_profile_of_totals_witness :
  exists r prof,
    PFEService.calculate_pfe pfe_input_twice = Ok (r, prof) /\
    (time_points <-
       PFEService.time_points_of (PFE.TIME_HORIZON_YEARS PFE.SIX_MONTH) ;;
     mapM (PFEService.exposure_point (PFE.total_expected_exposure r)
             (PFE.TIME_HORIZON_YEARS PFE.SIX_MONTH) (PFE.total_pfe r)) time_points)
    = Ok prof.
Proof.
  destruct pfe_input_twice_profile as (r & prof & H).
  exists r, prof. split; [exact H |].
  exact (exposure_profile_of_totals pfe_input_twice r prof H).
Defined.





Lemma pfe_totals_witness :
  exists r,
    PFE.calculate_pfe pfe_input_twice = Ok r /\
    PFE.total_expected_exposure r
    = sum (map PFE.calculate_replacement_cost (PFE.netting_sets pfe_input_twice)) /\
    0 <= PFE.total_expected_exposure r.
Proof.
  destruct pfe_input_twice_returns as (r & Hr). exists r. split; [exact Hr |].
  destruct (pfe_totals pfe_input_twice r Hr) as (_ & _ & _ & He & Hpos).
  split; [exact He | exact Hpos].
Defined.

Lemma netting_set_results_keep_last_witness :
  exists r pfe add_ons,
    PFE.calculate_pfe pfe_input_twice = Ok r /\
    PFE.netting_sets pfe_input_twice = [pfe_ns_swap] ++ pfe_ns_swap :: [] /\
    Forall (fun ns' => PFE.ns_id ns' <> PFE.ns_id pfe_ns_swap) [] /\
    PFE.pfe_by_method PFE.HISTORICAL pfe_ns_swap PFE.SIX_MONTH PFE.CL_99
    = Ok (pfe, add_ons) /\
    dict_get String.eqb (PFE.ns_id pfe_ns_swap) (PFE.netting_set_results r)
    = Some (pfe, PFE.calculate_replacement_cost pfe_ns_swap, add_ons).
Proof.
  destruct pfe_input_twice_returns as (r & Hr).
  destruct (netting_set_results_keep_last pfe_input_twice r [pfe_ns_swap] []
              pfe_ns_swap Hr eq_refl (Forall_nil _)) as (pfe & add_ons & Hm & Hget).
  exists r, pfe, add_ons.
  repeat split; [exact Hr | constructor | exact Hm | exact Hget].
Defined.

Lemma pfe_total_add_on_witness :
  PFE.calculate_add_on pfe_ns_swap = Ok [(INTEREST_RATE, 5000)] /\
  sum (dict_values [(INTEREST_RATE, 5000)])
  = sum (map (fun t => PFE.SUPERVISORY_FACTORS (PFE.asset_class t)
                       * effective_notional_value t)
             (PFE.trades pfe_ns_swap)).
Proof.
  split; [exact pfe_ns_swap_add_on |].
  exact (pfe_total_add_on pfe_ns_swap _ pfe_ns_swap_add_on).
Defined.

(** ** The initial margin service never fails *)

Lemma grid_margin_returns (ns : InitialMargin.NettingSet) :
  exists r, InitialMargin.calculate_grid_margin ns = Ok r.
Proof.
  unfold InitialMargin.calculate_grid_margin.
  destruct (mapM_returns InitialMargin.grid_class_margin
              (group_by_asset_class InitialMargin.asset_class (InitialMargin.trades ns)))
    as (margins & ->).
  - intros g _. rewrite grid_class_margin_total. eauto.
  - cbn [bind]. eauto.
Qed.

Lemma simm_class_margin_returns (group : AssetClass * list InitialMargin.Trade) :
  exists d v c,
    InitialMargin.simm_class_margin group = Ok (fst group, (d, v, c)) /\
    0 <= d /\ 0 <= v /\ 0 <= c.
Proof.
  destruct group as [ac ts]. unfold InitialMargin.simm_class_margin.
  destruct (InitialMargin.simm_sums ts) as [[ds vs] cs].
  destruct ac; cbn; do 3 eexists; (split; [reflexivity |]);
    repeat split; apply Rmult_le_pos; try apply Rabs_pos; lra.
Qed.

Lemma simm_margin_returns (ns : InitialMargin.NettingSet) :
  exists r, InitialMargin.calculate_simm_margin ns = Ok r.
Proof.
  unfold InitialMargin.calculate_simm_margin.
  destruct (mapM_returns InitialMargin.simm_class_margin
              (group_by_asset_class InitialMargin.asset_class (InitialMargin.trades ns)))
    as (parts & ->).
  - intros g _. destruct (simm_class_margin_returns g) as (d & v & c & -> & _). eauto.
  - cbn [bind]. eauto.
Qed.

Lemma IM_process_netting_sets_returns (input : InitialMargin.InitialMarginInput)
    (l : list InitialMargin.NettingSet) (st : InitialMargin.Totals) :
  exists st', InitialMargin.process_netting_sets input st l = Ok st'.
Proof.
  revert st. induction l as [| ns l IH]; intros st;
    cbn [InitialMargin.process_netting_sets]; [eauto |].
  unfold InitialMargin.process_netting_set, InitialMargin.margin_by_method.
  destruct (InitialMargin.calculation_method input).
  - destruct (grid_margin_returns ns) as ([margin margins] & ->). cbn [bind]. apply IH.
  - destruct (simm_margin_returns ns) as ([[margin margins] sb] & ->). cbn [bind].
    apply IH.
Qed.

(** [calculate_initial_margin] returns a result for every input, under the
    grid and under the SIMM method: none of its table lookups can miss and
    it divides only behind its guard. *)
Lemma initial_margin_never_raises (input : InitialMargin.InitialMarginInput) :
  exists r, InitialMargin.calculate_initial_margin input = Ok r.
Proof.
  unfold InitialMargin.calculate_initial_margin.
  destruct (IM_process_netting_sets_returns input (InitialMargin.netting_sets input)
              {| InitialMargin.acc_total_margin := 0;
                 InitialMargin.all_margins := [];
                 InitialMargin.acc_sensitivity := None;
                 InitialMargin.acc_netting_set_results := [] |}) as (st & ->).
  cbn [bind]. eauto.
Qed.

(** ** SIMM sensitivities *)

Definition sensitivity_total (sb : InitialMargin.SensitivityBreakdown) : R :=
  InitialMargin.sb_delta sb + InitialMargin.sb_vega sb + InitialMargin.sb_curvature sb.

Lemma simm_parts_totals
    (parts : list (AssetClass * (R * R * R))) (a b c : R) :
  sum (dict_values (map (fun p => let '(ac, (d, v, c)) := p in (ac, d + v + c)) parts))
  + (a + b + c)
  = fold_left (fun a p => a + fst (fst (snd p))) parts a
    + fold_left (fun a p => a + snd (fst (snd p))) parts b
    + fold_left (fun a p => a + snd (snd p)) parts c.
Proof.
  revert a b c. induction parts as [| [ac [[d v] c0]] parts IH]; intros a b c;
    cbn [map fold_left dict_values fst snd].
  - rewrite sum_nil. lra.
  - rewrite sum_cons, <- IH. unfold dict_values. lra.
Qed.

(** The SIMM margin of a netting set is the sum of its delta, vega and
    curvature components. *)
Lemma simm_margin_components (ns : InitialMargin.NettingSet) (m : R)
    (margins : list (AssetClass * R)) (sb : InitialMargin.SensitivityBreakdown) :
  InitialMargin.calculate_simm_margin ns = Ok (m, margins, sb) ->
  m = sensitivity_total sb.
Proof.
  unfold InitialMargin.calculate_simm_margin. intros H. bind_inv_as H parts Hp.
  injection H as <- _ <-. unfold sensitivity_total.
  cbn [InitialMargin.sb_delta InitialMargin.sb_vega InitialMargin.sb_curvature].
  rewrite <- simm_parts_totals. lra.
Qed.

Definition sensitivity_nonneg (sb : InitialMargin.SensitivityBreakdown) : Prop :=
  0 <= InitialMargin.sb_delta sb /\ 0 <= InitialMargin.sb_vega sb /\
  0 <= InitialMargin.sb_curvature sb.

Lemma simm_parts_nonneg (parts : list (AssetClass * (R * R * R))) (a b c : R) :
  Forall (fun p => 0 <= fst (fst (snd p)) /\ 0 <= snd (fst (snd p)) /\ 0 <= snd (snd p))
         parts ->
  0 <= a -> 0 <= b -> 0 <= c ->
  0 <= fold_left (fun a p => a + fst (fst (snd p))) parts a /\
  0 <= fold_left (fun a p => a + snd (fst (snd p))) parts b /\
  0 <= fold_left (fun a p => a + snd (snd p)) parts c.
Proof.
  intros H. revert a b c. induction H as [| p parts (Hd & Hv & Hc) _ IH];
    intros a b c Ha Hb Hc'; cbn [fold_left]; [auto |].
  apply IH; lra.
Qed.

Lemma simm_margin_nonneg_components (ns : InitialMargin.NettingSet) (m : R)
    (margins : list (AssetClass * R)) (sb : InitialMargin.SensitivityBreakdown) :
  InitialMargin.calculate_simm_margin ns = Ok (m, margins, sb) ->
  sensitivity_nonneg sb.
Proof.
  unfold InitialMargin.calculate_simm_margin. intros H. bind_inv_as H parts Hp.
  injection H as _ _ <-. unfold sensitivity_nonneg.
  cbn [InitialMargin.sb_delta InitialMargin.sb_vega InitialMargin.sb_curvature].
  apply simm_parts_nonneg; try lra.
  apply mapM_Ok_Forall2 in Hp. clear - Hp.
  induction Hp as [| g p groups parts Hg _ IH]; constructor; [| assumption].
  destruct (simm_class_margin_returns g) as (d & v & c & Hg' & Hd & Hv & Hc).
  rewrite Hg in Hg'. injection Hg' as ->. cbn [fst snd]. auto.
Qed.

Lemma IM_process_netting_sets_sensitivity (input : InitialMargin.InitialMarginInput)
    (l : list InitialMargin.NettingSet) (st st' : InitialMargin.Totals) :
  InitialMargin.calculation_method input = InitialMargin.SIMM ->
  InitialMargin.process_netting_sets input st l = Ok st' ->
  match InitialMargin.acc_sensitivity st with
  | Some sb =>
      InitialMargin.acc_total_margin st = sensitivity_total sb /\ sensitivity_nonneg sb
  | None => InitialMargin.acc_total_margin st = 0
  end ->
  match InitialMargin.acc_sensitivity st' with
  | Some sb =>
      InitialMargin.acc_total_margin st' = sensitivity_total sb /\ sensitivity_nonneg sb
  | None => l = [] /\ InitialMargin.acc_total_margin st' = 0
  end.
Proof.
  intros Hm. revert st. induction l as [| ns l IH]; intros st H Hinv;
    cbn [InitialMargin.process_netting_sets] in H.
  - injection H as <-. destruct (InitialMargin.acc_sensitivity st); auto.
  - bind_inv_as H st1 H1.
    unfold InitialMargin.process_netting_set, InitialMargin.margin_by_method in H1.
    rewrite Hm in H1. bind_inv_as H1 r Hr. bind_inv_as Hr r0 Hr0.
    destruct r0 as [[margin margins] nsb]. cbv beta iota zeta in Hr.
    injection Hr as <-. cbv beta iota zeta in H1. injection H1 as <-.
    pose proof (simm_margin_components _ _ _ _ Hr0) as Hc.
    pose proof (simm_margin_nonneg_components _ _ _ _ Hr0) as (Hn1 & Hn2 & Hn3).
    specialize (IH _ H).
    cbn [InitialMargin.acc_sensitivity InitialMargin.acc_total_margin] in IH.
    assert (Hstep :
              InitialMargin.acc_total_margin st + margin
              = sensitivity_total
                  match InitialMargin.acc_sensitivity st with
                  | Some sb =>
                      {| InitialMargin.sb_delta :=
                           InitialMargin.sb_delta sb + InitialMargin.sb_delta nsb;
                         InitialMargin.sb_vega :=
                           InitialMargin.sb_vega sb + InitialMargin.sb_vega nsb;
                         InitialMargin.sb_curvature :=
                           InitialMargin.sb_curvature sb
                           + InitialMargin.sb_curvature nsb |}
                  | None => nsb
                  end /\
              sensitivity_nonneg
                  match InitialMargin.acc_sensitivity st with
                  | Some sb =>
                      {| InitialMargin.sb_delta :=
                           InitialMargin.sb_delta sb + InitialMargin.sb_delta nsb;
                         InitialMargin.sb_vega :=
                           InitialMargin.sb_vega sb + InitialMargin.sb_vega nsb;
                         InitialMargin.sb_curvature :=
                           InitialMargin.sb_curvature sb
                           + InitialMargin.sb_curvature nsb |}
                  | None => nsb
                  end).
    { destruct (InitialMargin.acc_sensitivity st) as [sb |].
      - destruct Hinv as (Ht & Hs1 & Hs2 & Hs3). rewrite Ht, Hc.
        unfold sensitivity_total, sensitivity_nonneg. cbn. repeat split; lra.
      - rewrite Hinv, Hc. unfold sensitivity_nonneg. repeat split; try assumption. lra. }
    specialize (IH Hstep).
    destruct (InitialMargin.acc_sensitivity st') eqn:E; [assumption |].
    destruct IH as [-> _]. cbn [InitialMargin.process_netting_sets] in H.
    injection H as H. rewrite <- H in E. discriminate.
Qed.

Lemma IM_process_netting_sets_grid (input : InitialMargin.InitialMarginInput)
    (l : list InitialMargin.NettingSet) (st st' : InitialMargin.Totals) :
  InitialMargin.calculation_method input = InitialMargin.GRID ->
  InitialMargin.process_netting_sets input st l = Ok st' ->
  InitialMargin.acc_sensitivity st' = InitialMargin.acc_sensitivity st.
Proof.
  intros Hm. revert st. induction l as [| ns l IH]; intros st H;
    cbn [InitialMargin.process_netting_sets] in H.
  - now injection H as <-.
  - bind_inv_as H st1 H1. rewrite (IH _ H).
    unfold InitialMargin.process_netting_set, InitialMargin.margin_by_method in H1.
    rewrite Hm in H1. bind_inv_as H1 r Hr. bind_inv_as Hr r0 Hr0.
    destruct r0 as [margin margins]. cbv beta iota zeta in Hr. injection Hr as <-.
    cbv beta iota zeta in H1. now injection H1 as <-.
Qed.

(** The sensitivity breakdown of [calculate_initial_margin]: none under
    the grid method or without netting sets; under SIMM the delta, vega
    and curvature totals over all netting sets, which add up to the total
    margin. *)
Lemma sensitivity_breakdown_totals (input : InitialMargin.InitialMarginInput)
    (r : InitialMargin.InitialMarginResult) :
  InitialMargin.calculate_initial_margin input = Ok r ->
  match InitialMargin.calculation_method input, InitialMargin.netting_sets input with
  | InitialMargin.GRID, _ | InitialMargin.SIMM, [] =>
      InitialMargin.sensitivity_breakdown r = None
  | InitialMargin.SIMM, _ :: _ =>
      exists sb,
        InitialMargin.sensitivity_breakdown r = Some sb /\
        InitialMargin.total_margin r
        = InitialMargin.sb_delta sb + InitialMargin.sb_vega sb
          + InitialMargin.sb_curvature sb /\
        0 <= InitialMargin.sb_delta sb /\ 0 <= InitialMargin.sb_vega sb /\
        0 <= InitialMargin.sb_curvature sb
  end.
Proof.
  unfold InitialMargin.calculate_initial_margin. intros H. bind_inv_as H st Hst.
  injection H as <-.
  cbn [InitialMargin.sensitivity_breakdown InitialMargin.total_margin].
  destruct (InitialMargin.calculation_method input) eqn:Hm.
  - now rewrite (IM_process_netting_sets_grid _ _ _ _ Hm Hst).
  - pose proof (IM_process_netting_sets_sensitivity _ _ _ _ Hm Hst eq_refl) as Hs.
    destruct (InitialMargin.netting_sets input) as [| ns l] eqn:El.
    + cbn [InitialMargin.process_netting_sets] in Hst. now injection Hst as <-.
    + destruct (InitialMargin.acc_sensitivity st) as [sb |];
        [| destruct Hs; discriminate].
      destruct Hs as (Ht & Hn). exists sb. split; [reflexivity |].
      split; [exact Ht | exact Hn].
Qed.

Definition im_input_equity_simm : InitialMargin.InitialMarginInput :=
  {| InitialMargin.netting_sets := [im_ns_equity; im_ns_equity];
     InitialMargin.calculation_method := InitialMargin.SIMM |}.

Lemma im_input_equity_simm_returns :
  exists r, InitialMargin.calculate_initial_margin im_input_equity_simm = Ok r.
Proof.
  unfold InitialMargin.calculate_initial_margin.
  destruct (IM_process_netting_sets_returns im_input_equity_simm
              (InitialMargin.netting_sets im_input_equity_simm)
              {| InitialMargin.acc_total_margin := 0;
                 InitialMargin.all_margins := [];
                 InitialMargin.acc_sensitivity := None;
                 InitialMargin.acc_netting_set_results := [] |}) as (st & ->).
  cbn [bind]. eauto.
Qed.

Lemma sensitivity_breakdown_totals_witness :
  exists r sb,
    InitialMargin.calculate_initial_margin im_input_equity_simm = Ok r /\
    InitialMargin.sensitivity_breakdown r = Some sb /\
    InitialMargin.total_margin r
    = InitialMargin.sb_delta sb + InitialMargin.sb_vega sb
      + InitialMargin.sb_curvature sb.
Proof.
  destruct im_input_equity_simm_returns as (r & Hr).
  destruct (sensitivity_breakdown_totals im_input_equity_simm r Hr)
    as (sb & Hsb & Ht & _).
  exists r, sb. repeat split; assumption.
Defined.

(** *** Netting sets without options *)

Lemma simm_sums_without_options (ts : list InitialMargin.Trade) (acc : R * R * R) :
  Forall (fun t => is_option_like (InitialMargin.product t) = false) ts ->
  snd (fst acc) = 0 -> snd acc = 0 ->
  let r :=
    fold_left
      (fun acc t =>
         let '(delta_sum, vega_sum, curvature_sum) := acc in
         let d := match InitialMargin.delta t with Some d => d | None => 1 end in
         let delta_sum := delta_sum + d * InitialMargin.notional t in
         let vega_sum :=
           if is_option_like (InitialMargin.product t)
           then vega_sum
                + (match InitialMargin.vega t with Some v => v | None => 0.1 end)
                  * InitialMargin.notional t
           else vega_sum in
         let curvature_sum :=
           if is_option_like (InitialMargin.product t)
           then curvature_sum
                + (match InitialMargin.curvature t with Some c => c | None => 0.01 end)
                  * InitialMargin.notional t
           else curvature_sum in
         (delta_sum, vega_sum, curvature_sum))
      ts acc in
  snd (fst r) = 0 /\ snd r = 0.
Proof.
  intros H. revert acc. induction H as [| t ts Ht _ IH]; intros [[d v] c] Hv Hc;
    cbn [fold_left]; [auto |].
  apply IH; rewrite Ht; assumption.
Qed.

Lemma simm_class_without_options (k : AssetClass) (ts : list InitialMargin.Trade)
    (p : AssetClass * (R * R * R)) :
  Forall (fun t => is_option_like (InitialMargin.product t) = false) ts ->
  InitialMargin.simm_class_margin (k, ts) = Ok p ->
  snd (fst (snd p)) = 0 /\ snd (snd p) = 0.
Proof.
  intros Hts. unfold InitialMargin.simm_class_margin.
  pose proof (simm_sums_without_options ts (0, 0, 0) Hts eq_refl eq_refl) as Hs.
  cbv zeta in Hs. fold (InitialMargin.simm_sums ts) in Hs.
  destruct (InitialMargin.simm_sums ts) as [[ds vs] cs]. cbn [fst snd] in Hs.
  destruct Hs as [-> ->]. intros H.
  bind_inv_as H wd Hwd. bind_inv_as H wv Hwv. bind_inv_as H wc Hwc.
  injection H as <-. cbn [fst snd]. rewrite Rabs_R0. split; lra.
Qed.

Lemma fold_left_zero {A : Type} (f : A -> R) (l : list A) :
  Forall (fun p => f p = 0) l -> fold_left (fun a p => a + f p) l 0 = 0.
Proof.
  intros H. induction H as [| p l Hp _ IH]; cbn [fold_left]; [reflexivity |].
  rewrite Hp, Rplus_0_l. exact IH.
Qed.

(** A netting set that holds no option and no swaption has neither vega
    nor curvature margin under SIMM: its margin is its delta margin. *)
Lemma simm_without_options (ns : InitialMargin.NettingSet) (m : R)
    (margins : list (AssetClass * R)) (sb : InitialMargin.SensitivityBreakdown) :
  InitialMargin.calculate_simm_margin ns = Ok (m, margins, sb) ->
  Forall (fun t => is_option_like (InitialMargin.product t) = false)
         (InitialMargin.trades ns) ->
  InitialMargin.sb_vega sb = 0 /\ InitialMargin.sb_curvature sb = 0 /\
  m = InitialMargin.sb_delta sb.
Proof.
  intros H Hts. pose proof (simm_margin_components _ _ _ _ H) as Hm.
  unfold InitialMargin.calculate_simm_margin in H. bind_inv_as H parts Hp.
  injection H as _ _ <-.
  cbn [InitialMargin.sb_delta InitialMargin.sb_vega InitialMargin.sb_curvature].
  assert (Hparts : Forall (fun p => snd (fst (snd p)) = 0 /\ snd (snd p) = 0) parts).
  { clear Hm. apply mapM_Ok_Forall2 in Hp.
    assert (Hg : forall k xs,
               In (k, xs) (group_by_asset_class InitialMargin.asset_class
                             (InitialMargin.trades ns)) ->
               Forall (fun t => is_option_like (InitialMargin.product t) = false) xs).
    { intros k xs Hin. apply Forall_forall. intros t Ht.
      rewrite Forall_forall in Hts. apply Hts.
      exact (proj1 (group_by_asset_class_members _ _ _ _ _ Hin Ht)). }
    revert Hp Hg.
    generalize (group_by_asset_class InitialMargin.asset_class (InitialMargin.trades ns)).
    intros groups Hp.
    induction Hp as [| g p groups parts Hgp _ IH]; intros Hg; constructor.
    - destruct g as [k xs]. apply (simm_class_without_options k xs p); [| assumption].
      apply (Hg k xs). now left.
    - apply IH. intros k xs Hin. apply (Hg k xs). now right. }
  assert (Hv : fold_left (fun a p => a + snd (fst (snd p))) parts 0 = 0).
  { apply fold_left_zero. eapply Forall_impl; [| exact Hparts]. now intros p [? _]. }
  assert (Hc : fold_left (fun a p => a + snd (snd p)) parts 0 = 0).
  { apply fold_left_zero. eapply Forall_impl; [| exact Hparts]. now intros p [_ ?]. }
  unfold sensitivity_total in Hm.
  cbn [InitialMargin.sb_delta InitialMargin.sb_vega InitialMargin.sb_curvature] in Hm.
  rewrite Hv, Hc in Hm |- *. repeat split; try reflexivity. lra.
Qed.

Lemma im_ns_equity_simm_margin :
  exists m margins sb,
    InitialMargin.calculate_simm_margin im_ns_equity = Ok (m, margins, sb).
Proof.
  destruct (simm_margin_returns im_ns_equity) as ([[m margins] sb] & H). eauto.
Qed.

Lemma simm_without_options_witness :
  exists m margins sb,
    InitialMargin.calculate_simm_margin im_ns_equity = Ok (m, margins, sb) /\
    Forall (fun t => is_option_like (InitialMargin.product t) = false)
           (InitialMargin.trades im_ns_equity) /\
    InitialMargin.sb_vega sb = 0 /\ InitialMargin.sb_curvature sb = 0 /\
    m = InitialMargin.sb_delta sb.
Proof.
  destruct im_ns_equity_simm_margin as (m & margins & sb & H).
  assert (Hts : Forall (fun t => is_option_like (InitialMargin.product t) = false)
                       (InitialMargin.trades im_ns_equity))
    by (repeat constructor).
  exists m, margins, sb. split; [exact H |]. split; [exact Hts |].
  exact (simm_without_options im_ns_equity m margins sb H Hts).
Defined.

(** ** Perfectly correlated positions *)

(** A portfolio of two positions with different ids whose first position
    gives its correlation with the second. *)
Definition correlated_pair (p q : VaR.Position) (rho : R) : Prop :=
  String.eqb (VaR.id p) (VaR.id q) = false /\
  VaR.correlation p = Some [(VaR.id q, rho)] /\
  VaR.correlation q = None.

Lemma correlated_pair_matrix (p q : VaR.Position) (rho : R) :
  correlated_pair p q rho ->
  VaR.correlation_matrix [p; q] = [[1; rho]; [rho; 1]].
Proof.
  intros (Hid & Hp & Hq). unfold VaR.correlation_matrix.
  cbn [enumerate List.length seq combine fold_left VaR.update_row].
  rewrite Hp, Hq.
  cbn [fold_left VaR.update_entry dict_get].
  rewrite Hid, String.eqb_refl. reflexivity.
Qed.

Lemma cholesky_first_row (n : nat) (a : R) (rest : list R) :
  0 < a ->
  VaR.cholesky_row n [] (a :: rest) = Ok (sqrt a :: repeat 0 (n - 0 - 1)).
Proof.
  intros Ha. unfold VaR.cholesky_row.
  cbn [List.length VaR.cholesky_prefix nth].
  unfold dot. cbn [combine map]. rewrite sum_nil.
  destruct (Rle_dec (a - 0) 0) as [H | _]; [lra |].
  replace (a - 0) with a by lra. reflexivity.
Qed.

Lemma cholesky_second_row (n : nat) (rho : R) :
  rho <= -1 \/ 1 <= rho ->
  VaR.cholesky_row n [[1; 0]] [rho; 1] = Raise LinAlgError.
Proof.
  intros Hrho. unfold VaR.cholesky_row.
  cbn [List.length VaR.cholesky_prefix nth app].
  unfold dot. cbn [combine map fst snd]. rewrite !sum_cons, !sum_nil.
  destruct (Rle_dec _ 0) as [_ | H]; [reflexivity |].
  exfalso. apply H.
  replace ((rho - 0) / 1) with rho by (field; lra).
  destruct Hrho; nra.
Qed.

Lemma cholesky_singular (rho : R) :
  rho <= -1 \/ 1 <= rho ->
  VaR.cholesky [[1; rho]; [rho; 1]] = Raise LinAlgError.
Proof.
  intros Hrho. unfold VaR.cholesky.
  cbn [List.length VaR.cholesky_rows].
  rewrite cholesky_first_row by lra. rewrite sqrt_1.
  cbn [bind app Nat.sub repeat VaR.cholesky_rows].
  now rewrite cholesky_second_row.
Qed.

(** The Monte Carlo method cannot run on two positions that are given a
    correlation of 1 or more, or of -1 or less: the correlation matrix has
    no Cholesky factor and the method raises [LinAlgError], whatever the
    draws, the confidence level, the horizon and the number of
    simulations. *)
Lemma perfect_correlation_breaks_monte_carlo (gauss : nat -> R) (pid : string)
    (p q : VaR.Position) (rho : R) (cl : VaR.ConfidenceLevel) (th : VaR.TimeHorizon)
    (n : nat) :
  correlated_pair p q rho ->
  rho <= -1 \/ 1 <= rho ->
  VaR.calculate_monte_carlo_var gauss
    {| VaR.portfolio_id := pid; VaR.positions := [p; q] |} cl th n
  = Raise LinAlgError.
Proof.
  intros Hpair Hrho. unfold VaR.calculate_monte_carlo_var.
  cbn [VaR.positions]. rewrite (correlated_pair_matrix p q rho Hpair).
  rewrite (cholesky_singular rho Hrho). reflexivity.
Qed.

(** Two positions, the first giving the correlation [rho] with the
    second. *)
Definition correlated_a (rho : R) : VaR.Position :=
  {| VaR.id := "A";
     VaR.asset_class := VaR.EQUITY;
     VaR.ticker := "AAA";
     VaR.quantity := 1;
     VaR.price := 100;
     VaR.volatility := Some 0.2;
     VaR.correlation := Some [("B"%string, rho)] |}.

Definition correlated_b : VaR.Position :=
  {| VaR.id := "B";
     VaR.asset_class := VaR.FX;
     VaR.ticker := "BBB";
     VaR.quantity := 2;
     VaR.price := 50;
     VaR.volatility := Some 0.1;
     VaR.correlation := None |}.

Definition pf_correlated (rho : R) : VaR.Portfolio :=
  {| VaR.portfolio_id := "P"; VaR.positions := [correlated_a rho; correlated_b] |}.

Lemma correlated_a_b (rho : R) : correlated_pair (correlated_a rho) correlated_b rho.
Proof. repeat split. Qed.

Lemma perfect_correlation_breaks_monte_carlo_witness :
  correlated_pair (correlated_a 1) correlated_b 1 /\
  VaR.calculate_monte_carlo_var sorted_draws (pf_correlated 1) VaR.CL_95 VaR.ONE_DAY 5000
  = Raise LinAlgError.
Proof.
  split; [exact (correlated_a_b 1) |].
  apply (perfect_correlation_breaks_monte_carlo sorted_draws "P"
           (correlated_a 1) correlated_b 1 VaR.CL_95 VaR.ONE_DAY 5000
           (correlated_a_b 1)).
  right. lra.
Defined.

(** ** Stress scenarios on correlated positions *)

Lemma stress_correlated_pair (sc : VaR.Scenario) (p q : VaR.Position) (rho : R) :
  correlated_pair p q rho ->
  correlated_pair (VaR.stress_position sc p) (VaR.stress_position sc q)
                  (Rmin 1 (rho + VaR.correlation_increase sc)).
Proof.
  intros (Hid & Hp & Hq). unfold correlated_pair, VaR.stress_position.
  cbn [VaR.id VaR.correlation]. rewrite Hp, Hq. cbn [map fst snd].
  repeat split. assumption.
Qed.

Lemma stress_scenario_singular (gauss : nat -> R) (pid : string)
    (p q : VaR.Position) (rho : R) (cl : VaR.ConfidenceLevel) (th : VaR.TimeHorizon)
    (base_var : R) (sc : VaR.Scenario) :
  correlated_pair p q rho ->
  1 <= rho + VaR.correlation_increase sc ->
  VaR.stress_scenario gauss {| VaR.portfolio_id := pid; VaR.positions := [p; q] |}
    cl th base_var sc
  = Raise LinAlgError.
Proof.
  intros Hpair Hrho. unfold VaR.stress_scenario, VaR.stressed_portfolio.
  cbn [VaR.positions VaR.portfolio_id map].
  unfold VaR.calculate_monte_carlo_var. cbn [VaR.positions].
  rewrite (correlated_pair_matrix _ _ _ (stress_correlated_pair sc p q rho Hpair)).
  rewrite cholesky_singular; [reflexivity |].
  right. rewrite Rmin_left by assumption. lra.
Qed.

Lemma stress_scenarios_on_pair (gauss : nat -> R) (pid : string)
    (p q : VaR.Position) (rho : R) (cl : VaR.ConfidenceLevel) (th : VaR.TimeHorizon)
    (base_var : R) :
  correlated_pair p q rho -> 0.7 <= rho ->
  (exists e,
      VaR.calculate_stress_scenarios gauss
        {| VaR.portfolio_id := pid; VaR.positions := [p; q] |} cl th base_var
      = Raise e) /\
  (0.8 <= rho ->
   VaR.calculate_stress_scenarios gauss
     {| VaR.portfolio_id := pid; VaR.positions := [p; q] |} cl th base_var
   = Raise LinAlgError).
Proof.
  intros Hpair Hrho. unfold VaR.calculate_stress_scenarios. split.
  - destruct (mapM_In_Raise
                (VaR.stress_scenario gauss
                   {| VaR.portfolio_id := pid; VaR.positions := [p; q] |} cl th base_var)
                VaR.STRESS_SCENARIOS VaR.LIQUIDITY_CRISIS LinAlgError) as (e & ->).
    + right. right. now left.
    + apply (stress_scenario_singular gauss pid p q rho); [assumption |]. cbn. lra.
    + cbn [bind]. eauto.
  - intros H8. unfold VaR.STRESS_SCENARIOS. cbn [mapM].
    rewrite (stress_scenario_singular gauss pid p q rho cl th base_var VaR.MARKET_CRASH);
      [reflexivity | assumption | cbn; lra].
Qed.

(** Stress testing fails on highly correlated positions.  Each scenario
    raises the given correlations (by 0.2, 0.1 and 0.3) and caps them at 1,
    and a pair at correlation 1 has no Cholesky factor: for two positions
    given a correlation of 0.7 or more [calculate_stress_scenarios] raises,
    with [LinAlgError] at its first scenario from 0.8 on, and [calculate_var]
    cannot return a result when stress scenarios are requested. *)
Lemma stress_test_fails_on_high_correlation (gauss : nat -> R) (input : VaR.VaRInput)
    (p q : VaR.Position) (rho : R) :
  VaR.positions (VaR.portfolio input) = [p; q] ->
  correlated_pair p q rho -> 0.7 <= rho ->
  (forall base_var,
      exists e,
        VaR.calculate_stress_scenarios gauss (VaR.portfolio input)
          (VaR.confidence_level input) (VaR.time_horizon input) base_var
        = Raise e) /\
  (0.8 <= rho ->
   forall base_var,
     VaR.calculate_stress_scenarios gauss (VaR.portfolio input)
       (VaR.confidence_level input) (VaR.time_horizon input) base_var
     = Raise LinAlgError) /\
  (VaR.include_stress_scenarios input = true ->
   exists e, VaR.calculate_var gauss input = Raise e).
Proof.
  intros Hps Hpair Hrho.
  destruct (VaR.portfolio input) as [pid ps] eqn:Epf. cbn [VaR.positions] in Hps.
  subst ps.
  assert (Hs : forall base_var,
             exists e,
               VaR.calculate_stress_scenarios gauss
                 {| VaR.portfolio_id := pid; VaR.positions := [p; q] |}
                 (VaR.confidence_level input) (VaR.time_horizon input) base_var
               = Raise e).
  { intros b. exact (proj1 (stress_scenarios_on_pair gauss pid p q rho _ _ b Hpair Hrho)). }
  split; [exact Hs |]. split.
  - intros H8 b.
    exact (proj2 (stress_scenarios_on_pair gauss pid p q rho _ _ b Hpair Hrho) H8).
  - intros Hflag. unfold VaR.calculate_var. rewrite Epf, Hflag.
    destruct (VaR.var_by_method gauss input) as [[[var cs] b] | e]; cbn [bind]; [| eauto].
    destruct (VaR.var_percentage_of var _); cbn [bind]; [| eauto].
    destruct (VaR.diversification_benefit_percentage_of var b); cbn [bind]; [| eauto].
    destruct (Hs var) as (e & ->). cbn [bind]. eauto.
Qed.

Definition var_input_correlated : VaR.VaRInput :=
  {| VaR.portfolio := pf_correlated 0.85;
     VaR.method := VaR.PARAMETRIC;
     VaR.time_horizon := VaR.ONE_DAY;
     VaR.confidence_level := VaR.CL_95;
     VaR.num_simulations := 10000;
     VaR.include_stress_scenarios := true |}.

Lemma stress_test_fails_on_high_correlation_witness :
  VaR.positions (VaR.portfolio var_input_correlated)
  = [correlated_a 0.85; correlated_b] /\
  correlated_pair (correlated_a 0.85) correlated_b 0.85 /\
  0.7 <= 0.85 /\
  VaR.calculate_stress_scenarios sorted_draws (pf_correlated 0.85)
    VaR.CL_95 VaR.ONE_DAY 1 = Raise LinAlgError /\
  exists e, VaR.calculate_var sorted_draws var_input_correlated = Raise e.
Proof.
  assert (H7 : 0.7 <= 0.85) by lra.
  assert (H8 : 0.8 <= 0.85) by lra.
  pose proof (stress_test_fails_on_high_correlation sorted_draws var_input_correlated
                (correlated_a 0.85) correlated_b 0.85 eq_refl (correlated_a_b 0.85) H7)
    as (_ & Hlin & Hvar).
  split; [reflexivity |]. split; [exact (correlated_a_b 0.85) |]. split; [exact H7 |].
  split; [exact (Hlin H8 1) | exact (Hvar eq_refl)].
Defined.

(** ** The quantile index *)

(** The index of the order statistic that the simulating methods read, for
    the sample sizes the service uses (500 historical days, 5000 stress
    simulations, 10000 simulations by default).  At 90% it is one below a
    tenth of the sample, because [1 - 0.9] falls just below one tenth in
    binary64; at the other levels it is the whole part of the tail size. *)
Lemma var_index_table :
  map (VaR.var_index 500) [VaR.CL_90; VaR.CL_95; VaR.CL_97_5; VaR.CL_99]
  = [49; 25; 12; 5]%nat /\
  map (VaR.var_index 5000) [VaR.CL_90; VaR.CL_95; VaR.CL_97_5; VaR.CL_99]
  = [499; 250; 125; 50]%nat /\
  map (VaR.var_index 10000) [VaR.CL_90; VaR.CL_95; VaR.CL_97_5; VaR.CL_99]
  = [999; 500; 250; 100]%nat.
Proof.
  repeat split; vm_compute; reflexivity.
Qed.

(** ** The historical method and the given correlations *)

Definition without_correlation (p : VaR.Position) : VaR.Position :=
  {| VaR.id := VaR.id p;
     VaR.asset_class := VaR.asset_class p;
     VaR.ticker := VaR.ticker p;
     VaR.quantity := VaR.quantity p;
     VaR.price := VaR.price p;
     VaR.volatility := VaR.volatility p;
     VaR.correlation := None |}.

Lemma mapM_ext {A B : Type} (f g : A -> result B) (l : list A) :
  (forall a, f a = g a) -> mapM f l = mapM g l.
Proof.
  intros H. induction l as [| a l IH]; [reflexivity |].
  cbn [mapM]. now rewrite H, IH.
Qed.

Lemma historical_returns_without_correlation (gauss : nat -> R)
    (ps : list VaR.Position) :
  VaR.historical_returns gauss (map without_correlation ps)
  = VaR.historical_returns gauss ps.
Proof.
  unfold VaR.historical_returns, enumerate. rewrite length_map.
  generalize (@nil (string * list R)) as d. generalize 0%nat as s.
  induction ps as [| p ps IH]; intros s d; [reflexivity |].
  cbn [List.length seq map combine fold_left]. rewrite IH. reflexivity.
Qed.

Lemma historical_portfolio_returns_without_correlation (pv : R)
    (returns : list (string * list R)) (ps : list VaR.Position) (acc : list R) :
  VaR.historical_portfolio_returns pv returns (map without_correlation ps) acc
  = VaR.historical_portfolio_returns pv returns ps acc.
Proof.
  revert acc. induction ps as [| p ps IH]; intros acc; [reflexivity |].
  cbn [map VaR.historical_portfolio_returns].
  change (VaR.position_value (without_correlation p)) with (VaR.position_value p).
  destruct (fdiv (VaR.position_value p) pv); cbn [bind]; [| reflexivity].
  change (VaR.returns_of returns (without_correlation p)) with (VaR.returns_of returns p).
  destruct (VaR.returns_of returns p); cbn [bind]; [apply IH | reflexivity].
Qed.

Lemma historical_without_correlation (gauss : nat -> R) (pf : VaR.Portfolio)
    (cl : VaR.ConfidenceLevel) (th : VaR.TimeHorizon) :
  VaR.calculate_historical_var gauss
    {| VaR.portfolio_id := VaR.portfolio_id pf;
       VaR.positions := map without_correlation (VaR.positions pf) |} cl th
  = VaR.calculate_historical_var gauss pf cl th.
Proof.
  unfold VaR.calculate_historical_var.
  assert (Hpv : VaR.calculate_portfolio_value
                  {| VaR.portfolio_id := VaR.portfolio_id pf;
                     VaR.positions := map without_correlation (VaR.positions pf) |}
                = VaR.calculate_portfolio_value pf).
  { unfold VaR.calculate_portfolio_value. cbn [VaR.positions].
    rewrite map_map. reflexivity. }
  rewrite Hpv. cbn [VaR.positions].
  rewrite historical_returns_without_correlation,
    historical_portfolio_returns_without_correlation.
  destruct (VaR.historical_portfolio_returns _ _ _ _) as [P | e]; cbn [bind];
    [| reflexivity].
  destruct (VaR.quantile_loss P _) as [q | e]; cbn [bind]; [| reflexivity].
  rewrite !mapM_map.
  rewrite (mapM_ext
             (fun a => r <- VaR.returns_of _ (without_correlation a) ;;
                       position_var_return <- VaR.quantile_loss r _ ;;
                       Ok (VaR.position_value (without_correlation a)
                           * position_var_return * _))
             (fun p => r <- VaR.returns_of _ p ;;
                       position_var_return <- VaR.quantile_loss r _ ;;
                       Ok (VaR.position_value p * position_var_return * _)))
    by reflexivity.
  destruct (mapM _ (VaR.positions pf)) as [avs | e]; cbn [bind]; [| reflexivity].
  rewrite (mapM_ext
             (fun a => r <- VaR.returns_of _ (without_correlation a) ;;
                       VaR.simulated_contribution _ _ P (without_correlation a) r)
             (fun p => r <- VaR.returns_of _ p ;;
                       VaR.simulated_contribution _ _ P p r))
    by reflexivity.
  reflexivity.
Qed.

(** The historical method never reads the correlations that the positions
    give: two portfolios whose positions differ only in their correlation
    maps get the same VaR, the same contributions and the same
    diversification benefit. *)
Lemma historical_ignores_correlation (gauss : nat -> R) (pf pf' : VaR.Portfolio)
    (cl : VaR.ConfidenceLevel) (th : VaR.TimeHorizon) :
  map without_correlation (VaR.positions pf)
  = map without_correlation (VaR.positions pf') ->
  VaR.calculate_historical_var gauss pf cl th
  = VaR.calculate_historical_var gauss pf' cl th.
Proof.
  intros H.
  rewrite <- (historical_without_correlation gauss pf),
          <- (historical_without_correlation gauss pf'), H.
  unfold VaR.calculate_historical_var, VaR.calculate_portfolio_value.
  reflexivity.
Qed.

Lemma historical_ignores_correlation_witness :
  map without_correlation (VaR.positions (pf_correlated 0.3))
  = map without_correlation (VaR.positions (pf_correlated 0.9)) /\
  VaR.calculate_historical_var sorted_days (pf_correlated 0.3) VaR.CL_99 VaR.TEN_DAY
  = VaR.calculate_historical_var sorted_days (pf_correlated 0.9) VaR.CL_99 VaR.TEN_DAY.
Proof.
  split; [reflexivity |].
  exact (historical_ignores_correlation sorted_days (pf_correlated 0.3)
           (pf_correlated 0.9) VaR.CL_99 VaR.TEN_DAY eq_refl).
Defined.

(** ** The diversification benefit of the parametric method *)

















(** ** Symmetry of the normal distribution and put-call parity *)

(** The mass between 0 and [x]: [norm.cdf(x) - 0.5]. *)
Definition half_mass (x : R) : R := RiemannInt (Normal.pdf_integrable 0 x).

Lemma half_mass_0 : half_mass 0 = 0.
Proof. unfold half_mass. apply RiemannInt_P9. Qed.

Lemma half_mass_derivative (x : R) : derivable_pt_lim half_mass x (Normal.pdf x).
Proof.
  set (a := Rmin 0 x - 1). set (b := Rmax 0 x + 1).
  pose proof (Rmin_l 0 x) as Hm1. pose proof (Rmin_r 0 x) as Hm2.
  pose proof (Rmax_l 0 x) as HM1. pose proof (Rmax_r 0 x) as HM2.
  assert (Hx : a < x < b) by (unfold a, b; lra).
  assert (H0 : a < 0 < b) by (unfold a, b; lra).
  assert (h : a <= b) by lra.
  assert (C0 : forall y, a <= y <= b -> continuity_pt Normal.pdf y)
    by (intros y _; apply Normal.pdf_continuity).
  pose proof (RiemannInt_P27 h C0 Hx) as Hd.
  apply (derivable_pt_lim_locally_ext
           (fun z => primitive h (FTC_P1 h C0) z
                     - RiemannInt (Normal.pdf_integrable a 0))
           half_mass x a b); [exact Hx | |].
  - intros z Hz. unfold primitive.
    destruct (Rle_dec a z) as [Haz | Haz]; [| lra].
    destruct (Rle_dec z b) as [Hzb | Hzb]; [| lra].
    unfold half_mass.
    rewrite <- (RiemannInt_P26 (Normal.pdf_integrable a 0) (Normal.pdf_integrable 0 z)
                  (FTC_P1 h C0 Haz Hzb)).
    lra.
  - replace (Normal.pdf x) with (Normal.pdf x - 0) by lra.
    apply (derivable_pt_lim_minus
             (fun z => primitive h (FTC_P1 h C0) z)
             (fun _ => RiemannInt (Normal.pdf_integrable a 0))).
    + exact Hd.
    + apply derivable_pt_lim_const.
Qed.

Lemma pdf_even (x : R) : Normal.pdf (- x) = Normal.pdf x.
Proof. unfold Normal.pdf. do 2 f_equal. lra. Qed.

Lemma half_mass_odd (x : R) : half_mass (- x) = - half_mass x.
Proof.
  pose (G := fun z => half_mass z + half_mass (- z)).
  assert (HG : forall z, derivable_pt_lim G z 0).
  { intros z. unfold G.
    replace 0 with (Normal.pdf z + Normal.pdf (- z) * -1)
      by (rewrite pdf_even; lra).
    apply (derivable_pt_lim_plus half_mass (fun y => half_mass (- y))).
    - apply half_mass_derivative.
    - apply (derivable_pt_lim_comp (fun y => - y) half_mass).
      + replace (-1) with (- (1)) by lra.
        apply (derivable_pt_lim_opp id). apply derivable_pt_lim_id.
      + apply half_mass_derivative. }
  assert (Hder : derivable G) by (intros z; exists 0; apply HG).
  assert (Hconst : constant G).
  { apply (null_derivative_1 G Hder). intros z. apply derive_pt_eq_0, HG. }
  pose proof (Hconst x 0) as H. unfold G in H.
  rewrite Ropp_0, half_mass_0 in H. lra.
Qed.

(** [norm.cdf(-x) = 1 - norm.cdf(x)]. *)
Lemma cdf_symmetry (x : R) : Normal.cdf (- x) = 1 - Normal.cdf x.
Proof.
  unfold Normal.cdf. fold (half_mass (- x)) (half_mass x).
  rewrite half_mass_odd. lra.
Qed.

(** Put-call parity of [calculate_black_scholes]: for a positive price,
    strike, maturity and volatility, the call and the put are both priced,
    the call price less the put price is the price of the underlying less
    the discounted strike, the two deltas differ by 1 and the gammas
    agree. *)
Lemma put_call_parity (s k t vol r : R) :
  0 < s -> 0 < k -> 0 < t -> 0 < vol ->
  exists call put delta_call delta_put gamma : R,
    SACCR.calculate_black_scholes SACCR.CALL s k t vol r = Ok (call, delta_call, gamma) /\
    SACCR.calculate_black_scholes SACCR.PUT s k t vol r = Ok (put, delta_put, gamma) /\
    call - put = s - k * exp (- r * t) /\
    delta_call - delta_put = 1.
Proof.
  intros Hs Hk Ht Hvol.
  pose proof (black_scholes_returns SACCR.CALL s k t vol r Hs Hk Ht Hvol) as Hc.
  pose proof (black_scholes_returns SACCR.PUT s k t vol r Hs Hk Ht Hvol) as Hp.
  cbv zeta in Hc, Hp.
  do 5 eexists. split; [exact Hc |]. split; [exact Hp |].
  rewrite !cdf_symmetry. split; ring.
Qed.

Lemma put_call_parity_witness :
  exists call put delta_call delta_put gamma : R,
    SACCR.calculate_black_scholes SACCR.CALL 100 100 1 0.2 0.05
    = Ok (call, delta_call, gamma) /\
    SACCR.calculate_black_scholes SACCR.PUT 100 100 1 0.2 0.05
    = Ok (put, delta_put, gamma) /\
    call - put = 100 - 100 * exp (- (0.05) * 1) /\
    delta_call - delta_put = 1.
Proof.
  apply (put_call_parity 100 100 1 0.2 0.05); lra.
Defined.

(** ** The replacement cost without priced options *)

(** No Black-Scholes price is taken for the transaction: it is no option
    or swaption, or one of its pricing parameters is missing. *)
Definition flat_valued (t : SACCR.Transaction) : Prop :=
  is_option_like (SACCR.transaction_type t) = false \/
  SACCR.underlying_price t = None \/ SACCR.strike_price t = None \/
  SACCR.option_type t = None \/ SACCR.volatility t = None \/
  SACCR.interest_rate t = None.

Definition flat_rate (t : SACCR.Transaction) : R :=
  if is_option_like (SACCR.transaction_type t) then 0.1 else 0.05.

Lemma flat_transaction_value (t : SACCR.Transaction) :
  flat_valued t -> SACCR.transaction_value t = Ok (flat_rate t * SACCR.notional t).
Proof.
  unfold flat_valued, flat_rate, SACCR.transaction_value. intros H.
  destruct (is_option_like (SACCR.transaction_type t)); [| reflexivity].
  destruct (SACCR.underlying_price t), (SACCR.strike_price t), (SACCR.option_type t),
    (SACCR.volatility t), (SACCR.interest_rate t); try reflexivity.
  destruct H as [H | [H | [H | [H | [H | H]]]]]; discriminate.
Qed.

(** Where no option is priced, the replacement cost of a netting set does
    not look at any market value: it is 5% of the notional of every
    transaction, 10% for an option or swaption without its parameters,
    less the collateral, and never below 0. *)
Lemma flat_replacement_cost (ns : SACCR.NettingSet) :
  Forall flat_valued (SACCR.transactions ns) ->
  SACCR.calculate_replacement_cost ns
  = Ok (Rmax (sum (map (fun t => flat_rate t * SACCR.notional t) (SACCR.transactions ns))
              - SACCR.collateral ns) 0).
Proof.
  intros H. unfold SACCR.calculate_replacement_cost.
  rewrite (mapM_total _ (fun t => flat_rate t * SACCR.notional t)).
  - cbn [bind]. rewrite fold_left_Rplus, Rplus_0_l. reflexivity.
  - intros t Ht. rewrite Forall_forall in H. apply flat_transaction_value. auto.
Qed.

Lemma flat_replacement_cost_witness :
  Forall flat_valued (SACCR.transactions ns_incomplete_option) /\
  SACCR.calculate_replacement_cost ns_incomplete_option
  = Ok (Rmax (sum (map (fun t => flat_rate t * SACCR.notional t)
                       (SACCR.transactions ns_incomplete_option))
              - SACCR.collateral ns_incomplete_option) 0).
Proof.
  assert (H : Forall flat_valued (SACCR.transactions ns_incomplete_option)).
  { constructor; [left; reflexivity |]. constructor; [| constructor].
    right. right. right. right. left. reflexivity. }
  split; [exact H | exact (flat_replacement_cost ns_incomplete_option H)].
Defined.

(** ** Scaling of the parametric method *)

Definition scale_contribution (kappa : R) (c : VaR.AssetContribution)
    : VaR.AssetContribution :=
  {| VaR.asset_id := VaR.asset_id c;
     VaR.contribution_ticker := VaR.contribution_ticker c;
     VaR.contribution_asset_class := VaR.contribution_asset_class c;
     VaR.var_contribution := VaR.var_contribution c * kappa;
     VaR.var_contribution_percentage := VaR.var_contribution_percentage c |}.

Lemma parametric_contribution_scaled (n : nat) (weights : list R) (vm : matrix)
    (sq dvar kappa : R) (ip : nat * VaR.Position) (c : VaR.AssetContribution) :
  kappa <> 0 ->
  VaR.parametric_contribution n weights vm sq dvar ip = Ok c ->
  VaR.parametric_contribution n weights vm sq (dvar * kappa) ip
  = Ok (scale_contribution kappa c).
Proof.
  intros Hk. destruct ip as [i p]. unfold VaR.parametric_contribution. intros H.
  bind_inv_as H mcr Hmcr. bind_inv_as H pct Hpct. injection H as <-.
  rewrite Hmcr. cbn [bind].
  apply fdiv_Ok_inv in Hpct. destruct Hpct as [Hd ->].
  rewrite fdiv_Ok by (apply Rmult_integral_contrapositive_currified; assumption).
  cbn [bind]. unfold scale_contribution, VaR.make_contribution.
  cbn [VaR.asset_id VaR.contribution_ticker VaR.contribution_asset_class
       VaR.var_contribution VaR.var_contribution_percentage].
  f_equal. f_equal; [ring | field; split; assumption].
Qed.

(** The parametric method scales with the confidence level and the
    horizon: going from one pair to another multiplies the VaR, every
    component VaR and the diversification benefit by the ratio of the
    products of z-score and time factor, and leaves the contribution
    percentages as they are. *)
Lemma parametric_scaling (pf : VaR.Portfolio) (cl cl' : VaR.ConfidenceLevel)
    (th th' : VaR.TimeHorizon) (var benefit : R) (cs : list VaR.AssetContribution) :
  VaR.calculate_parametric_var pf cl th = Ok (var, cs, benefit) ->
  let kappa := VaR.CONFIDENCE_LEVELS cl' * VaR.TIME_HORIZON_FACTORS th'
               / (VaR.CONFIDENCE_LEVELS cl * VaR.TIME_HORIZON_FACTORS th) in
  VaR.calculate_parametric_var pf cl' th'
  = Ok (var * kappa, map (scale_contribution kappa) cs, benefit * kappa).
Proof.
  intros H kappa.
  pose proof (CONFIDENCE_LEVELS_pos cl) as Hz.
  pose proof (CONFIDENCE_LEVELS_pos cl') as Hz'.
  pose proof (TIME_HORIZON_FACTORS_pos th) as Ht.
  pose proof (TIME_HORIZON_FACTORS_pos th') as Ht'.
  pose proof sqrt_252_pos as H252.
  assert (Hzt : 0 < VaR.CONFIDENCE_LEVELS cl * VaR.TIME_HORIZON_FACTORS th)
    by now apply Rmult_lt_0_compat.
  assert (Hk : kappa <> 0).
  { unfold kappa. apply Rgt_not_eq, Rdiv_lt_0_compat; [| assumption].
    now apply Rmult_lt_0_compat. }
  unfold VaR.calculate_parametric_var in *.
  bind_inv_as H weights Hw. bind_inv_as H sq Hsq. bind_inv_as H cs0 Hcs.
  injection H as <- <- <-.
  rewrite Hw. cbn [bind]. rewrite Hsq. cbn [bind].
  set (z := VaR.CONFIDENCE_LEVELS cl) in *. set (z' := VaR.CONFIDENCE_LEVELS cl') in *.
  set (t := VaR.TIME_HORIZON_FACTORS th) in *.
  set (t' := VaR.TIME_HORIZON_FACTORS th') in *.
  set (pv := VaR.calculate_portfolio_value pf) in *.
  assert (Hdvar : pv * sq * z' * t' / sqrt 252 = pv * sq * z * t / sqrt 252 * kappa)
    by (unfold kappa; field; repeat split; lra).
  rewrite Hdvar.
  assert (Hcs' : mapM (VaR.parametric_contribution (List.length (VaR.positions pf))
                         weights (VaR.variance_matrix (VaR.positions pf)) sq
                         (pv * sq * z * t / sqrt 252 * kappa))
                      (enumerate (VaR.positions pf))
                 = Ok (map (scale_contribution kappa) cs0)).
  { apply mapM_Ok_Forall2 in Hcs.
    induction Hcs as [| ip c ips cs1 Hc _ IH]; [reflexivity |].
    cbn [mapM map]. rewrite (parametric_contribution_scaled _ _ _ _ _ _ _ _ Hk Hc), IH.
    reflexivity. }
  rewrite Hcs'. cbn [bind]. do 2 f_equal.
  assert (Hund : sum (map (VaR.position_var z' t') (VaR.positions pf))
                 = sum (map (VaR.position_var z t) (VaR.positions pf)) * kappa).
  { rewrite <- sum_map_mult_r. apply sum_map_ext. intros p _.
    unfold VaR.position_var, kappa. field. repeat split; lra. }
  rewrite Hund. ring.
Qed.

Lemma parametric_scaling_witness :
  VaR.calculate_parametric_var pf_single VaR.CL_95 VaR.ONE_DAY
  = Ok (100 * 0.2 * 1.645 * 1 / sqrt 252,
        [VaR.make_contribution single_default
           (0.2 * (100 * 0.2 * 1.645 * 1 / sqrt 252)) 20],
        0) /\
  let kappa := VaR.CONFIDENCE_LEVELS VaR.CL_99 * VaR.TIME_HORIZON_FACTORS VaR.TEN_DAY
               / (VaR.CONFIDENCE_LEVELS VaR.CL_95 * VaR.TIME_HORIZON_FACTORS VaR.ONE_DAY) in
  VaR.calculate_parametric_var pf_single VaR.CL_99 VaR.TEN_DAY
  = Ok (100 * 0.2 * 1.645 * 1 / sqrt 252 * kappa,
        map (scale_contribution kappa)
            [VaR.make_contribution single_default
               (0.2 * (100 * 0.2 * 1.645 * 1 / sqrt 252)) 20],
        0 * kappa).
Proof.
  split; [exact pf_single_parametric |].
  exact (parametric_scaling pf_single VaR.CL_95 VaR.CL_99 VaR.ONE_DAY VaR.TEN_DAY
           _ _ _ pf_single_parametric).
Defined.
